(** * RailOptima optimisation engine: the CP-SAT scheduling model,
      the schedule extractor and the performance monitor.

    Shallow embedding of [opt-engine/src/optimizer.py] and
    [opt-engine/src/performance_monitor.py].

    Conventions.
    - Python [int] is [Z]; Python [float] (weights, objective) is the exact
      rational [Q], so rounding of IEEE doubles is outside the model.
    - A [datetime] is a number of seconds ([Z]) on a fixed time line; a
      [timedelta(minutes=t)] is [60 * t] seconds.
    - A Python [dict] is a [gmap]; subscripting a missing key raises
      [KeyError], membership [k in d] is [contains d k].
    - The CP-SAT model under construction is an explicit state threaded
      through the builders by the monad [M]; a raised exception is the
      left summand of the result. *)

From Stdlib Require Import ZArith QArith List String Sorted Permutation Lia.
From stdpp Require Import gmap strings list fin_maps.

Close Scope Q_scope.
Close Scope string_scope.
Open Scope Z_scope.

(** ** Input and output records ([schemas.py]) *)

Record TrainData := mkTrain {
  train_id : string;
  current_position : string;
  scheduled_arrival : option Z;   (* datetime, seconds *)
  actual_arrival : option Z;
  priority : Z;
  delay_minutes : Z;
  destination : string;
  route : list string
}.

Record TrackData := mkTrack {
  segment_id : string;
  from_station : string;
  to_station : string;
  capacity : Z;
  headway_minutes : Z
}.

Record ConflictData := mkConflict {
  conflict_id : string;
  train_ids : list string;
  resource_id : string;
  conflict_type : string;
  severity : Z
}.

Record ScheduleEntry := mkEntry {
  entry_train_id : string;
  entry_segment_id : string;
  start_time : Z;                 (* datetime, seconds *)
  end_time : Z;
  platform : option Z
}.

Record OptimizationResult := mkResult {
  schedule : list ScheduleEntry;
  objective_value : Q;
  solve_time : Z;
  conflicts_resolved : Z;
  total_delay_minutes : Z
}.

(** [class ConflictType(Enum)] with the [.value] of each member. *)
Inductive ConflictType :=
  TRACK_OCCUPATION | PLATFORM_CONFLICT | JUNCTION_CROSSING | HEADWAY_VIOLATION.

Definition ConflictType_value (k : ConflictType) : string :=
  match k with
  | TRACK_OCCUPATION => "track_occupation"
  | PLATFORM_CONFLICT => "platform_conflict"
  | JUNCTION_CROSSING => "junction_crossing"
  | HEADWAY_VIOLATION => "headway_violation"
  end.

Record OptimizationConfig := mkConfig {
  time_horizon_minutes : Z;
  time_step_minutes : Z;
  max_solve_time_seconds : Z;
  delay_weight : Q;
  conflict_weight : Q;
  priority_multiplier : Q;
  headway_buffer_minutes : Z
}.

Definition default_config : OptimizationConfig :=
  mkConfig 240 1 30 1%Q 100%Q 2%Q 2.

(** ** The constraint model (the part of [cp_model] the builders use) *)

Module Cp.

Definition var := nat.

(** A Boolean variable or its negation [v.Not()]. *)
Inductive lit := Pos (v : var) | Neg (v : var).

(** Integer linear expressions as Python builds them. *)
Inductive expr :=
| EConst (z : Z)
| EVar (v : var)
| EAdd (a b : expr).

Inductive rel := Le | Ge | Eq | Ne.

(** [model.Add(lhs r rhs)] with its [OnlyEnforceIf] literals, and
    [model.AddImplication(a, b)]. *)
Inductive constraint :=
| Lin (lhs : expr) (r : rel) (rhs : expr) (enforce : list lit)
| Implication (a b : lit).

(** Objective expressions carry float coefficients. *)
Inductive fexpr :=
| FConst (q : Q)
| FScale (q : Q) (e : expr)
| FAdd (a b : fexpr).

Record CpModel := mkModel {
  next_var : var;
  domains : list (var * (Z * Z));
  constraints : list constraint;
  objective : option fexpr
}.

Definition empty_model : CpModel := mkModel 0%nat [] [] None.

(** Python's [sum(iterable)]: a left fold of [+] from the integer 0. *)
Definition py_sum (l : list expr) : expr := fold_left EAdd l (EConst 0).
Definition py_fsum (l : list fexpr) : fexpr := fold_left FAdd l (FConst 0%Q).

(** *** Assignments and feasibility *)

Definition assignment := var → Z.

Definition lit_holds (a : assignment) (l : lit) : bool :=
  match l with
  | Pos v => a v =? 1
  | Neg v => a v =? 0
  end.

Fixpoint eval (a : assignment) (e : expr) : Z :=
  match e with
  | EConst z => z
  | EVar v => a v
  | EAdd e1 e2 => eval a e1 + eval a e2
  end.

Definition rel_holds (r : rel) (u v : Z) : bool :=
  match r with
  | Le => u <=? v
  | Ge => u >=? v
  | Eq => u =? v
  | Ne => negb (u =? v)
  end.

Definition constraint_holds (a : assignment) (ct : constraint) : bool :=
  match ct with
  | Lin lhs r rhs enforce =>
      if forallb (lit_holds a) enforce
      then rel_holds r (eval a lhs) (eval a rhs) else true
  | Implication p q => implb (lit_holds a p) (lit_holds a q)
  end.

Definition in_domain (a : assignment) (d : var * (Z * Z)) : bool :=
  (d.2.1 <=? a d.1) && (a d.1 <=? d.2.2).

Definition feasible (m : CpModel) (a : assignment) : bool :=
  forallb (in_domain a) (domains m) && forallb (constraint_holds a) (constraints m).

Fixpoint feval (a : assignment) (e : fexpr) : Q :=
  match e with
  | FConst q => q
  | FScale q e => (q * inject_Z (eval a e))%Q
  | FAdd e1 e2 => (feval a e1 + feval a e2)%Q
  end.

End Cp.

(** ** The builder monad: model state plus Python exceptions *)

Inductive exn :=
| KeyError
| Exception (msg : string).

Definition M (A : Type) : Type := Cp.CpModel → exn + (A * Cp.CpModel).

Global Instance M_ret : MRet M := λ A a s, inr (a, s).
Global Instance M_bind : MBind M := λ A B f m s,
  match m s with
  | inl e => inl e
  | inr (a, s') => f a s'
  end.

Definition raise {A} (e : exn) : M A := λ _, inl e.

(** Code that can raise but does not touch the model. *)
Global Instance E_ret : MRet (sum exn) := λ A a, inr a.
Global Instance E_bind : MBind (sum exn) := λ A B f m,
  match m with
  | inl e => inl e
  | inr a => f a
  end.

(** [for a in l: f(a)] *)
Fixpoint forM_ {F} `{MBind F, MRet F} {A} (l : list A) (f : A → F unit) : F unit :=
  match l with
  | [] => mret tt
  | a :: l' => f a ;; forM_ l' f
  end.

(** A loop that threads a local accumulator. *)
Fixpoint foldM {F} `{MBind F, MRet F} {A B} (f : B → A → F B) (b : B) (l : list A) : F B :=
  match l with
  | [] => mret b
  | a :: l' => b' ← f b a; foldM f b' l'
  end.

(** [[f(a) for a in l]] *)
Fixpoint collectM {F} `{MBind F, MRet F} {A B} (f : A → F B) (l : list A) : F (list B) :=
  match l with
  | [] => mret []
  | a :: l' => b ← f a; bs ← collectM f l'; mret (b :: bs)
  end.

(** [d[k]] and [k in d] *)
Definition subscript {K V} `{Countable K} (d : gmap K V) (k : K) : exn + V :=
  match d !! k with
  | Some v => inr v
  | None => inl KeyError
  end.

Definition getitem {K V} `{Countable K} (d : gmap K V) (k : K) : M V := λ s,
  match subscript d k with
  | inr v => inr (v, s)
  | inl e => inl e
  end.

Definition contains {K V} `{Countable K} (d : gmap K V) (k : K) : bool :=
  if d !! k is Some _ then true else false.

(** [range(n)], [range(a, b)], [enumerate(l)] *)
Definition range (n : Z) : list Z := Z.of_nat <$> seq 0 (Z.to_nat n).
Definition range_from (a b : Z) : list Z := (λ i, a + Z.of_nat i) <$> seq 0 (Z.to_nat (b - a)).
Definition enumerate {A} (l : list A) : list (Z * A) := zip (range (Z.of_nat (length l))) l.
Definition len {A} (l : list A) : Z := Z.of_nat (length l).

(** *** Model primitives *)

Definition NewIntVar (lo hi : Z) : M Cp.var := λ m,
  inr (Cp.next_var m,
       Cp.mkModel (S (Cp.next_var m)) ((Cp.next_var m, (lo, hi)) :: Cp.domains m)
                  (Cp.constraints m) (Cp.objective m)).

Definition NewBoolVar : M Cp.var := NewIntVar 0 1.

Definition add_constraint (ct : Cp.constraint) : M unit := λ m,
  inr (tt, Cp.mkModel (Cp.next_var m) (Cp.domains m)
                      (Cp.constraints m ++ [ct]) (Cp.objective m)).

(** [model.Add(lhs r rhs)] *)
Definition Add (lhs : Cp.expr) (r : Cp.rel) (rhs : Cp.expr) : M unit :=
  add_constraint (Cp.Lin lhs r rhs []).

(** [model.Add(lhs r rhs).OnlyEnforceIf(l)] *)
Definition AddOnlyEnforceIf (lhs : Cp.expr) (r : Cp.rel) (rhs : Cp.expr) (l : Cp.lit) : M unit :=
  add_constraint (Cp.Lin lhs r rhs [l]).

Definition AddImplication (a b : Cp.lit) : M unit :=
  add_constraint (Cp.Implication a b).

Definition Minimize (e : Cp.fexpr) : M unit := λ m,
  inr (tt, Cp.mkModel (Cp.next_var m) (Cp.domains m) (Cp.constraints m) (Some e)).

(** ** [class RailwayOptimizer] *)

(** [self.variables]: the five families of decision variables. *)
Record Variables := mkVars {
  var_x : gmap string (gmap string (gmap Z Cp.var));
  var_s : gmap string Cp.var;
  var_c : gmap string Cp.var;
  var_p : gmap string (gmap string Cp.var);
  var_j : gmap string Cp.var
}.

(** [x[train_id][segment_id][t]] *)
Definition x_at (x : gmap string (gmap string (gmap Z Cp.var)))
    (tid sid : string) (t : Z) : M Cp.var :=
  xt ← getitem x tid; row ← getitem xt sid; getitem row t.

(** [(l[i], l[i+1]) for i in range(len(l) - 1)] *)
Fixpoint consecutive {A} (l : list A) : list (A * A) :=
  match l with
  | a :: l' => match l' with
               | b :: _ => (a, b) :: consecutive l'
               | [] => []
               end
  | [] => []
  end.

Definition connects (a b : string) (track : TrackData) : bool :=
  (bool_decide (from_station track = a) && bool_decide (to_station track = b))
  || (bool_decide (from_station track = b) && bool_decide (to_station track = a)).

(** The first track joining each pair of consecutive stations; a pair no
    track joins contributes nothing. *)
Definition _get_route_segments (train : TrainData) (tracks : list TrackData) : list string :=
  omap (λ ab, segment_id <$> List.find (connects ab.1 ab.2) tracks)
       (consecutive (route train)).

(** [f"{route[i]}-{route[i+1]}"] *)
Definition _get_route_segments_from_train (train : TrainData) : list string :=
  (λ ab, ab.1 +:+ "-" +:+ ab.2) <$> consecutive (route train).

Section Optimizer.

(** [datetime.now().replace(hour=0, minute=0, second=0, microsecond=0)],
    in seconds. *)
Variable today_midnight : Z.

(** [int(total_seconds / 60)] truncates towards zero. *)
Definition _get_scheduled_start_minutes (train : TrainData) : option Z :=
  match scheduled_arrival train with
  | Some arrival => Some ((arrival - today_midnight) ÷ 60)
  | None => None
  end.

Variable config : OptimizationConfig.

Definition time_slots : list Z := range (time_horizon_minutes config).

(** *** Decision variables *)

Definition new_x (trains : list TrainData) (tracks : list TrackData)
  : M (gmap string (gmap string (gmap Z Cp.var))) :=
  foldM (λ x train,
    xt ← foldM (λ xt track,
            row ← foldM (λ row t, v ← NewBoolVar; mret (<[t := v]> row)) ∅ time_slots;
            mret (<[segment_id track := row]> xt)) ∅ tracks;
    mret (<[train_id train := xt]> x)) ∅ trains.

Definition new_s (trains : list TrainData) : M (gmap string Cp.var) :=
  foldM (λ s train,
    let max_delay := Z.min 120 (time_horizon_minutes config / 2) in
    v ← NewIntVar 0 max_delay; mret (<[train_id train := v]> s)) ∅ trains.

Definition new_c (conflicts : list ConflictData) : M (gmap string Cp.var) :=
  foldM (λ c conflict, v ← NewBoolVar; mret (<[conflict_id conflict := v]> c)) ∅ conflicts.

(** [set(train.route)] is iterated in an unspecified order; only the
    numbering of the fresh variables depends on it. *)
Definition new_p (trains : list TrainData) : M (gmap string (gmap string Cp.var)) :=
  foldM (λ p train,
    pt ← foldM (λ pt station_code, v ← NewIntVar 1 10; mret (<[station_code := v]> pt))
               ∅ (remove_dups (route train));
    mret (<[train_id train := pt]> p)) ∅ trains.

Definition new_j (trains : list TrainData) : M (gmap string Cp.var) :=
  foldM (λ j train,
    v ← NewIntVar 0 (time_horizon_minutes config); mret (<[train_id train := v]> j)) ∅ trains.

(** *** Constraints *)

Definition _add_capacity_constraints (trains : list TrainData) (tracks : list TrackData)
    (x : gmap string (gmap string (gmap Z Cp.var))) : M unit :=
  forM_ tracks (λ track,
    forM_ time_slots (λ t,
      occupancy_vars ← foldM (λ acc train,
          xt ← getitem x (train_id train);
          if contains xt (segment_id track)
          then v ← x_at x (train_id train) (segment_id track) t; mret (acc ++ [v])
          else mret acc) [] trains;
      match occupancy_vars with
      | [] => mret tt
      | _ => Add (Cp.py_sum (Cp.EVar <$> occupancy_vars)) Cp.Le (Cp.EConst (capacity track))
      end)).

Definition _add_route_continuity_constraints (trains : list TrainData)
    (tracks : list TrackData) (x : gmap string (gmap string (gmap Z Cp.var))) : M unit :=
  forM_ trains (λ train,
    let route_segments := _get_route_segments train tracks in
    if len route_segments <? 2 then mret tt
    else
      forM_ (consecutive route_segments) (λ cn,
        let current_segment := cn.1 in
        let next_segment := cn.2 in
        forM_ (range (len time_slots - 1)) (λ t,
          xt ← getitem x (train_id train);
          if contains xt current_segment && contains xt next_segment then
            leaving_current ← NewBoolVar;
            v0 ← x_at x (train_id train) current_segment t;
            AddOnlyEnforceIf (Cp.EVar v0) Cp.Eq (Cp.EConst 1) (Cp.Pos leaving_current);;
            v1 ← x_at x (train_id train) current_segment (t + 1);
            AddOnlyEnforceIf (Cp.EVar v1) Cp.Eq (Cp.EConst 0) (Cp.Pos leaving_current);;
            v2 ← x_at x (train_id train) next_segment (t + 1);
            AddOnlyEnforceIf (Cp.EVar v2) Cp.Eq (Cp.EConst 1) (Cp.Pos leaving_current)
          else mret tt));;
      match last route_segments with
      | Some last_segment =>
          xt ← getitem x (train_id train);
          if contains xt last_segment then
            vs ← collectM (x_at x (train_id train) last_segment) time_slots;
            Add (Cp.py_sum (Cp.EVar <$> vs)) Cp.Ge (Cp.EConst 1)
          else mret tt
      | None => mret tt
      end).

Definition _add_headway_constraints (trains : list TrainData) (tracks : list TrackData)
    (x : gmap string (gmap string (gmap Z Cp.var))) : M unit :=
  let headway := headway_buffer_minutes config + 3 in
  forM_ tracks (λ track,
    forM_ (enumerate trains) (λ it1,
      forM_ (enumerate trains) (λ it2,
        if it1.1 >=? it2.1 then mret tt
        else
          xt1 ← getitem x (train_id it1.2);
          xt2 ← getitem x (train_id it2.2);
          if contains xt1 (segment_id track) && contains xt2 (segment_id track) then
            forM_ (range (len time_slots - headway)) (λ t,
              forM_ (range_from 1 (headway + 1)) (λ h,
                if t + h <? len time_slots then
                  v1 ← x_at x (train_id it1.2) (segment_id track) t;
                  v2 ← x_at x (train_id it2.2) (segment_id track) (t + h);
                  AddImplication (Cp.Pos v1) (Cp.Neg v2)
                else mret tt))
          else mret tt))).

(** [station_trains]: an insertion-ordered dict from station to the list
    of trains whose route names it. *)
Fixpoint station_append (station : string) (train : TrainData)
    (d : list (string * list TrainData)) : list (string * list TrainData) :=
  match d with
  | [] => [(station, [train])]
  | kv :: d' =>
      if bool_decide (kv.1 = station) then (kv.1, kv.2 ++ [train]) :: d'
      else kv :: station_append station train d'
  end.

Definition station_trains (trains : list TrainData) : list (string * list TrainData) :=
  fold_left (λ d train, fold_left (λ d station, station_append station train d) (route train) d)
            trains [].

Definition has_platform (p : gmap string (gmap string Cp.var)) (tid station : string) : bool :=
  match p !! tid with
  | Some pt => contains pt station
  | None => false
  end.

Definition p_at (p : gmap string (gmap string Cp.var)) (tid station : string) : M Cp.var :=
  pt ← getitem p tid; getitem pt station.

Definition _add_platform_constraints (trains : list TrainData)
    (p : gmap string (gmap string Cp.var)) : M unit :=
  forM_ (station_trains trains) (λ entry,
    let station := entry.1 in
    forM_ (enumerate entry.2) (λ it1,
      forM_ (enumerate entry.2) (λ it2,
        if it1.1 >=? it2.1 then mret tt
        else if has_platform p (train_id it1.2) station
                && has_platform p (train_id it2.2) station then
          same_platform ← NewBoolVar;
          p1 ← p_at p (train_id it1.2) station;
          p2 ← p_at p (train_id it2.2) station;
          AddOnlyEnforceIf (Cp.EVar p1) Cp.Eq (Cp.EVar p2) (Cp.Pos same_platform);;
          p1' ← p_at p (train_id it1.2) station;
          p2' ← p_at p (train_id it2.2) station;
          AddOnlyEnforceIf (Cp.EVar p1') Cp.Ne (Cp.EVar p2') (Cp.Neg same_platform)
        else mret tt))).

Definition has_x (x : gmap string (gmap string (gmap Z Cp.var))) (tid sid : string) : bool :=
  match x !! tid with
  | Some xt => contains xt sid
  | None => false
  end.

Definition _add_conflict_constraints (trains : list TrainData) (tracks : list TrackData)
    (conflicts : list ConflictData) (x : gmap string (gmap string (gmap Z Cp.var)))
    (c : gmap string Cp.var) : M unit :=
  forM_ conflicts (λ conflict,
    if bool_decide (conflict_type conflict = ConflictType_value TRACK_OCCUPATION) then
      let conflict_trains := train_ids conflict in
      let resource_id := resource_id conflict in
      match List.find (λ t, bool_decide (segment_id t = resource_id)) tracks with
      | None => mret tt
      | Some track =>
          forM_ time_slots (λ t,
            occupancy_vars ← foldM (λ acc train_id,
                if has_x x train_id resource_id
                then v ← x_at x train_id resource_id t; mret (acc ++ [v])
                else mret acc) [] conflict_trains;
            if len occupancy_vars >? 1 then
              let total_occupancy := Cp.py_sum (Cp.EVar <$> occupancy_vars) in
              cq ← getitem c (conflict_id conflict);
              AddOnlyEnforceIf total_occupancy Cp.Le (Cp.EConst (capacity track)) (Cp.Neg cq);;
              cq' ← getitem c (conflict_id conflict);
              AddOnlyEnforceIf total_occupancy Cp.Ge (Cp.EConst (capacity track + 1)) (Cp.Pos cq')
            else mret tt)
      end
    else mret tt).

Definition _add_timing_constraints (trains : list TrainData)
    (x : gmap string (gmap string (gmap Z Cp.var)))
    (s j : gmap string Cp.var) : M unit :=
  forM_ trains (λ train,
    let route_segments := _get_route_segments_from_train train in
    match last route_segments with
    | Some last_segment =>
        xt ← getitem x (train_id train);
        if contains xt last_segment then
          forM_ time_slots (λ t,
            if t <? len time_slots - 1 then
              completing ← NewBoolVar;
              v0 ← x_at x (train_id train) last_segment t;
              AddOnlyEnforceIf (Cp.EVar v0) Cp.Eq (Cp.EConst 1) (Cp.Pos completing);;
              v1 ← x_at x (train_id train) last_segment (t + 1);
              AddOnlyEnforceIf (Cp.EVar v1) Cp.Eq (Cp.EConst 0) (Cp.Pos completing);;
              jv ← getitem j (train_id train);
              AddOnlyEnforceIf (Cp.EVar jv) Cp.Eq (Cp.EConst (t + 1)) (Cp.Pos completing)
            else mret tt)
        else mret tt
    | None => mret tt
    end;;
    match _get_scheduled_start_minutes train with
    | Some scheduled_start_minutes =>
        match head (_get_route_segments_from_train train) with
        | Some first_segment =>
            xt ← getitem x (train_id train);
            if contains xt first_segment then
              forM_ time_slots (λ t,
                if t <? scheduled_start_minutes then
                  v ← x_at x (train_id train) first_segment t;
                  Add (Cp.EVar v) Cp.Eq (Cp.EConst 0)
                else if t >=? scheduled_start_minutes then
                  can_start ← NewBoolVar;
                  sv ← getitem s (train_id train);
                  AddOnlyEnforceIf (Cp.EConst t) Cp.Ge
                    (Cp.EAdd (Cp.EConst scheduled_start_minutes) (Cp.EVar sv))
                    (Cp.Pos can_start)
                else mret tt)
            else mret tt
        | None => mret tt
        end
    | None => mret tt
    end).

(** *** Objective *)

Definition _set_objective (trains : list TrainData) (conflicts : list ConflictData)
    (s c j : gmap string Cp.var) : M unit :=
  terms1 ← foldM (λ objective_terms train,
      let priority_weight :=
        (delay_weight config * inject_Z (6 - priority train) * priority_multiplier config)%Q in
      sv ← getitem s (train_id train);
      mret (objective_terms ++ [Cp.FScale priority_weight (Cp.EVar sv)])) [] trains;
  terms2 ← foldM (λ objective_terms train,
      let journey_weight := (delay_weight config * (1 # 10))%Q in
      jv ← getitem j (train_id train);
      mret (objective_terms ++ [Cp.FScale journey_weight (Cp.EVar jv)])) terms1 trains;
  terms3 ← foldM (λ objective_terms conflict,
      let conflict_penalty := (conflict_weight config * inject_Z (6 - severity conflict))%Q in
      cv ← getitem c (conflict_id conflict);
      mret (objective_terms ++ [Cp.FScale conflict_penalty (Cp.EVar cv)])) terms2 conflicts;
  svs ← collectM (λ train, getitem s (train_id train)) trains;
  let total_delay := Cp.py_sum (Cp.EVar <$> svs) in
  let terms4 := terms3 ++ [Cp.FScale (delay_weight config * (1 # 100))%Q total_delay] in
  Minimize (Cp.py_fsum terms4).

Definition _create_model (trains : list TrainData) (tracks : list TrackData)
    (conflicts : list ConflictData) : M Variables :=
  x ← new_x trains tracks;
  s ← new_s trains;
  c ← new_c conflicts;
  p ← new_p trains;
  j ← new_j trains;
  _add_capacity_constraints trains tracks x;;
  _add_route_continuity_constraints trains tracks x;;
  _add_headway_constraints trains tracks x;;
  _add_platform_constraints trains p;;
  _add_conflict_constraints trains tracks conflicts x c;;
  _add_timing_constraints trains x s j;;
  _set_objective trains conflicts s c j;;
  mret (mkVars x s c p j).

(** *** Reading a solution back *)

(** The solver after [Solve]: its status and the value it gives to each
    variable; the values mean something only for OPTIMAL and FEASIBLE. *)
Inductive CpSolverStatus := UNKNOWN | MODEL_INVALID | FEASIBLE | INFEASIBLE | OPTIMAL.

Record CpSolver := mkSolver {
  status : CpSolverStatus;
  Value : Cp.assignment;
  ObjectiveValue : Q
}.

(** Python's [sorted(l, key=...)] is a stable sort; a stable sort has one
    possible result, computed here by insertion. *)
Fixpoint insert_by {A} (key : A → Z) (e : A) (l : list A) : list A :=
  match l with
  | [] => [e]
  | h :: l' => if key e <=? key h then e :: l else h :: insert_by key e l'
  end.

Definition sorted {A} (key : A → Z) (l : list A) : list A :=
  foldr (insert_by key) [] l.

(** The tick loop of [_extract_schedule] for one (train, track): returns
    [(start_time, end_time)] as they stand when the loop is left, by
    exhaustion or by [break]. *)
Fixpoint scan_ticks (value : Z → exn + Z) (base_time : Z) (ticks : list Z)
    (start_time end_time : option Z) : exn + (option Z * option Z) :=
  match ticks with
  | [] => inr (start_time, end_time)
  | t :: ticks' =>
      v ← value t;
      if v =? 1 then
        let start_time' :=
          match start_time with
          | None => Some (base_time + 60 * t)
          | Some _ => start_time
          end in
        scan_ticks value base_time ticks' start_time' (Some (base_time + 60 * (t + 1)))
      else
        match start_time with
        | Some _ => inr (start_time, end_time)
        | None => scan_ticks value base_time ticks' start_time end_time
        end
  end.

(** [solver.Value(x[train_id][segment_id][t])] *)
Definition x_value (solver : CpSolver) (x : gmap string (gmap string (gmap Z Cp.var)))
    (tid sid : string) (t : Z) : exn + Z :=
  xt ← subscript x tid; row ← subscript xt sid; v ← subscript row t;
  mret (Value solver v).

(** The platform of the first station of the route that has a platform
    variable. *)
Definition platform_of (solver : CpSolver) (p : gmap string (gmap string Cp.var))
    (train : TrainData) : exn + option Z :=
  match List.find (has_platform p (train_id train)) (route train) with
  | Some station_code =>
      pt ← subscript p (train_id train); pv ← subscript pt station_code;
      mret (Some (Value solver pv))
  | None => mret None
  end.

(** The body of [_extract_schedule] up to the final [sorted]. *)
Definition collect_schedule (vars : Variables) (solver : CpSolver) (base_time : Z)
    (trains : list TrainData) (tracks : list TrackData) : exn + list ScheduleEntry :=
  let x := var_x vars in
  let p := var_p vars in
  foldM (λ schedule train,
    foldM (λ schedule track,
      xt ← subscript x (train_id train);
      if contains xt (segment_id track) then
        period ← scan_ticks (x_value solver x (train_id train) (segment_id track))
                            base_time time_slots None None;
        match period with
        | (Some start_time, Some end_time) =>
            platform ← platform_of solver p train;
            mret (schedule ++ [mkEntry (train_id train) (segment_id track)
                                       start_time end_time platform])
        | _ => mret schedule
        end
      else mret schedule) schedule tracks) [] trains.

Definition _extract_schedule (vars : Variables) (solver : CpSolver) (base_time : Z)
    (trains : list TrainData) (tracks : list TrackData) : exn + list ScheduleEntry :=
  schedule ← collect_schedule vars solver base_time trains tracks;
  mret (sorted start_time schedule).

(** The dict returned by [_calculate_metrics]. *)
Record Metrics := mkMetrics {
  metrics_objective_value : Q;
  metrics_total_delay : Z;
  metrics_conflicts_resolved : Z;
  metrics_average_delay : Q;
  metrics_average_journey_time : Q
}.

(** Python's [sum] over integers. *)
Definition sum_Z (l : list Z) : Z := fold_left Z.add l 0.

Definition _calculate_metrics (vars : Variables) (solver : CpSolver)
    (trains : list TrainData) (conflicts : list ConflictData) : exn + Metrics :=
  let s := var_s vars in
  let c := var_c vars in
  let j := var_j vars in
  delays ← collectM (λ train, sv ← subscript s (train_id train); mret (Value solver sv)) trains;
  let total_delay := sum_Z delays in
  resolved ← foldM (λ acc conflict,
      cv ← subscript c (conflict_id conflict);
      mret (if Value solver cv =? 0 then acc ++ [1] else acc)) [] conflicts;
  let conflicts_resolved := sum_Z resolved in
  let objective_value := ObjectiveValue solver in
  journeys ← match trains with
             | [] => mret []
             | _ => collectM (λ train, jv ← subscript j (train_id train);
                                       mret (Value solver jv)) trains
             end;
  mret (mkMetrics objective_value total_delay conflicts_resolved
          (match trains with [] => 0%Q | _ => inject_Z total_delay / inject_Z (len trains) end)%Q
          (match trains with [] => 0%Q | _ => inject_Z (sum_Z journeys) / inject_Z (len trains) end)%Q).

End Optimizer.

(** *** [optimize] *)

Record RailwayOptimizer := mkOptimizer {
  solver_type : string;
  config : OptimizationConfig;
  variables : option Variables
}.

(** [RailwayOptimizer.__init__(solver_type, config)] *)
Definition RailwayOptimizer_init (solver_type : string) (config : option OptimizationConfig)
  : RailwayOptimizer :=
  mkOptimizer solver_type (default default_config config) None.

Definition set_time_horizon (config : OptimizationConfig) (time_horizon : Z) : OptimizationConfig :=
  mkConfig time_horizon (time_step_minutes config) (max_solve_time_seconds config)
           (delay_weight config) (conflict_weight config) (priority_multiplier config)
           (headway_buffer_minutes config).

Section Solving.

(** What the environment answers during one call: the CP-SAT back end
    (given its time limit and the model), and the clock readings. *)
Variable Solve : Z → Cp.CpModel → CpSolver.
Variable today_midnight : Z.
Variable clock_start clock_end : Z.
Variable base_time : Z.

(** [_apply_warm_start] only logs. *)
Definition _solve_model (self : RailwayOptimizer) (model : Cp.CpModel)
    (warm_start : option (list ScheduleEntry)) : option CpSolver :=
  let solver := Solve (max_solve_time_seconds (config self)) model in
  match status solver with
  | OPTIMAL => Some solver
  | FEASIBLE => Some solver
  | _ => None
  end.

(** Returns what the call returns or raises, and the optimizer object
    as the call leaves it. *)
Definition optimize (self : RailwayOptimizer) (trains : list TrainData)
    (tracks : list TrackData) (conflicts : list ConflictData) (time_horizon : Z)
    (warm_start : option (list ScheduleEntry))
  : (exn + OptimizationResult) * RailwayOptimizer :=
  let config' := set_time_horizon (config self) time_horizon in
  (* [_create_model] starts with [self.variables = {}] *)
  let self1 := mkOptimizer (solver_type self) config' None in
  match _create_model today_midnight config' trains tracks conflicts Cp.empty_model with
  | inl e => (inl e, self1)
  | inr (vars, model) =>
      let self2 := mkOptimizer (solver_type self) config' (Some vars) in
      let solve_time := clock_end - clock_start in
      match _solve_model self2 model warm_start with
      | Some solution =>
          (schedule ← _extract_schedule config' vars solution base_time trains tracks;
           metrics ← _calculate_metrics vars solution trains conflicts;
           mret (mkResult schedule (metrics_objective_value metrics) solve_time
                          (metrics_conflicts_resolved metrics) (metrics_total_delay metrics)),
           self2)
      | None => (inl (Exception "Optimization failed - no feasible solution found"), self2)
      end
  end.

(** *** [class GurobiOptimizer(RailwayOptimizer)] *)

Record GurobiOptimizer := mkGurobi {
  base : RailwayOptimizer;
  gurobi_available : bool
}.

(** [gurobipy_importable]: whether [import gurobipy] succeeds. *)
Definition GurobiOptimizer_init (config : option OptimizationConfig)
    (gurobipy_importable : bool) : GurobiOptimizer :=
  mkGurobi (RailwayOptimizer_init "gurobi" config) gurobipy_importable.

Definition GurobiOptimizer_optimize (self : GurobiOptimizer) (trains : list TrainData)
    (tracks : list TrackData) (conflicts : list ConflictData) (time_horizon : Z)
    (warm_start : option (list ScheduleEntry))
  : (exn + OptimizationResult) * GurobiOptimizer :=
  if negb (gurobi_available self) then
    let r := optimize (base self) trains tracks conflicts time_horizon warm_start in
    (r.1, mkGurobi r.2 (gurobi_available self))
  else
    let r := optimize (base self) trains tracks conflicts time_horizon warm_start in
    (r.1, mkGurobi r.2 (gurobi_available self)).

End Solving.

(** ** [performance_monitor.py] *)

Module Monitor.

Record OptimizationMetrics := mkMetrics {
  start_time : Z;
  end_time : option Z;
  solve_time_seconds : Z;
  objective_value : Q;
  num_trains : Z;
  num_tracks : Z;
  num_conflicts : Z;
  conflicts_resolved : Z;
  total_delay_minutes : Z;
  solver_status : string;
  memory_usage_mb : Q;
  cpu_usage_percent : Q;
  variables_count : Z;
  constraints_count : Z
}.

(** Metrics objects are mutable and are shared between
    [current_metrics] and [metrics_history]: the monitor holds
    references into a store of objects. A reference is the index at which
    the object was allocated. *)
Definition ref := nat.

Record PerformanceMonitor := mkMonitor {
  store : list OptimizationMetrics;
  metrics_history : list ref;
  current_metrics : option ref
}.

(** [PerformanceMonitor.__init__] *)
Definition init : PerformanceMonitor := mkMonitor [] [] None.

(** [now] is the reading of [datetime.now()]. *)
Definition start_optimization (now : Z) (num_trains num_tracks num_conflicts : Z)
    (self : PerformanceMonitor) : PerformanceMonitor :=
  let fresh :=
    mkMetrics now None 0 0%Q num_trains num_tracks num_conflicts 0 0 "" 0%Q 0%Q 0 0 in
  mkMonitor (store self ++ [fresh]) (metrics_history self) (Some (length (store self))).

(** [l[-n:]] for [n > 0] *)
Definition last_n {A} (n : nat) (l : list A) : list A := drop (length l - n) l.

(** [now], [memory] and [cpu] are the readings of [datetime.now()],
    [_get_memory_usage()] and [_get_cpu_usage()]. *)
Definition end_optimization (now : Z) (memory cpu : Q)
    (objective_value : Q) (conflicts_resolved total_delay : Z) (solver_status : string)
    (self : PerformanceMonitor) : PerformanceMonitor :=
  match current_metrics self with
  | None => self
  | Some r =>
      match store self !! r with
      | None => self
      | Some cur =>
          let cur' :=
            mkMetrics (start_time cur) (Some now) (now - start_time cur) objective_value
                      (num_trains cur) (num_tracks cur) (num_conflicts cur)
                      conflicts_resolved total_delay solver_status memory cpu
                      (variables_count cur) (constraints_count cur) in
          let store' := <[r := cur']> (store self) in
          let history := metrics_history self ++ [r] in
          let history' :=
            if (100 <? length history)%nat then last_n 100 history else history in
          mkMonitor store' history' (current_metrics self)
      end
  end.

(** One call on the monitor, with what the environment answered. *)
Inductive call :=
| Start (now : Z) (num_trains num_tracks num_conflicts : Z)
| End_ (now : Z) (memory cpu : Q) (objective_value : Q)
       (conflicts_resolved total_delay : Z) (solver_status : string).

Definition step (self : PerformanceMonitor) (c : call) : PerformanceMonitor :=
  match c with
  | Start now nt nk nq => start_optimization now nt nk nq self
  | End_ now mem cpu obj res del st => end_optimization now mem cpu obj res del st self
  end.

Definition run (calls : list call) : PerformanceMonitor := fold_left step calls init.

(** The records [metrics_history] shows, read through the store. *)
Definition records (self : PerformanceMonitor) : list OptimizationMetrics :=
  omap (λ r, store self !! r) (metrics_history self).

End Monitor.

(** * Reasoning principles for the builder monad *)

(** Run of a computation that returns normally. *)
Definition runs_to {A} (m : M A) (s : Cp.CpModel) (a : A) (s' : Cp.CpModel) : Prop :=
  m s = inr (a, s').

(** [returns m Q]: from every model state [m] returns normally, with a
    value satisfying [Q]. *)
Definition returns {A} (m : M A) (Q : A → Prop) : Prop :=
  ∀ s, ∃ a s', runs_to m s a s' ∧ Q a.

(** The model only grows: variables and constraints are never removed. *)
Definition ext (s s' : Cp.CpModel) : Prop :=
  (∀ ct, ct ∈ Cp.constraints s → ct ∈ Cp.constraints s') ∧
  (∀ d, d ∈ Cp.domains s → d ∈ Cp.domains s').

Definition mono {A} (m : M A) : Prop :=
  ∀ s a s', runs_to m s a s' → ext s s'.

(** * Well-formedness of the variable arena *)

(** [x[tid][sid][t]] as a partial lookup. *)
Definition x_get (x : gmap string (gmap string (gmap Z Cp.var)))
    (tid sid : string) (t : Z) : option Cp.var :=
  xt ← x !! tid; row ← xt !! sid; row !! t.

(** The keys of a dict are exactly the [key]s of the elements of [l]. *)
Definition keys_are {A K V} `{Countable K} (key : A → K) (l : list A) (d : gmap K V) : Prop :=
  ∀ k, is_Some (d !! k) ↔ ∃ a, a ∈ l ∧ key a = k.

Definition full_row (H : Z) (row : gmap Z Cp.var) : Prop :=
  ∀ t, is_Some (row !! t) ↔ 0 ≤ t < H.

Definition full_xt (H : Z) (tracks : list TrackData) (xt : gmap string (gmap Z Cp.var)) : Prop :=
  keys_are segment_id tracks xt ∧
  (∀ sid row, xt !! sid = Some row → full_row H row).

Definition wf_x (H : Z) (trains : list TrainData) (tracks : list TrackData)
    (x : gmap string (gmap string (gmap Z Cp.var))) : Prop :=
  keys_are train_id trains x ∧
  (∀ tid xt, x !! tid = Some xt → full_xt H tracks xt).

Definition has_keys {A V} (key : A → string) (l : list A) (d : gmap string V) : Prop :=
  ∀ a, a ∈ l → is_Some (d !! key a).

Definition wf_vars (config : OptimizationConfig) (trains : list TrainData)
    (tracks : list TrackData) (conflicts : list ConflictData) (vars : Variables) : Prop :=
  wf_x (time_horizon_minutes config) trains tracks (var_x vars) ∧
  has_keys train_id trains (var_s vars) ∧
  has_keys conflict_id conflicts (var_c vars) ∧
  has_keys train_id trains (var_j vars).

(** The passes of [_create_model], with the state each one starts from
    and leaves. *)
Definition create_model_trace (today_midnight : Z) (config : OptimizationConfig)
    (trains : list TrainData) (tracks : list TrackData) (conflicts : list ConflictData)
    (s0 : Cp.CpModel) (vars : Variables) (m : Cp.CpModel) : Prop :=
  ∃ s1 s2 s3 s4 s5 s6 s7 s8 s9 s10 s11,
    runs_to (new_x config trains tracks) s0 (var_x vars) s1 ∧
    runs_to (new_s config trains) s1 (var_s vars) s2 ∧
    runs_to (new_c conflicts) s2 (var_c vars) s3 ∧
    runs_to (new_p trains) s3 (var_p vars) s4 ∧
    runs_to (new_j config trains) s4 (var_j vars) s5 ∧
    runs_to (_add_capacity_constraints config trains tracks (var_x vars)) s5 tt s6 ∧
    runs_to (_add_route_continuity_constraints config trains tracks (var_x vars)) s6 tt s7 ∧
    runs_to (_add_headway_constraints config trains tracks (var_x vars)) s7 tt s8 ∧
    runs_to (_add_platform_constraints trains (var_p vars)) s8 tt s9 ∧
    runs_to (_add_conflict_constraints config trains tracks conflicts (var_x vars) (var_c vars))
            s9 tt s10 ∧
    runs_to (_add_timing_constraints today_midnight config trains
               (var_x vars) (var_s vars) (var_j vars)) s10 tt s11 ∧
    runs_to (_set_objective config trains conflicts (var_s vars) (var_c vars) (var_j vars))
            s11 tt m.

(** * Statements taken from the specification, and the inputs on which
      they are examined *)

(** An assignment that is 1 on the listed variables, [p] on the variables
    of [platforms], and 0 elsewhere. *)
Definition assign (ones platforms : list Cp.var) : Cp.assignment := λ v,
  if bool_decide (v ∈ ones) then 1
  else if bool_decide (v ∈ platforms) then 1 else 0.

(** ** Headway *)


(** Two trains over one segment, horizon 8, the default weights and
    buffer: the headway window is 2 + 3. *)
Definition hw_config : OptimizationConfig := mkConfig 8 1 30 1%Q 100%Q 2%Q 2.
Definition hw_trainA : TrainData := mkTrain "A" "S1" (Some 0) None 1 0 "S2" ["S1"; "S2"]%string.
Definition hw_trainB : TrainData := mkTrain "B" "S1" (Some 0) None 2 0 "S2" ["S1"; "S2"]%string.
Definition hw_track : TrackData := mkTrack "K1" "S1" "S2" 1 5.
Definition hw_trains : list TrainData := [hw_trainA; hw_trainB].
Definition hw_tracks : list TrackData := [hw_track].

(** B occupies K1 at tick 0 (variable 8), A at tick 1 (variable 1); the
    four platform variables are 1 and so both same-platform flags are 1. *)
Definition hw_assignment : Cp.assignment :=
  assign [8; 1; 24; 25]%nat [18; 19; 20; 21]%nat.


(** ** Materialization of the occupancy variables *)

(** The policy as the specification words it: a variable only where the
    track is on the train's derived segment chain. *)
Definition sparse_materialization (trains : list TrainData) (tracks : list TrackData)
    (vars : Variables) : Prop :=
  ∀ train track t,
    train ∈ trains → track ∈ tracks →
    is_Some (x_get (var_x vars) (train_id train) (segment_id track) t) →
    segment_id track ∈ _get_route_segments train tracks.

(** One train from S1 to S2, its segment K1, and a segment K9 elsewhere. *)
Definition sp_config : OptimizationConfig := mkConfig 2 1 30 1%Q 100%Q 2%Q 2.
Definition sp_train : TrainData := mkTrain "T" "S1" (Some 0) None 1 0 "S2" ["S1"; "S2"]%string.
Definition sp_on_route : TrackData := mkTrack "K1" "S1" "S2" 1 5.
Definition sp_off_route : TrackData := mkTrack "K9" "S8" "S9" 1 5.


(** ** Conflict reification *)






(** The count of conflicts whose variable is 0 in the solution. *)
Definition count_resolved (vars : Variables) (solver : CpSolver)
    (conflicts : list ConflictData) : Z :=
  len (List.filter (λ q, match var_c vars !! conflict_id q with
                         | Some cq => Value solver cq =? 0
                         | None => false
                         end) conflicts).





(** ** Objective *)


Definition Qsum (l : list Q) : Q := foldr Qplus 0%Q l.



(** ** Extraction *)

(** The value the solver gives to [x[tid][sid][t]]. *)
Definition x_val (solver : CpSolver) (vars : Variables) (tid sid : string) (t : Z) : Z :=
  match x_get (var_x vars) tid sid t with
  | Some v => Value solver v
  | None => 0
  end.

(** No tick of the horizon has value 1. *)
Definition no_run (f : Z → Z) (H : Z) : Prop := ∀ t, 0 ≤ t < H → f t ≠ 1.

(** [a .. b] is a maximal run of ticks with value 1. *)
Definition maximal_run (f : Z → Z) (H a b : Z) : Prop :=
  0 ≤ a ≤ b ∧ b < H ∧
  (∀ t, a ≤ t ≤ b → f t = 1) ∧
  (0 < a → f (a - 1) ≠ 1) ∧
  (b + 1 < H → f (b + 1) ≠ 1).

(** [a .. b] is the first maximal run: no tick before [a] has value 1. *)
Definition first_run (f : Z → Z) (H a b : Z) : Prop :=
  maximal_run f H a b ∧ ∀ t, 0 ≤ t < a → f t ≠ 1.

(** What the extraction loop appends for one (train, track): nothing if
    the train never occupies the track, else one entry, for the first
    maximal run. *)
Definition pair_entries (config : OptimizationConfig) (vars : Variables) (solver : CpSolver)
    (base_time : Z) (train : TrainData) (track : TrackData) (es : list ScheduleEntry) : Prop :=
  let f := x_val solver vars (train_id train) (segment_id track) in
  (es = [] ∧ no_run f (time_horizon_minutes config)) ∨
  (∃ a b platform,
     first_run f (time_horizon_minutes config) a b ∧
     es = [mkEntry (train_id train) (segment_id track)
                   (base_time + 60 * a) (base_time + 60 * (b + 1)) platform]).

Definition train_entries (config : OptimizationConfig) (vars : Variables) (solver : CpSolver)
    (base_time : Z) (tracks : list TrackData) (train : TrainData)
    (es : list ScheduleEntry) : Prop :=
  ∃ per_track, es = concat per_track ∧
               Forall2 (pair_entries config vars solver base_time train) tracks per_track.

(** The schedule before sorting: trains in input order, for each train the
    tracks in input order. *)
Definition loop_order (config : OptimizationConfig) (vars : Variables) (solver : CpSolver)
    (base_time : Z) (trains : list TrainData) (tracks : list TrackData)
    (schedule : list ScheduleEntry) : Prop :=
  ∃ per_train, schedule = concat per_train ∧
               Forall2 (train_entries config vars solver base_time tracks) trains per_train.

(** Extraction as the specification words it: an entry for every maximal
    run. *)
Definition every_run_extracted (config : OptimizationConfig) (vars : Variables)
    (solver : CpSolver) (base_time : Z) (trains : list TrainData) (tracks : list TrackData)
    (schedule : list ScheduleEntry) : Prop :=
  ∀ train track a b,
    train ∈ trains → track ∈ tracks →
    maximal_run (x_val solver vars (train_id train) (segment_id track))
                (time_horizon_minutes config) a b →
    ∃ platform,
      mkEntry (train_id train) (segment_id track)
              (base_time + 60 * a) (base_time + 60 * (b + 1)) platform ∈ schedule.

(** The order as the specification words it: by start instant, ties by
    train id ascending. *)
Definition sorted_by_start_then_train (schedule : list ScheduleEntry) : Prop :=
  ∀ (i j : nat) e1 e2,
    (i < j)%nat → schedule !! i = Some e1 → schedule !! j = Some e2 →
    start_time e1 < start_time e2 ∨
    (start_time e1 = start_time e2 ∧
     String.leb (entry_train_id e1) (entry_train_id e2) = true).

(** The order the code gives: by start instant, entries with the same
    start instant in the order the loop produced them. *)
Definition sorted_by_start_stable (unsorted schedule : list ScheduleEntry) : Prop :=
  StronglySorted (λ e1 e2, start_time e1 ≤ start_time e2) schedule ∧
  ∀ t0, List.filter (λ e, start_time e =? t0) schedule
        = List.filter (λ e, start_time e =? t0) unsorted.

(** A solver answer in which the variables of [ones] and [platforms] are 1
    and the others 0. *)
Definition solved (ones platforms : list Cp.var) : CpSolver :=
  mkSolver OPTIMAL (assign ones platforms) 0%Q.

(** One train on K1 at ticks 0 and 2 of a horizon of 4, away at tick 1. *)
Definition ex_config : OptimizationConfig := mkConfig 4 1 30 1%Q 100%Q 2%Q 2.
Definition ex_two_runs : CpSolver := solved [0; 2]%nat [5; 6]%nat.

(** Train B, listed first, and train A on different segments, both from
    tick 0. *)
Definition ord_trainB : TrainData := mkTrain "B" "S1" (Some 0) None 1 0 "S2" ["S1"; "S2"]%string.
Definition ord_trainA : TrainData := mkTrain "A" "S3" (Some 0) None 1 0 "S4" ["S3"; "S4"]%string.
Definition ord_track1 : TrackData := mkTrack "K1" "S1" "S2" 1 5.
Definition ord_track2 : TrackData := mkTrack "K2" "S3" "S4" 1 5.
Definition ord_both_at_0 : CpSolver := solved [0; 6]%nat [10; 11; 12; 13]%nat.

(** The entries of the trains, one block per train, in input order. *)
Definition train_blocks (trains : list TrainData) (schedule : list ScheduleEntry) : Prop :=
  ∃ per_train,
    schedule = concat per_train ∧
    Forall2 (λ train es, ∀ e, e ∈ es → entry_train_id e = train_id train) trains per_train.


(** ** Failure of [optimize] *)


(** A back end that answers every model with the same solver state. *)
Definition constant_backend (solver : CpSolver) : Z → Cp.CpModel → CpSolver := λ _ _, solver.


(** ** Route continuity *)

(** Movement as the specification words it: a train that leaves a segment
    of its chain is on the next segment at the next tick. *)
Definition leaving_enters_next (config : OptimizationConfig) (trains : list TrainData)
    (tracks : list TrackData) (vars : Variables) (m : Cp.CpModel) : Prop :=
  ∀ a, Cp.feasible m a = true →
  ∀ train k k' t v0 v1 v2,
    train ∈ trains → (k, k') ∈ consecutive (_get_route_segments train tracks) →
    0 ≤ t → t + 1 < time_horizon_minutes config →
    x_get (var_x vars) (train_id train) k t = Some v0 →
    x_get (var_x vars) (train_id train) k (t + 1) = Some v1 →
    x_get (var_x vars) (train_id train) k' (t + 1) = Some v2 →
    a v0 = 1 → a v1 = 0 → a v2 = 1.

(** Completion as the specification words it: every train is on its last
    segment at some tick. *)
Definition last_segment_occupied (config : OptimizationConfig) (trains : list TrainData)
    (tracks : list TrackData) (vars : Variables) (m : Cp.CpModel) : Prop :=
  ∀ a, Cp.feasible m a = true →
  ∀ train k,
    train ∈ trains → last (_get_route_segments train tracks) = Some k →
    ∃ t v, 0 ≤ t < time_horizon_minutes config ∧
           x_get (var_x vars) (train_id train) k t = Some v ∧ a v = 1.

(** One train over two segments, horizon 2. *)
Definition rc_train : TrainData :=
  mkTrain "T" "S1" (Some 0) None 1 0 "S3" ["S1"; "S2"; "S3"]%string.
Definition rc_track1 : TrackData := mkTrack "K1" "S1" "S2" 1 5.
Definition rc_track2 : TrackData := mkTrack "K2" "S2" "S3" 1 5.

(** T on K1 and on K2 at tick 0 (variables 0 and 2), nowhere at tick 1;
    the leaving flag (variable 9) is 0. *)
Definition rc_assignment : Cp.assignment := assign [0; 2]%nat [5; 6; 7]%nat.

(** One train over one segment, nowhere at any tick. *)
Definition rc_idle_assignment : Cp.assignment := assign [] [3; 4]%nat.


(** ** Monitor history *)

(** The history a reader of the specification expects: one record per
    [end_optimization] call that found a run to end, holding what that call
    reported, most recent last. Records are values here: a later call
    cannot change an earlier record. *)
Definition report (cur : Monitor.OptimizationMetrics) (now : Z) (memory cpu : Q)
    (objective_value : Q) (conflicts_resolved total_delay : Z) (solver_status : string)
  : Monitor.OptimizationMetrics :=
  Monitor.mkMetrics (Monitor.start_time cur) (Some now) (now - Monitor.start_time cur)
    objective_value (Monitor.num_trains cur) (Monitor.num_tracks cur)
    (Monitor.num_conflicts cur) conflicts_resolved total_delay solver_status memory cpu
    (Monitor.variables_count cur) (Monitor.constraints_count cur).

Fixpoint completed_runs (current : option Monitor.OptimizationMetrics)
    (calls : list Monitor.call) : list Monitor.OptimizationMetrics :=
  match calls with
  | [] => []
  | Monitor.Start now nt nk nq :: calls' =>
      completed_runs
        (Some (Monitor.mkMetrics now None 0 0%Q nt nk nq 0 0 "" 0%Q 0%Q 0 0)) calls'
  | Monitor.End_ now mem cpu obj res del st :: calls' =>
      match current with
      | None => completed_runs None calls'
      | Some cur =>
          let done := report cur now mem cpu obj res del st in
          done :: completed_runs (Some done) calls'
      end
  end.

Definition history_shows_recent_runs (calls : list Monitor.call) : Prop :=
  (length (Monitor.metrics_history (Monitor.run calls)) ≤ 100)%nat ∧
  Monitor.records (Monitor.run calls) = Monitor.last_n 100 (completed_runs None calls).

(** One run started at time 0 and ended twice, at 5 with objective 1 and
    at 9 with objective 2. *)
Definition mon_calls : list Monitor.call :=
  [Monitor.Start 0 2 1 0;
   Monitor.End_ 5 0%Q 0%Q 1%Q 0 0 "OPTIMAL";
   Monitor.End_ 9 0%Q 0%Q 2%Q 0 0 "FEASIBLE"].

Definition mon_first : Monitor.OptimizationMetrics :=
  Monitor.mkMetrics 0 (Some 5) 5 1%Q 2 1 0 0 0 "OPTIMAL" 0%Q 0%Q 0 0.

Definition mon_second : Monitor.OptimizationMetrics :=
  Monitor.mkMetrics 0 (Some 9) 9 2%Q 2 1 0 0 0 "FEASIBLE" 0%Q 0%Q 0 0.

(** Where the monitor stands: no run started yet, a run started and not
    ended, or the last run ended. *)
Inductive phase := Idle | Active | Ended.

(** No [end_optimization] is called on a run that was already ended. *)
Fixpoint each_run_ends_once (ph : phase) (calls : list Monitor.call) : bool :=
  match calls with
  | [] => true
  | Monitor.Start _ _ _ _ :: calls' => each_run_ends_once Active calls'
  | Monitor.End_ _ _ _ _ _ _ _ :: calls' =>
      match ph with
      | Idle => each_run_ends_once Idle calls'
      | Active => each_run_ends_once Ended calls'
      | Ended => false
      end
  end.

(** The monitor state [self] stands for the records [log] and the current
    run [cur]. *)
Definition monitor_stands_for (ph : phase) (self : Monitor.PerformanceMonitor)
    (cur : option Monitor.OptimizationMetrics) (log : list Monitor.OptimizationMetrics) : Prop :=
  Monitor.records self = Monitor.last_n 100 log ∧
  (∀ r, r ∈ Monitor.metrics_history self → (r < length (Monitor.store self))%nat) ∧
  match ph with
  | Idle => Monitor.current_metrics self = None ∧ cur = None
  | Active =>
      ∃ r, Monitor.current_metrics self = Some r ∧ Monitor.store self !! r = cur ∧
           is_Some cur ∧ r ∉ Monitor.metrics_history self
  | Ended =>
      ∃ r, Monitor.current_metrics self = Some r ∧ Monitor.store self !! r = cur ∧
           is_Some cur
  end.


(** ** Inputs for the examples *)

(** The terms handed to [sum] in [_set_objective], in the order they are
    appended. *)
Definition objective_terms (config : OptimizationConfig) (trains : list TrainData)
    (conflicts : list ConflictData) (vars : Variables) : list Cp.fexpr :=
  ((λ train, Cp.FScale (delay_weight config * inject_Z (6 - priority train)
                        * priority_multiplier config)%Q
                       (Cp.EVar (default (0%nat : Cp.var) (var_s vars !! train_id train))))
     <$> trains)
  ++ ((λ train, Cp.FScale (delay_weight config * (1 # 10))%Q
                          (Cp.EVar (default (0%nat : Cp.var) (var_j vars !! train_id train))))
        <$> trains)
  ++ ((λ q, Cp.FScale (conflict_weight config * inject_Z (6 - severity q))%Q
                      (Cp.EVar (default (0%nat : Cp.var) (var_c vars !! conflict_id q))))
        <$> conflicts)
  ++ [Cp.FScale (delay_weight config * (1 # 100))%Q
        (Cp.py_sum (Cp.EVar <$>
           ((λ train, default (0%nat : Cp.var) (var_s vars !! train_id train)) <$> trains)))].




(** * Further statements about the model and the extraction *)

(** The value an assignment gives to [x[tid][sid][t]], 0 where the
    variable does not exist. *)
Definition x_of (a : Cp.assignment) (vars : Variables) (tid sid : string) (t : Z) : Z :=
  match x_get (var_x vars) tid sid t with
  | Some v => a v
  | None => 0
  end.

(** The number of listed trains on a track at a tick. *)
Definition track_occupancy (a : Cp.assignment) (vars : Variables) (trains : list TrainData)
    (track : TrackData) (t : Z) : Z :=
  sum_Z ((λ train, x_of a vars (train_id train) (segment_id track) t) <$> trains).

(** [p[tid][station]] as a partial lookup. *)
Definition p_get (p : gmap string (gmap string Cp.var)) (tid station : string)
  : option Cp.var :=
  pt ← p !! tid; pt !! station.

(** Every decision variable takes a value of its domain. *)
Definition within_domains (config : OptimizationConfig) (vars : Variables)
    (a : Cp.assignment) : Prop :=
  (∀ tid sid t v, x_get (var_x vars) tid sid t = Some v → a v = 0 ∨ a v = 1) ∧
  (∀ tid v, var_s vars !! tid = Some v →
     0 ≤ a v ≤ Z.min 120 (time_horizon_minutes config / 2)) ∧
  (∀ q v, var_c vars !! q = Some v → a v = 0 ∨ a v = 1) ∧
  (∀ tid station v, p_get (var_p vars) tid station = Some v → 1 ≤ a v ≤ 10) ∧
  (∀ tid v, var_j vars !! tid = Some v → 0 ≤ a v ≤ time_horizon_minutes config).

(** A train T from S1 to S2 scheduled two minutes after midnight, over a
    track whose id is the name [_get_route_segments_from_train] gives to
    the pair. *)
Definition tm_train : TrainData :=
  mkTrain "T" "S1" (Some 120) None 1 0 "S2" ["S1"; "S2"]%string.
Definition tm_track : TrackData := mkTrack "S1-S2" "S1" "S2" 1 5.
Definition tm_assignment : Cp.assignment := assign [] [5; 6]%nat.


(** ** More of [performance_monitor.py] *)

(** [set_model_complexity]: writes the two counts into the object
    [current_metrics] refers to. *)
Definition set_model_complexity (variables_count constraints_count : Z)
    (self : Monitor.PerformanceMonitor) : Monitor.PerformanceMonitor :=
  match Monitor.current_metrics self with
  | None => self
  | Some r =>
      match Monitor.store self !! r with
      | None => self
      | Some cur =>
          let cur' :=
            Monitor.mkMetrics (Monitor.start_time cur) (Monitor.end_time cur)
              (Monitor.solve_time_seconds cur) (Monitor.objective_value cur)
              (Monitor.num_trains cur) (Monitor.num_tracks cur) (Monitor.num_conflicts cur)
              (Monitor.conflicts_resolved cur) (Monitor.total_delay_minutes cur)
              (Monitor.solver_status cur) (Monitor.memory_usage_mb cur)
              (Monitor.cpu_usage_percent cur) variables_count constraints_count in
          Monitor.mkMonitor (<[r := cur']> (Monitor.store self))
                            (Monitor.metrics_history self) (Monitor.current_metrics self)
      end
  end.

(** The dict under ["last_run"]. *)
Record LastRun := mkLastRun {
  last_solve_time : Z;
  last_objective : Q;
  last_status : string;
  last_trains : Z;
  last_conflicts_resolved : Z
}.

(** The dict [get_performance_summary] returns when runs are recorded. *)
Record PerformanceSummary := mkSummary {
  total_runs : Z;
  recent_runs : Z;
  average_solve_time_seconds : Q;
  average_objective_value : Q;
  average_conflicts_resolved : Q;
  success_rate_percent : Q;
  last_run : LastRun
}.

Inductive summary :=
| NoRuns (message : string)
| Runs (s : PerformanceSummary).

Section Summary.

(** Python's [round(x, ndigits)] on floats. *)
Variable round : Q → Z → Q.

Definition is_success (m : Monitor.OptimizationMetrics) : bool :=
  bool_decide (Monitor.solver_status m ∈ ["OPTIMAL"; "FEASIBLE"]%string).

Definition get_performance_summary (self : Monitor.PerformanceMonitor) : summary :=
  let history := Monitor.records self in
  match last history with
  | None => NoRuns "No optimization runs recorded"
  | Some latest =>
      let recent := Monitor.last_n 10 history in
      let n := inject_Z (len recent) in
      let avg_solve_time :=
        Qdiv (inject_Z (sum_Z (Monitor.solve_time_seconds <$> recent))) n in
      let avg_objective := Qdiv (Qsum (Monitor.objective_value <$> recent)) n in
      let avg_conflicts_resolved :=
        Qdiv (inject_Z (sum_Z (Monitor.conflicts_resolved <$> recent))) n in
      let success_rate :=
        Qdiv (inject_Z (sum_Z ((λ _, 1) <$> List.filter is_success recent))) n in
      Runs (mkSummary (len history) (len recent)
              (round avg_solve_time 2) (round avg_objective 2)
              (round avg_conflicts_resolved 1) (round (success_rate * 100)%Q 1)
              (mkLastRun (Monitor.solve_time_seconds latest) (Monitor.objective_value latest)
                         (Monitor.solver_status latest) (Monitor.num_trains latest)
                         (Monitor.conflicts_resolved latest)))
  end.

End Summary.

(** Every reference the monitor holds points into the store. *)
Definition refs_valid (self : Monitor.PerformanceMonitor) : Prop :=
  (∀ r, r ∈ Monitor.metrics_history self → (r < length (Monitor.store self))%nat) ∧
  (∀ r, Monitor.current_metrics self = Some r → (r < length (Monitor.store self))%nat).

(** Two runs, each started and ended once. *)
Definition mon_two_runs : list Monitor.call :=
  [Monitor.Start 0 2 1 0; Monitor.End_ 5 0%Q 0%Q 1%Q 0 0 "OPTIMAL";
   Monitor.Start 7 3 1 0; Monitor.End_ 9 0%Q 0%Q 2%Q 0 0 "FEASIBLE"].

(** ** [main.py] *)




Section Endpoint.

Variable Solve : Z → Cp.CpModel → CpSolver.
Variable today_midnight : Z.
Variable clock_start clock_end : Z.
Variable base_time : Z.

(** [str(e)] is the message of an [Exception]; for a [KeyError] it is the
    [repr] of the missing key, which [exn] does not record and which is
    given here. *)
Variable missing_key : string.



End Endpoint.


(** ** Passes that exclude nothing *)

(** A pass is conservative on the assignments that satisfy [P], above
    [bound], when every such assignment can be extended to the variables
    the pass creates so that whatever the pass adds holds; variables below
    [bound] are those the pass may mention without creating them. *)
Definition conservative_on (P : Cp.assignment → Prop) (bound : nat) (m : M unit) : Prop :=
  ∀ s u s',
    (bound ≤ Cp.next_var s)%nat → runs_to m s u s' →
    (Cp.next_var s ≤ Cp.next_var s')%nat ∧
    ∀ a, P a → ∃ a',
      (∀ v, (v < Cp.next_var s)%nat → a' v = a v) ∧
      ∀ a'', (∀ v, (v < Cp.next_var s')%nat → a'' v = a' v) →
        (∀ ct, ct ∈ Cp.constraints s' →
           ct ∈ Cp.constraints s ∨ Cp.constraint_holds a'' ct = true) ∧
        (∀ d, d ∈ Cp.domains s' → d ∈ Cp.domains s ∨ Cp.in_domain a'' d = true).

(** [P] looks only at variables below [bound]. *)
Definition below (bound : nat) (P : Cp.assignment → Prop) : Prop :=
  ∀ a a', (∀ v, (v < bound)%nat → a' v = a v) → P a → P a'.



(** ** The extracted schedule *)

(** The entry is on segment [sid] and its period covers tick [t]. *)
Definition covers (base_time : Z) (sid : string) (t : Z) (e : ScheduleEntry) : bool :=
  bool_decide (entry_segment_id e = sid)
  && (start_time e <=? base_time + 60 * t) && (base_time + 60 * t <? end_time e).

(** The number of entries of the schedule that are on [sid] at tick [t]. *)
Definition entries_at (base_time : Z) (sid : string) (t : Z)
    (schedule : list ScheduleEntry) : Z :=
  len (List.filter (covers base_time sid t) schedule).

(** An entry for an input train on an input track, over whole ticks of
    the horizon, at each of which the solver has the train on the track. *)
Definition entry_well_formed (config : OptimizationConfig) (vars : Variables)
    (solver : CpSolver) (base_time : Z) (trains : list TrainData) (tracks : list TrackData)
    (e : ScheduleEntry) : Prop :=
  ∃ train track a b,
    train ∈ trains ∧ track ∈ tracks ∧
    entry_train_id e = train_id train ∧ entry_segment_id e = segment_id track ∧
    0 ≤ a ≤ b ∧ b < time_horizon_minutes config ∧
    start_time e = base_time + 60 * a ∧ end_time e = base_time + 60 * (b + 1) ∧
    ∀ t, a ≤ t ≤ b → x_val solver vars (train_id train) (segment_id track) t = 1.

(** * Lemmas on the builder monad *)

Lemma ext_refl s : ext s s.
Proof. by split. Qed.

Lemma ext_trans s1 s2 s3 : ext s1 s2 → ext s2 s3 → ext s1 s3.
Proof. intros [H1 H2] [H3 H4]. split; auto. Qed.

Lemma runs_ret {A} (a b : A) s s' : runs_to (mret a) s b s' → b = a ∧ s' = s.
Proof. unfold runs_to, mret, M_ret. by intros [= -> ->]. Qed.

Lemma runs_bind {A B} (m : M A) (f : A → M B) s b s' :
  runs_to (m ≫= f) s b s' → ∃ a s1, runs_to m s a s1 ∧ runs_to (f a) s1 b s'.
Proof.
  unfold runs_to, mbind, M_bind. destruct (m s) as [e | [a s1]]; [done |].
  intros Hf. by exists a, s1.
Qed.

Lemma runs_bind_intro {A B} (m : M A) (f : A → M B) s a s1 b s' :
  runs_to m s a s1 → runs_to (f a) s1 b s' → runs_to (m ≫= f) s b s'.
Proof. unfold runs_to, mbind, M_bind. by intros ->. Qed.

Lemma runs_getitem {K V} `{Countable K} (d : gmap K V) k s v s' :
  runs_to (getitem d k) s v s' → d !! k = Some v ∧ s' = s.
Proof.
  unfold runs_to, getitem, subscript. destruct (d !! k); [| done].
  by intros [= -> ->].
Qed.

Lemma runs_forM__app {A} (l1 l2 : list A) (f : A → M unit) s u s' :
  runs_to (forM_ (l1 ++ l2) f) s u s' →
  ∃ s1, runs_to (forM_ l1 f) s tt s1 ∧ runs_to (forM_ l2 f) s1 tt s'.
Proof.
  revert s. induction l1 as [| a l1 IH]; intros s; simpl.
  - destruct u. intros Hr. by exists s.
  - intros Hr. apply runs_bind in Hr as ([] & s0 & Ha & Hr).
    apply IH in Hr as (s1 & H1 & H2). exists s1. split; [| done].
    by eapply runs_bind_intro.
Qed.

(** *** Monotonicity of every construct the builders use *)

Lemma mono_ret {A} (a : A) : mono (mret a).
Proof. intros s b s' Hr. apply runs_ret in Hr as [_ ->]. apply ext_refl. Qed.

Lemma mono_raise {A} e : mono (@raise A e).
Proof. by intros s b s' Hr. Qed.

Lemma mono_bind {A B} (m : M A) (f : A → M B) :
  mono m → (∀ a, mono (f a)) → mono (m ≫= f).
Proof.
  intros Hm Hf s b s' Hr. apply runs_bind in Hr as (a & s1 & H1 & H2).
  eapply ext_trans; [by eapply Hm | by eapply Hf].
Qed.

Lemma mono_getitem {K V} `{Countable K} (d : gmap K V) k : mono (getitem d k).
Proof. intros s v s' Hr. apply runs_getitem in Hr as [_ ->]. apply ext_refl. Qed.

Lemma mono_forM_ {A} (l : list A) (f : A → M unit) :
  (∀ a, mono (f a)) → mono (forM_ l f).
Proof.
  intros Hf. induction l as [| a l IH]; simpl.
  - apply mono_ret.
  - apply mono_bind; [apply Hf | by intros _].
Qed.

Lemma mono_foldM {A B} (f : B → A → M B) b (l : list A) :
  (∀ b a, mono (f b a)) → mono (foldM f b l).
Proof.
  intros Hf. revert b. induction l as [| a l IH]; intros b; simpl.
  - apply mono_ret.
  - apply mono_bind; [apply Hf | done].
Qed.

Lemma mono_collectM {A B} (f : A → M B) (l : list A) :
  (∀ a, mono (f a)) → mono (collectM f l).
Proof.
  intros Hf. induction l as [| a l IH]; simpl.
  - apply mono_ret.
  - apply mono_bind; [apply Hf |]. intros b.
    apply mono_bind; [done |]. intros bs. apply mono_ret.
Qed.

Lemma mono_NewIntVar lo hi : mono (NewIntVar lo hi).
Proof.
  intros s v s'. unfold runs_to, NewIntVar. intros [= _ <-].
  split; simpl; [done |]. intros d Hd. by apply elem_of_cons; right.
Qed.

Lemma mono_add_constraint ct : mono (add_constraint ct).
Proof.
  intros s v s'. unfold runs_to, add_constraint. intros [= _ <-].
  split; simpl; [| done]. intros d Hd. apply elem_of_app. by left.
Qed.

Lemma mono_Minimize e : mono (Minimize e).
Proof. intros s v s'. unfold runs_to, Minimize. intros [= _ <-]. by split. Qed.

Ltac mono_step :=
  first
    [ apply mono_ret | apply mono_raise | apply mono_getitem
    | apply mono_NewIntVar | apply mono_add_constraint | apply mono_Minimize
    | apply mono_bind | apply mono_forM_ | apply mono_foldM | apply mono_collectM
    | match goal with
      | |- mono (if ?b then _ else _) => destruct b
      | |- mono (match ?o with _ => _ end) => destruct o
      end
    | intro ].

Ltac solve_mono := repeat mono_step.

(** A loop that returned normally ran its body on each element, from a
    state that extends the initial one and into one the final state
    extends. *)
Lemma runs_forM__elem {A} (l : list A) (f : A → M unit) a s u s' :
  (∀ b, mono (f b)) → a ∈ l → runs_to (forM_ l f) s u s' →
  ∃ s1 s2, ext s s1 ∧ runs_to (f a) s1 tt s2 ∧ ext s2 s'.
Proof.
  intros Hf Ha Hr. apply list_elem_of_split in Ha as (l1 & l2 & ->).
  apply runs_forM__app in Hr as (s1 & H1 & H2). simpl in H2.
  apply runs_bind in H2 as ([] & s2 & Ha & H2).
  exists s1, s2. split; [| split; [done |]].
  - eapply (mono_forM_ l1 f Hf); eauto.
  - eapply (mono_forM_ l2 f Hf); eauto.
Qed.

(** *** Normal return *)

Lemma returns_ret {A} (a : A) (Q : A → Prop) : Q a → returns (mret a) Q.
Proof. intros HQ s. by exists a, s. Qed.

Lemma returns_bind {A B} (m : M A) (f : A → M B) (R : A → Prop) (Q : B → Prop) :
  returns m R → (∀ a, R a → returns (f a) Q) → returns (m ≫= f) Q.
Proof.
  intros Hm Hf s. destruct (Hm s) as (a & s1 & H1 & HR).
  destruct (Hf a HR s1) as (b & s' & H2 & HQ).
  exists b, s'. split; [by eapply runs_bind_intro | done].
Qed.

Lemma returns_weaken {A} (m : M A) (Q Q' : A → Prop) :
  returns m Q → (∀ a, Q a → Q' a) → returns m Q'.
Proof. intros Hm HQ s. destruct (Hm s) as (a & s' & H1 & H2). exists a, s'. auto. Qed.

Lemma returns_getitem {K V} `{Countable K} (d : gmap K V) k v :
  d !! k = Some v → returns (getitem d k) (λ r, r = v).
Proof. intros Hk s. exists v, s. unfold runs_to, getitem, subscript. by rewrite Hk. Qed.

Lemma returns_NewIntVar lo hi : returns (NewIntVar lo hi) (λ _, True).
Proof. intros s. by eexists _, _. Qed.

Lemma returns_add_constraint ct : returns (add_constraint ct) (λ _, True).
Proof. intros s. by eexists _, _. Qed.

Lemma returns_Minimize e : returns (Minimize e) (λ _, True).
Proof. intros s. by eexists _, _. Qed.

Lemma returns_forM_ {A} (l : list A) (f : A → M unit) :
  (∀ a, a ∈ l → returns (f a) (λ _, True)) → returns (forM_ l f) (λ _, True).
Proof.
  induction l as [| a l IH]; intros Hf; simpl.
  - by apply returns_ret.
  - eapply returns_bind; [apply Hf; by left |]. intros _ _.
    apply IH. intros b Hb. apply Hf. by right.
Qed.

(** Loop invariant indexed by the elements already consumed. *)
Lemma returns_foldM {A B} (f : B → A → M B) (I : list A → B → Prop) b (l : list A) :
  I [] b →
  (∀ pre a b, I pre b → a ∈ l → returns (f b a) (I (pre ++ [a]))) →
  returns (foldM f b l) (I l).
Proof.
  intros H0 Hstep.
  assert (∀ l2 pre b, I pre b → (∀ a, a ∈ l2 → a ∈ l) →
            returns (foldM f b l2) (I (pre ++ l2))) as Hgen.
  { induction l2 as [| a l2 IH]; intros pre b0 HI Hin; simpl.
    - rewrite app_nil_r. by apply returns_ret.
    - eapply returns_bind; [apply (Hstep pre a b0 HI); apply Hin; by left |].
      intros b1 H1. rewrite (cons_middle a pre l2), app_assoc.
      apply IH; [done |]. intros a' Ha'. apply Hin. by right. }
  apply (Hgen l [] b H0). auto.
Qed.

Lemma returns_collectM {A B} (f : A → M B) (l : list A) :
  (∀ a, a ∈ l → returns (f a) (λ _, True)) → returns (collectM f l) (λ _, True).
Proof.
  induction l as [| a l IH]; intros Hf; simpl.
  - by apply returns_ret.
  - eapply returns_bind; [apply Hf; by left |]. intros b _.
    eapply returns_bind; [apply IH; intros; apply Hf; by right |].
    intros bs _. by apply returns_ret.
Qed.

(** * The builders return normally *)

Lemma elem_of_range n t : t ∈ range n ↔ 0 ≤ t < n.
Proof.
  unfold range. rewrite list_elem_of_fmap. split.
  - intros (i & -> & Hi). apply elem_of_seq in Hi. lia.
  - intros Ht. exists (Z.to_nat t). split; [lia |]. apply elem_of_seq. lia.
Qed.

Lemma elem_of_range_from a b t : t ∈ range_from a b ↔ a ≤ t < b.
Proof.
  unfold range_from. rewrite list_elem_of_fmap. split.
  - intros (i & -> & Hi). apply elem_of_seq in Hi. lia.
  - intros Ht. exists (Z.to_nat (t - a)). split; [lia |]. apply elem_of_seq. lia.
Qed.

Lemma len_range n : len (range n) = Z.max 0 n.
Proof. unfold len, range. rewrite length_fmap, length_seq. lia. Qed.

Lemma elem_of_enumerate {A} (l : list A) i a :
  (i, a) ∈ enumerate l ↔ 0 ≤ i ∧ l !! Z.to_nat i = Some a.
Proof.
  unfold enumerate, range. rewrite Nat2Z.id. split.
  - intros Hin. apply list_elem_of_lookup in Hin as (k & Hk).
    apply lookup_zip_with_Some in Hk as (i' & a' & [= <- <-] & Hi & Ha).
    rewrite list_lookup_fmap in Hi. destruct (seq 0 (length l) !! k) as [n |] eqn:Hn; [| done].
    simpl in Hi. injection Hi as <-. apply lookup_seq in Hn as [-> _].
    split; [lia |]. by rewrite Nat2Z.id.
  - intros [Hi Ha]. apply list_elem_of_lookup. exists (Z.to_nat i).
    apply lookup_zip_with_Some. exists i, a. split; [done |]. split; [| done].
    rewrite list_lookup_fmap, lookup_seq_lt; [simpl; f_equal; lia |].
    by eapply lookup_lt_Some.
Qed.

Lemma elem_of_enumerate_snd {A} (l : list A) (ia : Z * A) : ia ∈ enumerate l → ia.2 ∈ l.
Proof.
  destruct ia as [i a]. intros [_ Ha]%elem_of_enumerate. by eapply list_elem_of_lookup_2.
Qed.

Lemma contains_true {K V} `{Countable K} (d : gmap K V) k :
  contains d k = true → is_Some (d !! k).
Proof. unfold contains. destruct (d !! k); [eauto | done]. Qed.

Lemma keys_are_has {A K V} `{Countable K} (key : A → K) (l : list A) (d : gmap K V) a :
  keys_are key l d → a ∈ l → is_Some (d !! key a).
Proof. intros Hk Ha. apply Hk. eauto. Qed.

(** A loop that fills a dict, one key per element. *)
Lemma returns_fill {K V A} `{Countable K} (key : A → K) (mk : A → M V) (P : V → Prop)
    (l : list A) :
  (∀ a, a ∈ l → returns (mk a) P) →
  returns (foldM (λ d a, v ← mk a; mret (<[key a := v]> d)) (∅ : gmap K V) l)
          (λ d, keys_are key l d ∧ (∀ k v, d !! k = Some v → P v)).
Proof.
  intros Hmk.
  apply (returns_foldM _
    (λ pre d, keys_are key pre d ∧ (∀ k v, d !! k = Some v → P v))).
  - split; [| by intros k v Hk]. intros k. rewrite lookup_empty. split.
    + by intros [? ?].
    + by intros (a & Ha%elem_of_nil & _).
  - intros pre a d [Hkeys HP] Ha.
    eapply returns_bind; [by apply Hmk |]. intros v Hv. apply returns_ret. split.
    + intros k. destruct (decide (key a = k)) as [<- | Hne].
      * rewrite lookup_insert_eq. split; [| eauto]. intros _. exists a.
        split; [| done]. apply elem_of_app. right. by apply list_elem_of_singleton.
      * rewrite lookup_insert_ne by done. rewrite (Hkeys k). split.
        -- intros (a' & Ha' & Hk). exists a'. split; [| done]. apply elem_of_app. by left.
        -- intros (a' & [Ha' | ->%list_elem_of_singleton]%elem_of_app & Hk); [eauto | done].
    + intros k v'. destruct (decide (key a = k)) as [<- | Hne].
      * rewrite lookup_insert_eq. by intros [= <-].
      * rewrite lookup_insert_ne by done. apply HP.
Qed.

Section Totality.

Variable today_midnight : Z.
Variable config : OptimizationConfig.
Variable trains : list TrainData.
Variable tracks : list TrackData.
Variable conflicts : list ConflictData.

Lemma new_x_returns : returns (new_x config trains tracks) (wf_x (time_horizon_minutes config) trains tracks).
Proof.
  unfold new_x.
  eapply returns_weaken.
  - apply (returns_fill train_id _ (full_xt (time_horizon_minutes config) tracks)). intros train _.
    eapply returns_weaken.
    + apply (returns_fill segment_id _ (full_row (time_horizon_minutes config))). intros track _.
      eapply returns_weaken.
      * apply (returns_fill (λ t : Z, t) (λ _, NewBoolVar) (λ _, True)).
        intros t _. apply returns_NewIntVar.
      * intros row [Hrow _] t. rewrite (Hrow t). split.
        -- intros (t' & Ht'%elem_of_range & <-). done.
        -- intros Ht. exists t. split; [by apply elem_of_range | done].
    + intros xt Hxt. exact Hxt.
  - intros x Hx. exact Hx.
Qed.

Lemma new_s_returns : returns (new_s config trains) (has_keys train_id trains).
Proof.
  unfold new_s. eapply returns_weaken.
  - apply (returns_fill train_id (λ _, NewIntVar 0 (Z.min 120 (time_horizon_minutes config / 2))) (λ _, True)).
    intros train _. apply returns_NewIntVar.
  - intros s [Hs _] a Ha. by eapply keys_are_has.
Qed.

Lemma new_c_returns : returns (new_c conflicts) (has_keys conflict_id conflicts).
Proof.
  unfold new_c. eapply returns_weaken.
  - apply (returns_fill conflict_id (λ _, NewBoolVar) (λ _, True)).
    intros q _. apply returns_NewIntVar.
  - intros c [Hc _] a Ha. by eapply keys_are_has.
Qed.

Lemma new_j_returns : returns (new_j config trains) (has_keys train_id trains).
Proof.
  unfold new_j. eapply returns_weaken.
  - apply (returns_fill train_id (λ _, NewIntVar 0 (time_horizon_minutes config)) (λ _, True)).
    intros train _. apply returns_NewIntVar.
  - intros j [Hj _] a Ha. by eapply keys_are_has.
Qed.

Lemma new_p_returns : returns (new_p trains) (λ _, True).
Proof.
  unfold new_p. eapply returns_weaken.
  - apply (returns_fill train_id _ (λ _, True)). intros train _.
    eapply returns_weaken.
    + apply (returns_fill (λ st : string, st) (λ _, NewIntVar 1 10) (λ _, True)).
      intros st _. apply returns_NewIntVar.
    + done.
  - done.
Qed.


Lemma x_at_returns x tid xt sid row t v :
  x !! tid = Some xt → xt !! sid = Some row → row !! t = Some v →
  returns (x_at x tid sid t) (λ r, r = v).
Proof.
  intros Hx Hxt Hrow. unfold x_at.
  eapply returns_bind; [by apply returns_getitem |]. intros ? ->.
  eapply returns_bind; [by apply returns_getitem |]. intros ? ->.
  by apply returns_getitem.
Qed.

(** With a well-formed arena, a guarded occupancy lookup succeeds. *)
Lemma x_at_total x tid xt sid t :
  wf_x (time_horizon_minutes config) trains tracks x →
  x !! tid = Some xt → contains xt sid = true → 0 ≤ t < time_horizon_minutes config →
  returns (x_at x tid sid t) (λ _, True).
Proof.
  intros [_ Hwf] Hx [row Hrow]%contains_true Ht.
  destruct (Hwf tid xt Hx) as [_ Hfull].
  destruct (proj2 (Hfull sid row Hrow t) Ht) as [v Hv].
  eapply returns_weaken; [by eapply x_at_returns | done].
Qed.

Lemma getitem_total {A V} (key : A → string) (d : gmap string V) (l : list A) a :
  (∀ a, a ∈ l → is_Some (d !! key a)) → a ∈ l → returns (getitem d (key a)) (λ _, True).
Proof.
  intros Hd Ha. destruct (Hd a Ha) as [v Hv].
  eapply returns_weaken; [by apply returns_getitem | done].
Qed.

Lemma _add_capacity_constraints_returns x :
  wf_x (time_horizon_minutes config) trains tracks x →
  returns (_add_capacity_constraints config trains tracks x) (λ _, True).
Proof.
  intros Hwf. unfold _add_capacity_constraints.
  apply returns_forM_. intros track Htrack.
  apply returns_forM_. intros t Ht%elem_of_range.
  eapply returns_bind.
  - apply (returns_foldM _ (λ _ _, True)); [done |].
    intros _ train acc _ Htrain.
    destruct (keys_are_has _ _ _ _ (proj1 Hwf) Htrain) as [xt Hxt].
    eapply returns_bind; [by apply returns_getitem |]. intros ? ->.
    destruct (contains xt (segment_id track)) eqn:Hc; [| by apply returns_ret].
    eapply returns_bind; [by eapply x_at_total |]. intros v _. by apply returns_ret.
  - intros vars _. destruct vars; [by apply returns_ret | apply returns_add_constraint].
Qed.


Lemma _add_route_continuity_constraints_returns x :
  wf_x (time_horizon_minutes config) trains tracks x →
  returns (_add_route_continuity_constraints config trains tracks x) (λ _, True).
Proof.
  intros Hwf. unfold _add_route_continuity_constraints.
  apply returns_forM_. intros train Htrain.
  destruct (keys_are_has _ _ _ _ (proj1 Hwf) Htrain) as [xt Hxt].
  destruct (len (_get_route_segments train tracks) <? 2); [by apply returns_ret |].
  eapply returns_bind.
  - apply returns_forM_. intros [cur next] _. simpl.
    apply returns_forM_. intros t Ht%elem_of_range.
    unfold time_slots in Ht. rewrite len_range in Ht.
    eapply returns_bind; [by apply returns_getitem |]. intros ? ->.
    destruct (contains xt cur) eqn:Hcur; simpl; [| by apply returns_ret].
    destruct (contains xt next) eqn:Hnext; simpl; [| by apply returns_ret].
    eapply returns_bind; [apply returns_NewIntVar |]. intros leaving _.
    eapply returns_bind; [eapply x_at_total; eauto; lia |]. intros v0 _.
    eapply returns_bind; [apply returns_add_constraint |]. intros _ _.
    eapply returns_bind; [eapply x_at_total; eauto; lia |]. intros v1 _.
    eapply returns_bind; [apply returns_add_constraint |]. intros _ _.
    eapply returns_bind; [eapply x_at_total; eauto; lia |]. intros v2 _.
    apply returns_add_constraint.
  - intros _ _. destruct (last (_get_route_segments train tracks)) as [last_segment |];
      [| by apply returns_ret].
    eapply returns_bind; [by apply returns_getitem |]. intros ? ->.
    destruct (contains xt last_segment) eqn:Hlast; [| by apply returns_ret].
    eapply returns_bind.
    + apply returns_collectM. intros t Ht%elem_of_range. by eapply x_at_total.
    + intros vs _. apply returns_add_constraint.
Qed.

Lemma _add_headway_constraints_returns x :
  wf_x (time_horizon_minutes config) trains tracks x →
  returns (_add_headway_constraints config trains tracks x) (λ _, True).
Proof.
  intros Hwf. unfold _add_headway_constraints.
  apply returns_forM_. intros track Htrack.
  apply returns_forM_. intros [i train1] Ht1%elem_of_enumerate_snd.
  apply returns_forM_. intros [j train2] Ht2%elem_of_enumerate_snd. simpl in *.
  destruct (i >=? j); [by apply returns_ret |].
  destruct (keys_are_has _ _ _ _ (proj1 Hwf) Ht1) as [xt1 Hxt1].
  destruct (keys_are_has _ _ _ _ (proj1 Hwf) Ht2) as [xt2 Hxt2].
  eapply returns_bind; [by apply returns_getitem |]. intros ? ->.
  eapply returns_bind; [by apply returns_getitem |]. intros ? ->.
  destruct (contains xt1 (segment_id track)) eqn:Hc1; simpl; [| by apply returns_ret].
  destruct (contains xt2 (segment_id track)) eqn:Hc2; simpl; [| by apply returns_ret].
  apply returns_forM_. intros t Ht%elem_of_range.
  apply returns_forM_. intros h Hh%elem_of_range_from.
  unfold time_slots in *. rewrite len_range in *.
  destruct (t + h <? Z.max 0 (time_horizon_minutes config)) eqn:Hlt;
    [| by apply returns_ret].
  apply Z.ltb_lt in Hlt.
  eapply returns_bind; [eapply x_at_total; eauto; lia |]. intros v1 _.
  eapply returns_bind; [eapply x_at_total; eauto; lia |]. intros v2 _.
  apply returns_add_constraint.
Qed.

Lemma has_platform_true p tid station :
  has_platform p tid station = true →
  ∃ pt v, p !! tid = Some pt ∧ pt !! station = Some v.
Proof.
  unfold has_platform. destruct (p !! tid) as [pt |]; [| done].
  intros [v Hv]%contains_true. eauto.
Qed.

Lemma p_at_total p tid station :
  has_platform p tid station = true → returns (p_at p tid station) (λ _, True).
Proof.
  intros (pt & v & Hp & Hv)%has_platform_true. unfold p_at.
  eapply returns_bind; [by apply returns_getitem |]. intros ? ->.
  eapply returns_weaken; [by apply returns_getitem | done].
Qed.

Lemma _add_platform_constraints_returns p :
  returns (_add_platform_constraints trains p) (λ _, True).
Proof.
  unfold _add_platform_constraints.
  apply returns_forM_. intros [station lst] _.
  apply returns_forM_. intros [i train1] _.
  apply returns_forM_. intros [j train2] _. simpl.
  destruct (i >=? j); [by apply returns_ret |].
  destruct (has_platform p (train_id train1) station) eqn:H1; simpl; [| by apply returns_ret].
  destruct (has_platform p (train_id train2) station) eqn:H2; simpl; [| by apply returns_ret].
  eapply returns_bind; [apply returns_NewIntVar |]. intros same _.
  eapply returns_bind; [by apply p_at_total |]. intros p1 _.
  eapply returns_bind; [by apply p_at_total |]. intros p2 _.
  eapply returns_bind; [apply returns_add_constraint |]. intros _ _.
  eapply returns_bind; [by apply p_at_total |]. intros p1' _.
  eapply returns_bind; [by apply p_at_total |]. intros p2' _.
  apply returns_add_constraint.
Qed.

Lemma has_x_true x tid sid :
  has_x x tid sid = true → ∃ xt, x !! tid = Some xt ∧ contains xt sid = true.
Proof. unfold has_x. destruct (x !! tid) as [xt |]; [eauto | done]. Qed.

Lemma _add_conflict_constraints_returns x c :
  wf_x (time_horizon_minutes config) trains tracks x →
  has_keys conflict_id conflicts c →
  returns (_add_conflict_constraints config trains tracks conflicts x c) (λ _, True).
Proof.
  intros Hwf Hc. unfold _add_conflict_constraints.
  apply returns_forM_. intros conflict Hq.
  destruct (bool_decide _); [| by apply returns_ret].
  destruct (List.find _ tracks) as [track |]; [| by apply returns_ret].
  apply returns_forM_. intros t Ht%elem_of_range.
  eapply returns_bind.
  - apply (returns_foldM _ (λ _ _, True)); [done |].
    intros _ tid acc _ _.
    destruct (has_x x tid (resource_id conflict)) eqn:Hhas; [| by apply returns_ret].
    apply has_x_true in Hhas as (xt & Hxt & Hcont).
    eapply returns_bind; [by eapply x_at_total |]. intros v _. by apply returns_ret.
  - intros vars _. destruct (len vars >? 1); [| by apply returns_ret].
    eapply returns_bind; [by eapply getitem_total |]. intros cq _.
    eapply returns_bind; [apply returns_add_constraint |]. intros _ _.
    eapply returns_bind; [by eapply getitem_total |]. intros cq' _.
    apply returns_add_constraint.
Qed.

Lemma _add_timing_constraints_returns x s j :
  wf_x (time_horizon_minutes config) trains tracks x →
  has_keys train_id trains s → has_keys train_id trains j →
  returns (_add_timing_constraints today_midnight config trains x s j) (λ _, True).
Proof.
  intros Hwf Hs Hj. unfold _add_timing_constraints.
  apply returns_forM_. intros train Htrain.
  destruct (keys_are_has _ _ _ _ (proj1 Hwf) Htrain) as [xt Hxt].
  apply (returns_bind _ _ (λ _, True)).
  - destruct (last _) as [last_segment |]; [| by apply returns_ret].
    eapply returns_bind; [by apply returns_getitem |]. intros ? ->.
    destruct (contains xt last_segment) eqn:Hlast; [| by apply returns_ret].
    apply returns_forM_. intros t Ht%elem_of_range.
    unfold time_slots. rewrite len_range.
    destruct (t <? Z.max 0 (time_horizon_minutes config) - 1) eqn:Hlt;
      [| by apply returns_ret].
    apply Z.ltb_lt in Hlt.
    eapply returns_bind; [apply returns_NewIntVar |]. intros completing _.
    eapply returns_bind; [eapply x_at_total; eauto; lia |]. intros v0 _.
    eapply returns_bind; [apply returns_add_constraint |]. intros _ _.
    eapply returns_bind; [eapply x_at_total; eauto; lia |]. intros v1 _.
    eapply returns_bind; [apply returns_add_constraint |]. intros _ _.
    eapply returns_bind; [by eapply getitem_total |]. intros jv _.
    apply returns_add_constraint.
  - intros _ _.
    destruct (_get_scheduled_start_minutes _ train) as [ssm |]; [| by apply returns_ret].
    destruct (head _) as [first_segment |]; [| by apply returns_ret].
    eapply returns_bind; [by apply returns_getitem |]. intros ? ->.
    destruct (contains xt first_segment) eqn:Hfirst; [| by apply returns_ret].
    apply returns_forM_. intros t Ht%elem_of_range.
    destruct (t <? ssm).
    + eapply returns_bind; [by eapply x_at_total |]. intros v _.
      apply returns_add_constraint.
    + destruct (t >=? ssm); [| by apply returns_ret].
      eapply returns_bind; [apply returns_NewIntVar |]. intros can_start _.
      eapply returns_bind; [by eapply getitem_total |]. intros sv _.
      apply returns_add_constraint.
Qed.

Lemma _set_objective_returns s c j :
  has_keys train_id trains s → has_keys conflict_id conflicts c →
  has_keys train_id trains j →
  returns (_set_objective config trains conflicts s c j) (λ _, True).
Proof.
  intros Hs Hc Hj. unfold _set_objective.
  eapply returns_bind.
  { apply (returns_foldM _ (λ _ _, True)); [done |]. intros _ train acc _ Htrain.
    eapply returns_bind; [by eapply getitem_total |]. intros sv _. by apply returns_ret. }
  intros terms1 _. eapply returns_bind.
  { apply (returns_foldM _ (λ _ _, True)); [done |]. intros _ train acc _ Htrain.
    eapply returns_bind; [by eapply getitem_total |]. intros jv _. by apply returns_ret. }
  intros terms2 _. eapply returns_bind.
  { apply (returns_foldM _ (λ _ _, True)); [done |]. intros _ q acc _ Hq.
    eapply returns_bind; [by eapply getitem_total |]. intros cv _. by apply returns_ret. }
  intros terms3 _. eapply returns_bind.
  { apply returns_collectM. intros train Htrain. by eapply getitem_total. }
  intros svs _. apply returns_Minimize.
Qed.

(** [_create_model] never raises, and the arena it returns has every
    variable the later passes subscript. *)
Lemma _create_model_returns :
  returns (_create_model today_midnight config trains tracks conflicts)
          (wf_vars config trains tracks conflicts).
Proof.
  unfold _create_model.
  eapply returns_bind; [apply new_x_returns |]. intros x Hx.
  eapply returns_bind; [apply new_s_returns |]. intros s Hs.
  eapply returns_bind; [apply new_c_returns |]. intros c Hc.
  eapply returns_bind; [apply new_p_returns |]. intros p _.
  eapply returns_bind; [apply new_j_returns |]. intros j Hj.
  eapply returns_bind; [by apply _add_capacity_constraints_returns |]. intros _ _.
  eapply returns_bind; [by apply _add_route_continuity_constraints_returns |]. intros _ _.
  eapply returns_bind; [by apply _add_headway_constraints_returns |]. intros _ _.
  eapply returns_bind; [by apply _add_platform_constraints_returns |]. intros _ _.
  eapply returns_bind; [by apply _add_conflict_constraints_returns |]. intros _ _.
  eapply returns_bind; [by apply _add_timing_constraints_returns |]. intros _ _.
  eapply returns_bind; [by apply _set_objective_returns |]. intros _ _.
  by apply returns_ret.
Qed.

End Totality.

(** * What a run of the builders leaves in the model *)

Lemma runs_x_at x tid sid t s v s' :
  runs_to (x_at x tid sid t) s v s' → x_get x tid sid t = Some v ∧ s' = s.
Proof.
  unfold x_at, x_get. intros Hr.
  apply runs_bind in Hr as (xt & s1 & [Hxt ->]%runs_getitem & Hr).
  apply runs_bind in Hr as (row & s2 & [Hrow ->]%runs_getitem & Hr).
  apply runs_getitem in Hr as [Hv ->].
  rewrite Hxt. simpl. rewrite Hrow. simpl. done.
Qed.

Lemma x_get_Some x tid sid t v :
  x_get x tid sid t = Some v ↔
  ∃ xt row, x !! tid = Some xt ∧ xt !! sid = Some row ∧ row !! t = Some v.
Proof.
  unfold x_get. split.
  - destruct (x !! tid) as [xt |]; simpl; [| done].
    destruct (xt !! sid) as [row |] eqn:Hrow; simpl; [| done].
    intros Hv. by exists xt, row.
  - intros (xt & row & -> & Hrow & Hv). simpl. rewrite Hrow. done.
Qed.

Lemma runs_add_constraint ct s u s' :
  runs_to (add_constraint ct) s u s' → ct ∈ Cp.constraints s'.
Proof.
  unfold runs_to, add_constraint. intros [= _ <-]. simpl.
  apply elem_of_app. right. by apply list_elem_of_singleton.
Qed.

Lemma runs_NewIntVar lo hi s v s' :
  runs_to (NewIntVar lo hi) s v s' → (v, (lo, hi)) ∈ Cp.domains s'.
Proof. unfold runs_to, NewIntVar. intros [= <- <-]. simpl. by left. Qed.

Lemma mono_x_at x tid sid t : mono (x_at x tid sid t).
Proof. intros s v s' [_ ->]%runs_x_at. apply ext_refl. Qed.

Lemma mono_p_at p tid station : mono (p_at p tid station).
Proof. unfold p_at. solve_mono. Qed.

Ltac builder_mono :=
  repeat first
    [ apply mono_x_at | apply mono_p_at
    | progress unfold Add, AddOnlyEnforceIf, AddImplication, NewBoolVar
    | mono_step ].

Section Content.

Variable today_midnight : Z.
Variable config : OptimizationConfig.
Variable trains : list TrainData.
Variable tracks : list TrackData.
Variable conflicts : list ConflictData.

Lemma mono_new_x : mono (new_x config trains tracks).
Proof. unfold new_x. builder_mono. Qed.

Lemma mono_new_s : mono (new_s config trains).
Proof. unfold new_s. builder_mono. Qed.

Lemma mono_new_c : mono (new_c conflicts).
Proof. unfold new_c. builder_mono. Qed.

Lemma mono_new_p : mono (new_p trains).
Proof. unfold new_p. builder_mono. Qed.

Lemma mono_new_j : mono (new_j config trains).
Proof. unfold new_j. builder_mono. Qed.

Lemma mono_capacity x : mono (_add_capacity_constraints config trains tracks x).
Proof. unfold _add_capacity_constraints. builder_mono. Qed.

Lemma mono_route_continuity x :
  mono (_add_route_continuity_constraints config trains tracks x).
Proof. unfold _add_route_continuity_constraints. builder_mono. Qed.

Lemma mono_headway x : mono (_add_headway_constraints config trains tracks x).
Proof. unfold _add_headway_constraints. builder_mono. Qed.

Lemma mono_platform p : mono (_add_platform_constraints trains p).
Proof. unfold _add_platform_constraints. builder_mono. Qed.

Lemma mono_conflict x c : mono (_add_conflict_constraints config trains tracks conflicts x c).
Proof. unfold _add_conflict_constraints. builder_mono. Qed.

Lemma mono_timing x s j : mono (_add_timing_constraints today_midnight config trains x s j).
Proof. unfold _add_timing_constraints. builder_mono. Qed.

Lemma mono_set_objective s c j : mono (_set_objective config trains conflicts s c j).
Proof. unfold _set_objective. builder_mono. Qed.

Lemma _create_model_trace s0 vars m :
  runs_to (_create_model today_midnight config trains tracks conflicts) s0 vars m →
  create_model_trace today_midnight config trains tracks conflicts s0 vars m.
Proof.
  unfold _create_model. intros Hr.
  apply runs_bind in Hr as (x & s1 & Hx & Hr).
  apply runs_bind in Hr as (s & s2 & Hs & Hr).
  apply runs_bind in Hr as (c & s3 & Hc & Hr).
  apply runs_bind in Hr as (p & s4 & Hp & Hr).
  apply runs_bind in Hr as (j & s5 & Hj & Hr).
  apply runs_bind in Hr as ([] & s6 & H6 & Hr).
  apply runs_bind in Hr as ([] & s7 & H7 & Hr).
  apply runs_bind in Hr as ([] & s8 & H8 & Hr).
  apply runs_bind in Hr as ([] & s9 & H9 & Hr).
  apply runs_bind in Hr as ([] & s10 & H10 & Hr).
  apply runs_bind in Hr as ([] & s11 & H11 & Hr).
  apply runs_bind in Hr as ([] & s12 & H12 & Hr).
  apply runs_ret in Hr as [-> ->]. simpl.
  by exists s1, s2, s3, s4, s5, s6, s7, s8, s9, s10, s11.
Qed.

End Content.

(** * Code that only raises *)

Lemma subscript_Some {K V} `{Countable K} (d : gmap K V) k v :
  d !! k = Some v → subscript d k = inr v.
Proof. unfold subscript. by intros ->. Qed.

Lemma subscript_inr {K V} `{Countable K} (d : gmap K V) k v :
  subscript d k = inr v → d !! k = Some v.
Proof. unfold subscript. destruct (d !! k); [by intros [= ->] | done]. Qed.

Lemma collectM_inr {A B} (f : A → exn + B) (g : A → B) (l : list A) :
  (∀ a, a ∈ l → f a = inr (g a)) → collectM f l = inr (g <$> l).
Proof.
  induction l as [| a l IH]; intros Hf; simpl; [done |].
  rewrite (Hf a) by (by left). simpl.
  rewrite IH; [done |]. intros b Hb. apply Hf. by right.
Qed.

Lemma sum_Z_app l1 l2 : sum_Z (l1 ++ l2) = sum_Z l1 + sum_Z l2.
Proof.
  unfold sum_Z. rewrite fold_left_app. generalize (fold_left Z.add l1 0).
  induction l2 as [| z l2 IH]; intros acc; simpl; [lia |].
  rewrite IH, (IH (0 + z)). lia.
Qed.

Lemma sum_Z_ones {A} (l : list A) : sum_Z ((λ _, 1) <$> l) = len l.
Proof.
  induction l as [| a l IH]; [done |].
  change ((λ _, 1) <$> a :: l) with ([1] ++ ((λ _ : A, 1) <$> l)).
  rewrite sum_Z_app, IH. unfold len. simpl length. unfold sum_Z. simpl. lia.
Qed.

(** * Feasible assignments *)

Lemma feasible_constraint m a ct :
  Cp.feasible m a = true → ct ∈ Cp.constraints m → Cp.constraint_holds a ct = true.
Proof.
  unfold Cp.feasible. intros [_ Hc]%andb_true_iff Hin.
  rewrite forallb_forall in Hc. apply Hc. by apply list_elem_of_In.
Qed.

Lemma feasible_domain m a v lo hi :
  Cp.feasible m a = true → (v, (lo, hi)) ∈ Cp.domains m → lo ≤ a v ≤ hi.
Proof.
  unfold Cp.feasible. intros [Hd _]%andb_true_iff Hin.
  rewrite forallb_forall in Hd. apply list_elem_of_In, Hd in Hin.
  unfold Cp.in_domain in Hin. simpl in Hin. lia.
Qed.

Lemma ext_constraint s s' ct : ext s s' → ct ∈ Cp.constraints s → ct ∈ Cp.constraints s'.
Proof. intros [Hc _]. apply Hc. Qed.

Lemma ext_domain s s' d : ext s s' → d ∈ Cp.domains s → d ∈ Cp.domains s'.
Proof. intros [_ Hd]. apply Hd. Qed.

(** * Headway constraints *)

Section Headway.

Variable today_midnight : Z.
Variable config : OptimizationConfig.
Variable trains : list TrainData.
Variable tracks : list TrackData.
Variable conflicts : list ConflictData.


End Headway.

Lemma wf_x_get H trains tracks x train track t :
  wf_x H trains tracks x → train ∈ trains → track ∈ tracks → 0 ≤ t < H →
  is_Some (x_get x (train_id train) (segment_id track) t).
Proof.
  intros [Hk Hwf] Htrain Htrack Ht.
  destruct (keys_are_has _ _ _ _ Hk Htrain) as [xt Hxt].
  destruct (Hwf _ _ Hxt) as [Hkt Hrows].
  destruct (keys_are_has _ _ _ _ Hkt Htrack) as [row Hrow].
  destruct (proj2 (Hrows _ _ Hrow t) Ht) as [v Hv].
  exists v. apply x_get_Some. eauto.
Qed.




(** * The occupancy variables that exist *)

(** Claim C5 (materialization), as the code has it. The arena is dense: [x[tid][sid][t]] exists
    exactly when [tid] is the id of an input train, [sid] the id of an
    input track and [0 ≤ t < H], whether or not the track is on the train's
    route. *)
Theorem occupancy_variables_dense :
  ∀ today_midnight config trains tracks conflicts,
  ∃ vars m,
    _create_model today_midnight config trains tracks conflicts Cp.empty_model = inr (vars, m) ∧
    ∀ tid sid t,
      is_Some (x_get (var_x vars) tid sid t) ↔
      (∃ train, train ∈ trains ∧ train_id train = tid) ∧
      (∃ track, track ∈ tracks ∧ segment_id track = sid) ∧
      0 ≤ t < time_horizon_minutes config.
Proof.
  intros today_midnight config trains tracks conflicts.
  destruct (_create_model_returns today_midnight config trains tracks conflicts Cp.empty_model)
    as (vars & m & Hrun & [Hk Hwf] & _).
  exists vars, m. split; [exact Hrun |]. intros tid sid t. split.
  - intros [v (xt & row & Hxt & Hrow & Hv)%x_get_Some].
    destruct (Hwf _ _ Hxt) as [Hkt Hrows].
    split; [apply Hk; eauto |]. split; [apply Hkt; eauto |].
    apply (Hrows _ _ Hrow). eauto.
  - intros ((train & Htrain & <-) & (track & Htrack & <-) & Ht).
    by eapply wf_x_get.
Qed.

(** Claim C5, at an input: T has a variable on K9 at tick 1. *)
Lemma occupancy_variables_dense_witness :
  ∃ vars m,
    _create_model 0 sp_config [sp_train] [sp_on_route; sp_off_route] [] Cp.empty_model
      = inr (vars, m) ∧
    is_Some (x_get (var_x vars) "T" "K9" 1).
Proof.
  destruct (occupancy_variables_dense 0 sp_config [sp_train] [sp_on_route; sp_off_route] [])
    as (vars & m & Hrun & Hiff).
  exists vars, m. split; [exact Hrun |]. apply Hiff. split; [| split].
  - exists sp_train. split; [by left | done].
  - exists sp_off_route. split; [right; by left | done].
  - simpl. lia.
Defined.

(** Claim C5 as stated fails. The segment K9 is on no route of T, and T has occupancy variables on
    it. *)
Lemma sparse_materialization_fails :
  ¬ (∀ vars m,
       _create_model 0 sp_config [sp_train] [sp_on_route; sp_off_route] [] Cp.empty_model
         = inr (vars, m) →
       sparse_materialization [sp_train] [sp_on_route; sp_off_route] vars).
Proof.
  intros Hclaim.
  destruct (_create_model 0 sp_config [sp_train] [sp_on_route; sp_off_route] [] Cp.empty_model)
    as [e | [vars m]] eqn:Hrun; [by vm_compute in Hrun |].
  specialize (Hclaim vars m eq_refl).
  vm_compute in Hrun. injection Hrun as <- <-.
  assert (segment_id sp_off_route ∈ _get_route_segments sp_train [sp_on_route; sp_off_route])
    as Hin.
  { apply (Hclaim sp_train sp_off_route 0).
    - by left.
    - right. by left.
    - vm_compute. by eexists. }
  vm_compute in Hin. apply list_elem_of_singleton in Hin. discriminate.
Qed.

(** * Conflict constraints *)

Lemma eval_py_sum a (l : list Cp.var) :
  Cp.eval a (Cp.py_sum (Cp.EVar <$> l)) = sum_Z (a <$> l).
Proof.
  unfold Cp.py_sum, sum_Z.
  change 0 with (Cp.eval a (Cp.EConst 0)) at 2. generalize (Cp.EConst 0).
  induction l as [| v l IH]; intros e; simpl; [done |]. by rewrite IH.
Qed.

(** Every variable of a dict filled with fresh variables has the domain
    it was created with. *)
Lemma runs_fill_domain {A} (key : A → string) lo hi (l : list A)
    (d0 : gmap string Cp.var) s d s' :
  runs_to (foldM (λ d a, v ← NewIntVar lo hi; mret (<[key a := v]> d)) d0 l) s d s' →
  (∀ k v, d0 !! k = Some v → (v, (lo, hi)) ∈ Cp.domains s) →
  ∀ k v, d !! k = Some v → (v, (lo, hi)) ∈ Cp.domains s'.
Proof.
  revert d0 s. induction l as [| a l IH]; intros d0 s Hr H0; simpl in Hr.
  - apply runs_ret in Hr as [-> ->]. done.
  - apply runs_bind in Hr as (d1 & s1 & Hstep & Hr).
    apply (IH _ _ Hr). clear IH Hr.
    apply runs_bind in Hstep as (v & s2 & Hnew & [-> ->]%runs_ret).
    intros k w. destruct (decide (key a = k)) as [<- | Hne].
    + rewrite lookup_insert_eq. intros [= <-]. by eapply runs_NewIntVar.
    + rewrite lookup_insert_ne by done. intros Hk.
      eapply ext_domain; [eapply mono_NewIntVar, Hnew | by eapply H0].
Qed.

Section Conflict.

Variable today_midnight : Z.
Variable config : OptimizationConfig.
Variable trains : list TrainData.
Variable tracks : list TrackData.
Variable conflicts : list ConflictData.




Lemma new_c_domains s c s' q cq :
  runs_to (new_c conflicts) s c s' → c !! q = Some cq → (cq, (0, 1)) ∈ Cp.domains s'.
Proof.
  unfold new_c, NewBoolVar. intros Hr Hq.
  eapply (runs_fill_domain conflict_id 0 1); [exact Hr | | exact Hq].
  intros k v. by rewrite lookup_empty.
Qed.

End Conflict.

Lemma resolved_loop (c : gmap string Cp.var) (solver : CpSolver)
    (conflicts : list ConflictData) (acc : list Z) :
  has_keys conflict_id conflicts c →
  foldM (λ acc conflict,
           cv ← subscript c (conflict_id conflict);
           mret (if Value solver cv =? 0 then acc ++ [1] else acc)) acc conflicts
  = inr (acc ++ ((λ _, 1) <$>
           List.filter (λ q, match c !! conflict_id q with
                             | Some cq => Value solver cq =? 0
                             | None => false
                             end) conflicts)).
Proof.
  revert acc. induction conflicts as [| q conflicts IH]; intros acc Hc; simpl.
  - by rewrite app_nil_r.
  - destruct (Hc q) as [cq Hcq]; [by left |].
    rewrite (subscript_Some _ _ _ Hcq). simpl. rewrite Hcq.
    rewrite IH by (intros q' Hq'; apply Hc; by right).
    destruct (Value solver cq =? 0); simpl; [| done]. by rewrite <- app_assoc.
Qed.





(** * Objective *)

Lemma Qsum_nil : Qsum [] = 0%Q.
Proof. reflexivity. Qed.

Lemma Qsum_cons q l : Qsum (q :: l) = (q + Qsum l)%Q.
Proof. reflexivity. Qed.

Lemma feval_fold_left a (l : list Cp.fexpr) (acc : Cp.fexpr) :
  (Cp.feval a (fold_left Cp.FAdd l acc) == Cp.feval a acc + Qsum (Cp.feval a <$> l))%Q.
Proof.
  revert acc. induction l as [| e l IH]; intros acc; csimpl.
  - ring.
  - rewrite IH. csimpl. ring.
Qed.

Lemma feval_py_fsum a (l : list Cp.fexpr) :
  (Cp.feval a (Cp.py_fsum l) == Qsum (Cp.feval a <$> l))%Q.
Proof. unfold Cp.py_fsum. rewrite feval_fold_left. csimpl. ring. Qed.



Lemma Qsum_scale (w : Q) (l : list Q) : (w * Qsum l == Qsum ((λ q, w * q)%Q <$> l))%Q.
Proof.
  induction l as [| q l IH]; csimpl.
  - ring.
  - rewrite <- IH. ring.
Qed.


(** A loop appending one term per element, the term's variable read from
    a dict. *)
Lemma runs_append_terms {A T} (key : A → string) (d : gmap string Cp.var)
    (g : A → Cp.var → T) (l : list A) acc s r s' :
  runs_to (foldM (λ acc x, v ← getitem d (key x); mret (acc ++ [g x v])) acc l) s r s' →
  r = acc ++ ((λ x, g x (default (0%nat : Cp.var) (d !! key x))) <$> l) ∧ s' = s.
Proof.
  revert acc s. induction l as [| x l IH]; intros acc s Hr; simpl in Hr.
  - apply runs_ret in Hr as [-> ->]. by rewrite app_nil_r.
  - apply runs_bind in Hr as (acc1 & s1 & Hstep & Hr).
    apply IH in Hr as [-> ->].
    apply runs_bind in Hstep as (v & ? & [Hv ->]%runs_getitem & [-> ->]%runs_ret).
    simpl. rewrite Hv. simpl. by rewrite <- app_assoc.
Qed.

Lemma runs_collect_vars {A} (key : A → string) (d : gmap string Cp.var) (l : list A) s r s' :
  runs_to (collectM (λ x, getitem d (key x)) l) s r s' →
  r = (λ x, default (0%nat : Cp.var) (d !! key x)) <$> l ∧ s' = s.
Proof.
  revert r s. induction l as [| x l IH]; intros r s Hr; simpl in Hr.
  - by apply runs_ret in Hr as [-> ->].
  - apply runs_bind in Hr as (v & ? & [Hv ->]%runs_getitem & Hr).
    apply runs_bind in Hr as (vs & s1 & Hvs & [-> ->]%runs_ret).
    apply IH in Hvs as [-> ->]. simpl. by rewrite Hv.
Qed.

Lemma runs_Minimize e s u s' : runs_to (Minimize e) s u s' → Cp.objective s' = Some e.
Proof. unfold runs_to, Minimize. by intros [= _ <-]. Qed.




(** The objective is the Python sum of the delay terms, the journey terms,
    the conflict terms and the disruption term, in this order. *)
Lemma objective_is_sum_of_terms today_midnight config trains tracks conflicts :
  ∃ vars m,
    _create_model today_midnight config trains tracks conflicts Cp.empty_model = inr (vars, m) ∧
    wf_vars config trains tracks conflicts vars ∧
    Cp.objective m = Some (Cp.py_fsum (objective_terms config trains conflicts vars)).
Proof.
  destruct (_create_model_returns today_midnight config trains tracks conflicts Cp.empty_model)
    as (vars & m & Hrun & Hwf).
  exists vars, m. split; [exact Hrun |]. split; [exact Hwf |].
  apply _create_model_trace in Hrun
    as (s1 & s2 & s3 & s4 & s5 & s6 & s7 & s8 & s9 & s10 & s11 &
        _ & _ & _ & _ & _ & _ & _ & _ & _ & _ & _ & Hob).
  unfold _set_objective in Hob.
  apply runs_bind in Hob as (terms1 & ? & Ht1 & Hob).
  apply (runs_append_terms train_id (var_s vars)
           (λ train sv, Cp.FScale (delay_weight config * inject_Z (6 - priority train)
                                   * priority_multiplier config)%Q (Cp.EVar sv)))
    in Ht1 as [-> ->].
  apply runs_bind in Hob as (terms2 & ? & Ht2 & Hob).
  apply (runs_append_terms train_id (var_j vars)
           (λ train jv, Cp.FScale (delay_weight config * (1 # 10))%Q (Cp.EVar jv)))
    in Ht2 as [-> ->].
  apply runs_bind in Hob as (terms3 & ? & Ht3 & Hob).
  apply (runs_append_terms conflict_id (var_c vars)
           (λ q cv, Cp.FScale (conflict_weight config * inject_Z (6 - severity q))%Q
                              (Cp.EVar cv)))
    in Ht3 as [-> ->].
  apply runs_bind in Hob as (svs & ? & Hsvs & Hob).
  apply (runs_collect_vars train_id (var_s vars)) in Hsvs as [-> ->].
  apply runs_Minimize in Hob. rewrite Hob. unfold objective_terms.
  by rewrite app_nil_l, <- !app_assoc.
Qed.



(** * Schedule extraction *)

Lemma range_from_cons a b : a < b → range_from a b = a :: range_from (a + 1) b.
Proof.
  intros Hab. unfold range_from.
  replace (Z.to_nat (b - a)) with (S (Z.to_nat (b - (a + 1)))) by lia.
  simpl. f_equal; [lia |].
  rewrite <- fmap_S_seq, <- list_fmap_compose.
  apply list_fmap_ext. intros _ i _. simpl. lia.
Qed.

Lemma range_from_nil a b : b ≤ a → range_from a b = [].
Proof. intros Hab. unfold range_from. by replace (Z.to_nat (b - a)) with 0%nat by lia. Qed.

Lemma range_from_0 n : range n = range_from 0 n.
Proof. unfold range, range_from. by rewrite Z.sub_0_r. Qed.

Section Scan.

Variable value : Z → exn + Z.
Variable f : Z → Z.
Variable base_time : Z.
Variable H : Z.
Hypothesis value_f : ∀ t, 0 ≤ t < H → value t = inr (f t).

(** Inside a run that began at [a], with the ticks up to [k - 1] seen. *)
Lemma scan_in_run (n : nat) : ∀ k a,
  Z.of_nat n = H - k → 0 ≤ a < k → (∀ t, a ≤ t < k → f t = 1) →
  ∃ b, scan_ticks value base_time (range_from k H)
         (Some (base_time + 60 * a)) (Some (base_time + 60 * k))
       = inr (Some (base_time + 60 * a), Some (base_time + 60 * (b + 1))) ∧
       k - 1 ≤ b < H ∧ (∀ t, a ≤ t ≤ b → f t = 1) ∧ (b + 1 < H → f (b + 1) ≠ 1).
Proof.
  induction n as [| n IH]; intros k a Hn Ha Hones.
  - exists (k - 1). rewrite range_from_nil by lia. simpl.
    replace (k - 1 + 1) with k by lia.
    split; [done |]. split; [lia |]. split; [intros; apply Hones; lia | lia].
  - rewrite range_from_cons by lia. simpl. rewrite value_f by lia. simpl.
    destruct (f k =? 1) eqn:Hk.
    + apply Z.eqb_eq in Hk.
      destruct (IH (k + 1) a) as (b & Hscan & Hb & Hrun & Hend); [lia | lia | |].
      { intros t Ht. destruct (decide (t = k)) as [-> | Hne]; [done | apply Hones; lia]. }
      exists b. split; [exact Hscan |]. split; [lia | done].
    + apply Z.eqb_neq in Hk. exists (k - 1).
      replace (k - 1 + 1) with k by lia.
      split; [done |]. split; [lia |]. split; [intros; apply Hones; lia | done].
Qed.

(** Before any run, with the ticks up to [k - 1] seen. *)
Lemma scan_before_run (n : nat) : ∀ k,
  Z.of_nat n = H - k → 0 ≤ k → (∀ t, 0 ≤ t < k → f t ≠ 1) →
  ∃ r, scan_ticks value base_time (range_from k H) None None = inr r ∧
       ((r = (None, None) ∧ no_run f H) ∨
        (∃ a b, first_run f H a b ∧
                r = (Some (base_time + 60 * a), Some (base_time + 60 * (b + 1))))).
Proof.
  induction n as [| n IH]; intros k Hn Hk Hnone.
  - exists (None, None). rewrite range_from_nil by lia. split; [done |]. left.
    split; [done |]. intros t Ht. apply Hnone. lia.
  - rewrite range_from_cons by lia. simpl. rewrite value_f by lia. simpl.
    destruct (f k =? 1) eqn:Hfk.
    + apply Z.eqb_eq in Hfk.
      destruct (scan_in_run n (k + 1) k) as (b & Hscan & Hb & Hrun & Hend); [lia | lia | |].
      { intros t Ht. by replace t with k by lia. }
      eexists. split; [exact Hscan |]. right. exists k, b. split; [| done].
      split; [| done]. split; [lia |]. split; [lia |]. split; [done |].
      split; [| done]. intros Hpos. apply Hnone. lia.
    + apply Z.eqb_neq in Hfk. apply (IH (k + 1)); [lia | lia |].
      intros t Ht. destruct (decide (t = k)) as [-> | Hne]; [done | apply Hnone; lia].
Qed.

Lemma scan_ticks_range :
  ∃ r, scan_ticks value base_time (range H) None None = inr r ∧
       ((r = (None, None) ∧ no_run f H) ∨
        (∃ a b, first_run f H a b ∧
                r = (Some (base_time + 60 * a), Some (base_time + 60 * (b + 1))))).
Proof.
  rewrite range_from_0.
  destruct (decide (0 ≤ H)) as [Hpos | Hneg].
  - apply (scan_before_run (Z.to_nat H) 0); lia.
  - exists (None, None). rewrite range_from_nil by lia. split; [done |]. left.
    split; [done |]. intros t Ht. lia.
Qed.

End Scan.

(** A maximal run that starts first is the first run found, so there is
    only one. *)
Lemma first_run_unique f H a b a' b' :
  first_run f H a b → first_run f H a' b' → a = a' ∧ b = b'.
Proof.
  intros [(Ha & Hb & Hones & Hpre & Hpost) Hnone] [(Ha' & Hb' & Hones' & Hpre' & Hpost') Hnone'].
  assert (a = a') as ->.
  { destruct (Z.lt_trichotomy a a') as [Hlt | [-> | Hgt]]; [| done |].
    - exfalso. apply (Hnone' a); [lia | apply Hones; lia].
    - exfalso. apply (Hnone a'); [lia | apply Hones'; lia]. }
  split; [done |].
  destruct (Z.lt_trichotomy b b') as [Hlt | [-> | Hgt]]; [| done |].
  - exfalso. apply Hpost; [lia | apply Hones'; lia].
  - exfalso. apply Hpost'; [lia | apply Hones; lia].
Qed.

Lemma x_value_get solver x tid sid t v :
  x_get x tid sid t = Some v → x_value solver x tid sid t = inr (Value solver v).
Proof.
  intros (xt & row & Hxt & Hrow & Hv)%x_get_Some. unfold x_value.
  rewrite (subscript_Some _ _ _ Hxt). simpl.
  rewrite (subscript_Some _ _ _ Hrow). simpl.
  by rewrite (subscript_Some _ _ _ Hv).
Qed.

Lemma platform_of_returns solver p train : ∃ platform, platform_of solver p train = inr platform.
Proof.
  unfold platform_of.
  destruct (List.find _ (route train)) as [station |] eqn:Hfind; [| by eexists].
  apply find_some in Hfind as [_ (pt & v & Hpt & Hv)%has_platform_true].
  rewrite (subscript_Some _ _ _ Hpt). simpl. rewrite (subscript_Some _ _ _ Hv). simpl.
  by eexists.
Qed.

(** A loop that appends a chunk per element. *)
Lemma foldM_chunks {A B} (body : list B → A → exn + list B) (R : A → list B → Prop)
    (l : list A) (acc : list B) :
  (∀ acc a, a ∈ l → ∃ es, body acc a = inr (acc ++ es) ∧ R a es) →
  ∃ chunks, foldM body acc l = inr (acc ++ concat chunks) ∧ Forall2 R l chunks.
Proof.
  revert acc. induction l as [| a l IH]; intros acc Hbody; simpl.
  - exists []. simpl. by rewrite app_nil_r.
  - destruct (Hbody acc a) as (es & -> & HR); [by left |]. simpl.
    destruct (IH (acc ++ es)) as (chunks & -> & Hall).
    { intros acc' a' Ha'. apply Hbody. by right. }
    exists (es :: chunks). simpl. rewrite <- app_assoc. split; [done |]. by constructor.
Qed.

Section Extract.

Variable config : OptimizationConfig.
Variable trains : list TrainData.
Variable tracks : list TrackData.
Variable vars : Variables.
Variable solver : CpSolver.
Variable base_time : Z.
Hypothesis arena : wf_x (time_horizon_minutes config) trains tracks (var_x vars).

Lemma collect_schedule_returns :
  ∃ schedule,
    collect_schedule config vars solver base_time trains tracks = inr schedule ∧
    loop_order config vars solver base_time trains tracks schedule.
Proof.
  unfold collect_schedule, loop_order.
  destruct (foldM_chunks
    (λ schedule train,
       foldM (λ schedule track,
         xt ← subscript (var_x vars) (train_id train);
         if contains xt (segment_id track) then
           period ← scan_ticks (x_value solver (var_x vars) (train_id train) (segment_id track))
                               base_time (time_slots config) None None;
           match period with
           | (Some start_time, Some end_time) =>
               platform ← platform_of solver (var_p vars) train;
               mret (schedule ++ [mkEntry (train_id train) (segment_id track)
                                          start_time end_time platform])
           | _ => mret schedule
           end
         else mret schedule) schedule tracks)
    (train_entries config vars solver base_time tracks) trains [])
    as (per_train & Hrun & Hall).
  - intros acc train Htrain. unfold train_entries.
    match goal with
    | |- ∃ es, foldM ?body _ _ = _ ∧ _ =>
        destruct (foldM_chunks body (pair_entries config vars solver base_time train)
                    tracks acc) as (per_track & Hrun & Hall)
    end; [| exists (concat per_track); split; [exact Hrun | by exists per_track]].
    intros acc' track Htrack.
    destruct (keys_are_has _ _ _ _ (proj1 arena) Htrain) as [xt Hxt].
    destruct (proj2 arena _ _ Hxt) as [Hkt Hrows].
    destruct (keys_are_has _ _ _ _ Hkt Htrack) as [row Hrow].
    rewrite (subscript_Some _ _ _ Hxt). simpl.
    unfold contains. rewrite Hrow.
    destruct (scan_ticks_range
                (x_value solver (var_x vars) (train_id train) (segment_id track))
                (x_val solver vars (train_id train) (segment_id track))
                base_time (time_horizon_minutes config))
      as (r & Hscan & Hr).
    { intros t Ht. destruct (proj2 (Hrows _ _ Hrow t) Ht) as [v Hv].
      assert (x_get (var_x vars) (train_id train) (segment_id track) t = Some v) as Hget
        by (apply x_get_Some; eauto).
      unfold x_val. rewrite Hget. by apply x_value_get. }
    unfold time_slots. rewrite Hscan. simpl.
    destruct Hr as [[-> Hnone] | (a & b & Hfirst & ->)].
    + exists []. rewrite app_nil_r. split; [done |]. by left.
    + destruct (platform_of_returns solver (var_p vars) train) as [platform ->]. simpl.
      eexists. split; [done |]. right. by exists a, b, platform.
  - exists (concat per_train). simpl in Hrun. split; [exact Hrun |]. by exists per_train.
Qed.

End Extract.

(** ** The final [sorted] *)

Lemma insert_by_perm {A} (key : A → Z) e (l : list A) : insert_by key e l ≡ₚ e :: l.
Proof.
  induction l as [| h l IH]; simpl; [done |].
  destruct (key e <=? key h); [done |].
  rewrite IH. apply Permutation_swap.
Qed.

Lemma sorted_perm {A} (key : A → Z) (l : list A) : sorted key l ≡ₚ l.
Proof.
  induction l as [| e l IH]; simpl; [done |].
  rewrite insert_by_perm. by constructor.
Qed.

Lemma insert_by_sorted {A} (key : A → Z) e (l : list A) :
  StronglySorted (λ x y, key x ≤ key y) l →
  StronglySorted (λ x y, key x ≤ key y) (insert_by key e l).
Proof.
  induction 1 as [| h l Hl IH Hh]; simpl.
  - repeat constructor.
  - destruct (key e <=? key h) eqn:Hle.
    + apply Z.leb_le in Hle. constructor; [by constructor |].
      constructor; [done |]. eapply Forall_impl; [exact Hh |]. simpl. lia.
    + apply Z.leb_gt in Hle. constructor; [done |].
      rewrite (insert_by_perm key e l). constructor; [lia | done].
Qed.

Lemma sorted_sorted {A} (key : A → Z) (l : list A) :
  StronglySorted (λ x y, key x ≤ key y) (sorted key l).
Proof.
  induction l as [| e l IH]; simpl; [constructor |]. by apply insert_by_sorted.
Qed.

(** An inserted element only passes elements with a smaller key. *)
Lemma insert_by_filter {A} (key : A → Z) k e (l : list A) :
  List.filter (λ x, key x =? k) (insert_by key e l) = List.filter (λ x, key x =? k) (e :: l).
Proof.
  induction l as [| h l IH]; [done |].
  simpl insert_by. destruct (key e <=? key h) eqn:Hle; [done |].
  apply Z.leb_gt in Hle. simpl in *. rewrite IH.
  destruct (key e =? k) eqn:He; destruct (key h =? k) eqn:Hh; try done.
  apply Z.eqb_eq in He, Hh. lia.
Qed.

Lemma sorted_stable {A} (key : A → Z) k (l : list A) :
  List.filter (λ x, key x =? k) (sorted key l) = List.filter (λ x, key x =? k) l.
Proof.
  induction l as [| e l IH]; [done |].
  simpl sorted. rewrite insert_by_filter. simpl. by rewrite IH.
Qed.

(** The schedule before and after sorting, for the variables of any
    built model. *)
Lemma _extract_schedule_returns today_midnight config trains tracks conflicts :
  ∃ vars m,
    _create_model today_midnight config trains tracks conflicts Cp.empty_model = inr (vars, m) ∧
    wf_vars config trains tracks conflicts vars ∧
    ∀ solver base_time,
    ∃ unsorted,
      collect_schedule config vars solver base_time trains tracks = inr unsorted ∧
      _extract_schedule config vars solver base_time trains tracks
        = inr (sorted start_time unsorted) ∧
      loop_order config vars solver base_time trains tracks unsorted.
Proof.
  destruct (_create_model_returns today_midnight config trains tracks conflicts Cp.empty_model)
    as (vars & m & Hrun & Hwf).
  exists vars, m. split; [exact Hrun |]. split; [exact Hwf |].
  intros solver base_time.
  destruct (collect_schedule_returns config trains tracks vars solver base_time (proj1 Hwf))
    as (unsorted & Hcollect & Horder).
  exists unsorted. split; [done |]. split; [| done].
  unfold _extract_schedule. by rewrite Hcollect.
Qed.

(** Claim C2 (extraction of runs), as the code has it. The ticks of each (train, track) are
    scanned upwards and the scan stops at the end of the first run: the
    loop appends, for the trains in input order and for each the tracks in
    input order, nothing when the train never occupies the track and
    otherwise one entry, from the first tick of the first maximal run to
    the tick after its last; later runs give no entry. The schedule
    returned is a rearrangement of these entries. *)
Theorem extraction_keeps_first_run :
  ∀ today_midnight config trains tracks conflicts,
  ∃ vars m,
    _create_model today_midnight config trains tracks conflicts Cp.empty_model = inr (vars, m) ∧
    ∀ solver base_time,
    ∃ unsorted schedule,
      _extract_schedule config vars solver base_time trains tracks = inr schedule ∧
      loop_order config vars solver base_time trains tracks unsorted ∧
      schedule ≡ₚ unsorted.
Proof.
  intros today_midnight config trains tracks conflicts.
  destruct (_extract_schedule_returns today_midnight config trains tracks conflicts)
    as (vars & m & Hrun & _ & Hex).
  exists vars, m. split; [exact Hrun |]. intros solver base_time.
  destruct (Hex solver base_time) as (unsorted & _ & Hextract & Horder).
  exists unsorted, (sorted start_time unsorted).
  split; [done |]. split; [done |]. apply sorted_perm.
Qed.

(** Claim C2, at an input: the train with two runs on K1 gets at most one
    entry. *)
Lemma extraction_keeps_first_run_witness :
  ∃ vars m schedule,
    _create_model 0 ex_config [sp_train] [sp_on_route] [] Cp.empty_model = inr (vars, m) ∧
    _extract_schedule ex_config vars ex_two_runs 0 [sp_train] [sp_on_route] = inr schedule ∧
    (length schedule ≤ 1)%nat.
Proof.
  destruct (extraction_keeps_first_run 0 ex_config [sp_train] [sp_on_route] [])
    as (vars & m & Hrun & Hex).
  destruct (Hex ex_two_runs 0) as (unsorted & schedule & Hextract & Horder & Hperm).
  exists vars, m, schedule. split; [exact Hrun |]. split; [exact Hextract |].
  rewrite Hperm. destruct Horder as (per_train & -> & Htrains).
  inversion Htrains as [| ? es ? ? (per_track & -> & Htracks) Hnil]; subst.
  inversion Hnil; subst.
  inversion Htracks as [| ? es' ? ? Hpair Hnil']; subst.
  inversion Hnil'; subst. simpl. rewrite !app_nil_r.
  destruct Hpair as [[-> _] | (a & b & platform & _ & ->)]; simpl; lia.
Defined.

(** The two-run answer is one the back end can give: it is feasible. *)
Lemma ex_two_runs_feasible :
  ∃ vars m,
    _create_model 0 ex_config [sp_train] [sp_on_route] [] Cp.empty_model = inr (vars, m) ∧
    Cp.feasible m (Value ex_two_runs) = true.
Proof. eexists _, _. split; by vm_compute. Qed.

(** Claim C2 as stated fails. A train on K1 at ticks 0 and 2 gets the
    entry of tick 0 only. *)
Lemma every_run_extracted_fails :
  ¬ (∀ vars m schedule,
       _create_model 0 ex_config [sp_train] [sp_on_route] [] Cp.empty_model = inr (vars, m) →
       _extract_schedule ex_config vars ex_two_runs 0 [sp_train] [sp_on_route] = inr schedule →
       every_run_extracted ex_config vars ex_two_runs 0 [sp_train] [sp_on_route] schedule).
Proof.
  intros Hclaim.
  destruct (_create_model 0 ex_config [sp_train] [sp_on_route] [] Cp.empty_model)
    as [e | [vars m]] eqn:Hrun; [by vm_compute in Hrun |].
  destruct (_extract_schedule ex_config vars ex_two_runs 0 [sp_train] [sp_on_route])
    as [e | schedule] eqn:Hex.
  { vm_compute in Hrun. injection Hrun as <- <-. by vm_compute in Hex. }
  specialize (Hclaim vars m schedule eq_refl Hex).
  vm_compute in Hrun. injection Hrun as <- <-.
  vm_compute in Hex. injection Hex as <-.
  destruct (Hclaim sp_train sp_on_route 2 2) as [platform Hin].
  - by left.
  - by left.
  - split; [lia |]. split; [simpl; lia |]. split; [| split].
    + intros t Ht. by replace t with 2 by lia.
    + intros _. by vm_compute.
    + intros _. by vm_compute.
  - apply list_elem_of_singleton in Hin. discriminate.
Qed.

Lemma elem_of_concat {A} (x : A) (ls : list (list A)) :
  x ∈ concat ls ↔ ∃ l, x ∈ l ∧ l ∈ ls.
Proof.
  induction ls as [| l ls IH]; simpl.
  - split; [by intros ?%elem_of_nil | by intros (l & _ & ?%elem_of_nil)].
  - rewrite elem_of_app, IH. split.
    + intros [Hx | (l' & Hx & Hl')]; [exists l; split; [done | by left] |].
      exists l'. split; [done | by right].
    + intros (l' & Hx & [-> | Hl']%elem_of_cons); [by left | right; eauto].
Qed.

Lemma loop_order_blocks config vars solver base_time trains tracks unsorted :
  loop_order config vars solver base_time trains tracks unsorted →
  train_blocks trains unsorted.
Proof.
  intros (per_train & -> & Hall). exists per_train. split; [done |].
  eapply Forall2_impl; [exact Hall |]. simpl.
  intros train es (per_track & -> & Hpairs) e (chunk & He & Hchunk)%elem_of_concat.
  apply list_elem_of_lookup in Hchunk as [i Hi].
  destruct (Forall2_lookup_r _ _ _ _ _ Hpairs Hi) as (track & _ & Hpair).
  destruct Hpair as [[-> _] | (a & b & platform & _ & ->)].
  - by apply elem_of_nil in He.
  - by apply list_elem_of_singleton in He as ->.
Qed.

(** Claim C8 (extraction order), as the code has it. The list returned by
    [_extract_schedule] is ascending in [start_time]; entries with the same
    [start_time] stand in the order the loop produced them, which lists the
    trains in input order (not by train id). *)
Theorem extraction_sorted_by_start_stable :
  ∀ today_midnight config trains tracks conflicts,
  ∃ vars m,
    _create_model today_midnight config trains tracks conflicts Cp.empty_model = inr (vars, m) ∧
    ∀ solver base_time,
    ∃ unsorted schedule,
      collect_schedule config vars solver base_time trains tracks = inr unsorted ∧
      _extract_schedule config vars solver base_time trains tracks = inr schedule ∧
      sorted_by_start_stable unsorted schedule ∧
      train_blocks trains unsorted.
Proof.
  intros today_midnight config trains tracks conflicts.
  destruct (_extract_schedule_returns today_midnight config trains tracks conflicts)
    as (vars & m & Hrun & _ & Hex).
  exists vars, m. split; [exact Hrun |]. intros solver base_time.
  destruct (Hex solver base_time) as (unsorted & Hcollect & Hextract & Horder).
  exists unsorted, (sorted start_time unsorted).
  split; [done |]. split; [done |]. split.
  - split; [apply sorted_sorted | intros t0; apply sorted_stable].
  - by eapply loop_order_blocks.
Qed.

(** Claim C8, at an input: the schedule of B and A is ascending in
    [start_time]. *)
Lemma extraction_sorted_by_start_stable_witness :
  ∃ vars m schedule,
    _create_model 0 sp_config [ord_trainB; ord_trainA] [ord_track1; ord_track2] []
      Cp.empty_model = inr (vars, m) ∧
    _extract_schedule sp_config vars ord_both_at_0 0
      [ord_trainB; ord_trainA] [ord_track1; ord_track2] = inr schedule ∧
    StronglySorted (λ e1 e2, start_time e1 ≤ start_time e2) schedule.
Proof.
  destruct (extraction_sorted_by_start_stable 0 sp_config [ord_trainB; ord_trainA]
              [ord_track1; ord_track2] [])
    as (vars & m & Hrun & Hex).
  destruct (Hex ord_both_at_0 0) as (unsorted & schedule & _ & Hextract & [Hsorted _] & _).
  exists vars, m, schedule. split; [exact Hrun |]. split; [exact Hextract | exact Hsorted].
Defined.

(** The answer with B and A both from tick 0 is feasible. *)
Lemma ord_both_at_0_feasible :
  ∃ vars m,
    _create_model 0 sp_config [ord_trainB; ord_trainA] [ord_track1; ord_track2] []
      Cp.empty_model = inr (vars, m) ∧
    Cp.feasible m (Value ord_both_at_0) = true.
Proof. eexists _, _. split; by vm_compute. Qed.

(** Claim C8 as stated fails. B is listed before A; both start at tick 0
    and B's entry comes first. *)
Lemma sorted_by_start_then_train_fails :
  ¬ (∀ vars m schedule,
       _create_model 0 sp_config [ord_trainB; ord_trainA] [ord_track1; ord_track2] []
         Cp.empty_model = inr (vars, m) →
       _extract_schedule sp_config vars ord_both_at_0 0
         [ord_trainB; ord_trainA] [ord_track1; ord_track2] = inr schedule →
       sorted_by_start_then_train schedule).
Proof.
  intros Hclaim.
  destruct (_create_model 0 sp_config [ord_trainB; ord_trainA] [ord_track1; ord_track2] []
              Cp.empty_model) as [e | [vars m]] eqn:Hrun; [by vm_compute in Hrun |].
  destruct (_extract_schedule sp_config vars ord_both_at_0 0
              [ord_trainB; ord_trainA] [ord_track1; ord_track2]) as [e | schedule] eqn:Hex.
  { vm_compute in Hrun. injection Hrun as <- <-. by vm_compute in Hex. }
  specialize (Hclaim vars m schedule eq_refl Hex).
  vm_compute in Hrun. injection Hrun as <- <-.
  vm_compute in Hex. injection Hex as <-.
  destruct (Hclaim 0%nat 1%nat _ _ ltac:(lia) eq_refl eq_refl) as [Hlt | [_ Hle]].
  - simpl in Hlt. lia.
  - by vm_compute in Hle.
Qed.

(** * [optimize] *)



(** Claim C10 (back-end equivalence). Whether or not [gurobipy] could be imported,
    [GurobiOptimizer.optimize] is the inherited [optimize] run on the same
    object, and so returns or raises what a [RailwayOptimizer] with the same
    configuration does. *)
Theorem gurobi_optimize_delegates :
  ∀ Solve today_midnight clock_start clock_end base_time
    (g : GurobiOptimizer) (r : RailwayOptimizer)
    trains tracks conflicts time_horizon warm_start,
  config (base g) = config r →
  GurobiOptimizer_optimize Solve today_midnight clock_start clock_end base_time
      g trains tracks conflicts time_horizon warm_start
    = ((optimize Solve today_midnight clock_start clock_end base_time
                 (base g) trains tracks conflicts time_horizon warm_start).1,
       mkGurobi (optimize Solve today_midnight clock_start clock_end base_time
                          (base g) trains tracks conflicts time_horizon warm_start).2
                (gurobi_available g)) ∧
  (GurobiOptimizer_optimize Solve today_midnight clock_start clock_end base_time
      g trains tracks conflicts time_horizon warm_start).1
    = (optimize Solve today_midnight clock_start clock_end base_time
                r trains tracks conflicts time_horizon warm_start).1.
Proof.
  intros Solve today_midnight clock_start clock_end base_time g r
         trains tracks conflicts time_horizon warm_start Hconfig.
  assert (GurobiOptimizer_optimize Solve today_midnight clock_start clock_end base_time
            g trains tracks conflicts time_horizon warm_start
          = ((optimize Solve today_midnight clock_start clock_end base_time
                       (base g) trains tracks conflicts time_horizon warm_start).1,
             mkGurobi (optimize Solve today_midnight clock_start clock_end base_time
                                (base g) trains tracks conflicts time_horizon warm_start).2
                      (gurobi_available g))) as Hdelegate.
  { unfold GurobiOptimizer_optimize. by destruct (gurobi_available g). }
  split; [exact Hdelegate |]. rewrite Hdelegate. simpl.
  unfold optimize, _solve_model. simpl. rewrite Hconfig.
  destruct (_create_model _ _ _ _ _ _) as [e | [vars model]]; [done |].
  by destruct (status _).
Qed.

(** Claim C10, at an input: a Gurobi optimizer without [gurobipy] and an OR-Tools optimizer, both
    with the default configuration, on the two-train input. *)
Lemma gurobi_optimize_delegates_witness :
  (GurobiOptimizer_optimize (constant_backend (solved [] [])) 0 0 1 0
     (GurobiOptimizer_init None false) hw_trains hw_tracks [] 8 None).1
  = (optimize (constant_backend (solved [] [])) 0 0 1 0
       (RailwayOptimizer_init "ortools" None) hw_trains hw_tracks [] 8 None).1.
Proof.
  apply (gurobi_optimize_delegates (constant_backend (solved [] [])) 0 0 1 0
           (GurobiOptimizer_init None false) (RailwayOptimizer_init "ortools" None)).
  reflexivity.
Defined.

(** * Route continuity *)

(** Claim C1 (route continuity) at the one-train, two-segment input. The
    code does not enforce it: the built model has a feasible assignment in
    which T is on K1 at tick 0, off K1 at tick 1 and not on K2 at tick 1.
    The leaving flag is only constrained when it is 1, and nothing forces
    it to 1. *)
Theorem leaving_enters_next_not_enforced :
  ∃ vars m,
    _create_model 0 sp_config [rc_train] [rc_track1; rc_track2] [] Cp.empty_model
      = inr (vars, m) ∧
    Cp.feasible m rc_assignment = true ∧
    (x_get (var_x vars) "T" "K1" 0 = Some 0%nat ∧ rc_assignment 0%nat = 1) ∧
    (x_get (var_x vars) "T" "K1" 1 = Some 1%nat ∧ rc_assignment 1%nat = 0) ∧
    (x_get (var_x vars) "T" "K2" 1 = Some 3%nat ∧ rc_assignment 3%nat = 0) ∧
    ¬ leaving_enters_next sp_config [rc_train] [rc_track1; rc_track2] vars m.
Proof.
  eexists _, _. split; [by vm_compute |].
  split; [by vm_compute |]. split; [by vm_compute |].
  split; [by vm_compute |]. split; [by vm_compute |].
  intros Hclaim.
  assert (rc_assignment 3%nat = 1) as Hbad; [| by vm_compute in Hbad].
  apply (Hclaim rc_assignment eq_refl rc_train "K1"%string "K2"%string 0 0%nat 1%nat 3%nat).
  - by left.
  - vm_compute. by left.
  - lia.
  - simpl. lia.
  - by vm_compute.
  - by vm_compute.
  - by vm_compute.
  - by vm_compute.
  - by vm_compute.
Qed.

(** A train whose chain has one segment is skipped before the completion
    constraint is reached: the assignment in which it never moves is
    feasible. *)
Lemma last_segment_not_required_for_one_segment :
  ¬ (∀ vars m,
       _create_model 0 sp_config [sp_train] [sp_on_route] [] Cp.empty_model = inr (vars, m) →
       last_segment_occupied sp_config [sp_train] [sp_on_route] vars m).
Proof.
  intros Hclaim.
  destruct (_create_model 0 sp_config [sp_train] [sp_on_route] [] Cp.empty_model)
    as [e | [vars m]] eqn:Hrun; [by vm_compute in Hrun |].
  specialize (Hclaim vars m eq_refl).
  vm_compute in Hrun. injection Hrun as <- <-.
  destruct (Hclaim rc_idle_assignment eq_refl sp_train "K1"%string) as (t & v & Ht & Hv & Ha).
  - by left.
  - by vm_compute.
  - simpl in Ht.
    assert (t = 0 ∨ t = 1) as [-> | ->] by lia;
      vm_compute in Hv; injection Hv as <-; by vm_compute in Ha.
Qed.

(** With a chain of two segments or more the completion constraint is
    there: the train is on its last segment at some tick. *)
Lemma last_segment_occupied_two_segments :
  ∀ vars m,
    _create_model 0 sp_config [rc_train] [rc_track1; rc_track2] [] Cp.empty_model
      = inr (vars, m) →
    ∀ a, Cp.feasible m a = true → 1 ≤ a 2%nat + a 3%nat.
Proof.
  intros vars m Hrun a Hfeas. vm_compute in Hrun. injection Hrun as <- <-.
  assert (Cp.constraint_holds a
            (Cp.Lin (Cp.py_sum (Cp.EVar <$> [2; 3]%nat)) Cp.Ge (Cp.EConst 1) []) = true)
    as Hholds.
  { apply (feasible_constraint _ _ _ Hfeas). apply list_elem_of_In. vm_compute. tauto. }
  simpl in Hholds. lia.
Qed.

(** * Performance monitor *)

(** [metrics_history] never holds more than 100 references. *)
Lemma history_bounded calls :
  (length (Monitor.metrics_history (Monitor.run calls)) ≤ 100)%nat.
Proof.
  unfold Monitor.run.
  assert (∀ self, (length (Monitor.metrics_history self) ≤ 100)%nat →
                  (length (Monitor.metrics_history (fold_left Monitor.step calls self)) ≤ 100)%nat)
    as Hgen.
  { induction calls as [| c calls IH]; intros self Hself; [done |].
    simpl. apply IH. destruct c; simpl; [done |].
    unfold Monitor.end_optimization.
    destruct (Monitor.current_metrics self) as [r |]; [| done].
    destruct (Monitor.store self !! r); [| done]. simpl.
    destruct (100 <? _)%nat eqn:Hlen; [| by apply Nat.ltb_ge in Hlen].
    unfold Monitor.last_n. rewrite length_drop. lia. }
  apply Hgen. simpl. lia.
Qed.

Lemma last_n_short {A} n (l : list A) : (length l ≤ n)%nat → Monitor.last_n n l = l.
Proof. intros Hl. unfold Monitor.last_n. by replace (length l - n)%nat with 0%nat by lia. Qed.

(** Appending to the last [n] and keeping the last [n] again. *)
Lemma last_n_snoc {A} n (l : list A) x :
  (0 < n)%nat → Monitor.last_n n (Monitor.last_n n l ++ [x]) = Monitor.last_n n (l ++ [x]).
Proof.
  intros Hn. unfold Monitor.last_n.
  rewrite !length_app, length_drop. simpl.
  destruct (decide (length l ≤ n)%nat) as [Hle | Hgt].
  - replace (length l - n)%nat with 0%nat by lia. simpl. f_equal. lia.
  - rewrite !drop_app_le by (rewrite ?length_drop; lia).
    rewrite drop_drop. do 2 f_equal. lia.
Qed.

Lemma omap_ext_in {A B} (f g : A → option B) (l : list A) :
  (∀ a, a ∈ l → f a = g a) → omap f l = omap g l.
Proof.
  induction l as [| a l IH]; intros Hfg; csimpl; [done |].
  rewrite (Hfg a) by (by left). rewrite IH; [done |]. intros b Hb. apply Hfg. by right.
Qed.

Lemma omap_drop_total {A B} (f : A → option B) k (l : list A) :
  (∀ a, a ∈ l → is_Some (f a)) → omap f (drop k l) = drop k (omap f l).
Proof.
  revert k. induction l as [| a l IH]; intros k Hf; [by destruct k |].
  destruct (Hf a) as [b Hb]; [by left |].
  destruct k as [| k]; csimpl; [done |]. rewrite Hb. csimpl.
  apply IH. intros a' Ha'. apply Hf. by right.
Qed.

Lemma omap_length_total {A B} (f : A → option B) (l : list A) :
  (∀ a, a ∈ l → is_Some (f a)) → length (omap f l) = length l.
Proof.
  induction l as [| a l IH]; intros Hf; csimpl; [done |].
  destruct (Hf a) as [b ->]; [by left |]. csimpl.
  rewrite IH; [done |]. intros a' Ha'. apply Hf. by right.
Qed.

(** Trimming is keeping the last 100. *)
Lemma trim_last_n {A} (l : list A) :
  (if (100 <? length l)%nat then Monitor.last_n 100 l else l) = Monitor.last_n 100 l.
Proof.
  destruct (100 <? length l)%nat eqn:Hlen; [done |].
  apply Nat.ltb_ge in Hlen. by rewrite last_n_short.
Qed.

Lemma start_stands_for ph self cur log now nt nk nq :
  monitor_stands_for ph self cur log →
  monitor_stands_for Active (Monitor.start_optimization now nt nk nq self)
    (Some (Monitor.mkMetrics now None 0 0%Q nt nk nq 0 0 "" 0%Q 0%Q 0 0)) log.
Proof.
  intros (Hrec & Hrefs & _). unfold monitor_stands_for, Monitor.start_optimization. simpl.
  split; [| split].
  - rewrite <- Hrec. unfold Monitor.records. simpl. apply omap_ext_in.
    intros r Hr. apply lookup_app_l. by apply Hrefs.
  - intros r Hr. rewrite length_app. simpl. specialize (Hrefs r Hr). lia.
  - eexists. split; [done |]. split; [| split; [by eexists |]].
    + by rewrite lookup_app_r, Nat.sub_diag by lia.
    + intros Hin. specialize (Hrefs _ Hin). lia.
Qed.

Lemma end_stands_for self cur log now mem cpu obj res del st c :
  monitor_stands_for Active self cur log → cur = Some c →
  monitor_stands_for Ended (Monitor.end_optimization now mem cpu obj res del st self)
    (Some (report c now mem cpu obj res del st))
    (log ++ [report c now mem cpu obj res del st]).
Proof.
  intros (Hrec & Hrefs & r & Hcur & Hstore & _ & Hfresh) ->.
  unfold monitor_stands_for, Monitor.end_optimization. rewrite Hcur, Hstore.
  rewrite trim_last_n. simpl.
  assert (r < length (Monitor.store self))%nat as Hr by (by eapply lookup_lt_Some).
  split; [| split].
  - unfold Monitor.records. simpl.
    fold (report c now mem cpu obj res del st).
    set (rep := report c now mem cpu obj res del st).
    assert (omap (λ r', <[r := rep]> (Monitor.store self) !! r')
                 (Monitor.metrics_history self ++ [r])
            = Monitor.last_n 100 log ++ [rep]) as Hall.
    { rewrite omap_app. csimpl. rewrite list_lookup_insert_eq by done. csimpl.
      f_equal. rewrite <- Hrec. apply omap_ext_in.
      intros r' Hr'. apply list_lookup_insert_ne. by intros ->. }
    unfold Monitor.last_n at 1. rewrite omap_drop_total.
    2: { intros r' [Hr' | ->%list_elem_of_singleton]%elem_of_app.
         - apply lookup_lt_is_Some. rewrite length_insert. by apply Hrefs.
         - apply lookup_lt_is_Some. by rewrite length_insert. }
    rewrite Hall.
    replace (length (Monitor.metrics_history self ++ [r]))
      with (length (Monitor.last_n 100 log ++ [rep])).
    2: { rewrite !length_app, <- Hrec. simpl. f_equal. unfold Monitor.records.
         apply omap_length_total. intros r' Hr'. apply lookup_lt_is_Some. by apply Hrefs. }
    apply (last_n_snoc 100 log rep). lia.
  - intros r' Hr'. rewrite length_insert.
    apply (subseteq_drop _ _) in Hr'.
    apply elem_of_app in Hr' as [Hr' | ->%list_elem_of_singleton]; [by apply Hrefs | done].
  - exists r. split; [done |]. split; [| by eexists].
    by rewrite list_lookup_insert_eq.
Qed.

(** As long as no run is ended twice, the history shows the records of the
    completed runs, the last 100 of them, in completion order. *)
Lemma history_when_each_run_ends_once calls :
  each_run_ends_once Idle calls = true → history_shows_recent_runs calls.
Proof.
  intros Hcalls. split; [apply history_bounded |].
  unfold Monitor.run.
  assert (∀ ph self cur log,
            monitor_stands_for ph self cur log → each_run_ends_once ph calls = true →
            Monitor.records (fold_left Monitor.step calls self)
              = Monitor.last_n 100 (log ++ completed_runs cur calls)) as Hgen.
  { clear Hcalls. induction calls as [| c calls IH]; intros ph self cur log Hinv Hok.
    - simpl. rewrite app_nil_r. apply Hinv.
    - destruct c as [now nt nk nq | now mem cpu obj res del st]; simpl in *.
      + eapply IH; [by eapply start_stands_for | done].
      + destruct ph; [| | done].
        * destruct Hinv as (Hrec & Hrefs & Hcur & ->). simpl.
          unfold Monitor.end_optimization at 1. rewrite Hcur.
          by apply (IH Idle).
        * pose proof Hinv as (_ & _ & r & _ & _ & [c Hc] & _). subst cur.
          rewrite (cons_middle _ log), app_assoc.
          eapply (IH Ended); [by eapply end_stands_for | done]. }
  apply (Hgen Idle Monitor.init None []); [| done].
  split; [done |]. split; [by intros r ?%elem_of_nil | done].
Qed.

(** Claim C9 (monitor history) at the run that is ended twice. The second
    [end_optimization] finds [current_metrics] still set, writes its values
    into the same object and appends the same reference again: the history
    shows the second report twice and the first report is gone. *)
Theorem history_record_overwritten :
  Monitor.records (Monitor.run mon_calls) = [mon_second; mon_second] ∧
  completed_runs None mon_calls = [mon_first; mon_second] ∧
  ¬ history_shows_recent_runs mon_calls.
Proof.
  split; [reflexivity |]. split; [reflexivity |].
  intros [_ Heq]. vm_compute in Heq. discriminate.
Qed.

(** * Capacity and domains *)

(** A dict filled by a loop: what holds of each value when it is made
    still holds of every stored value at the end. *)
Lemma runs_fill_inv {A K V} `{Countable K} (key : A → K) (mk : A → M V)
    (Q : V → Cp.CpModel → Prop) (l : list A) (d0 : gmap K V) s d s' :
  (∀ a, mono (mk a)) →
  (∀ v s1 s2, ext s1 s2 → Q v s1 → Q v s2) →
  (∀ a s1 v s2, runs_to (mk a) s1 v s2 → Q v s2) →
  runs_to (foldM (λ d a, v ← mk a; mret (<[key a := v]> d)) d0 l) s d s' →
  (∀ k v, d0 !! k = Some v → Q v s) →
  ∀ k v, d !! k = Some v → Q v s'.
Proof.
  intros Hmono Hstable Hmk. revert d0 s.
  induction l as [| a l IH]; intros d0 s Hr H0; simpl in Hr.
  - apply runs_ret in Hr as [-> ->]. done.
  - apply runs_bind in Hr as (d1 & s1 & Hstep & Hr).
    apply (IH _ _ Hr). clear IH Hr.
    apply runs_bind in Hstep as (v & s2 & Hnew & [-> ->]%runs_ret).
    intros k w. destruct (decide (key a = k)) as [<- | Hne].
    + rewrite lookup_insert_eq. intros [= <-]. by eapply Hmk.
    + rewrite lookup_insert_ne by done. intros Hk.
      eapply Hstable; [by eapply Hmono | by eapply H0].
Qed.

Section Domains.

Variable today_midnight : Z.
Variable config : OptimizationConfig.
Variable trains : list TrainData.
Variable tracks : list TrackData.
Variable conflicts : list ConflictData.

Lemma new_x_domains s x s' tid sid t v :
  runs_to (new_x config trains tracks) s x s' →
  x_get x tid sid t = Some v → (v, (0, 1)) ∈ Cp.domains s'.
Proof.
  intros Hr (xt & row & Hxt & Hrow & Hv)%x_get_Some. unfold new_x in Hr.
  pose (Qrow := λ (row : gmap Z Cp.var) (s : Cp.CpModel),
          ∀ t v, row !! t = Some v → (v, (0, 1)) ∈ Cp.domains s).
  pose (Qxt := λ (xt : gmap string (gmap Z Cp.var)) (s : Cp.CpModel),
          ∀ sid row, xt !! sid = Some row → Qrow row s).
  assert (∀ row s1 s2, ext s1 s2 → Qrow row s1 → Qrow row s2) as Hrow_stable.
  { intros r s1 s2 E Hq t' v' Hv'. eapply ext_domain; [exact E | by eapply Hq]. }
  assert (∀ xt s1 s2, ext s1 s2 → Qxt xt s1 → Qxt xt s2) as Hxt_stable.
  { intros r s1 s2 E Hq sid' row' Hrow'. eapply Hrow_stable; [exact E | by eapply Hq]. }
  assert (Qxt xt s') as HQ; [| by eapply HQ].
  eapply (runs_fill_inv train_id _ Qxt); [| exact Hxt_stable | | exact Hr | | exact Hxt].
  - intros train. builder_mono.
  - intros train s1 xt1 s2 Hr1 sid' row' Hrow'. cbv beta in Hr1.
    eapply (runs_fill_inv segment_id _ Qrow); [| exact Hrow_stable | | exact Hr1 | | exact Hrow'].
    + intros track. builder_mono.
    + intros track s3 row1 s4 Hr2 t' v' Hv'. cbv beta in Hr2.
      eapply (runs_fill_inv (λ t : Z, t) (λ _, NewBoolVar)
                (λ (v : Cp.var) s, (v, (0, 1)) ∈ Cp.domains s));
        [| | | exact Hr2 | | exact Hv'].
      * intros _. apply mono_NewIntVar.
      * intros w s5 s6 E Hw. by eapply ext_domain.
      * intros _ s5 w s6 Hw. by eapply runs_NewIntVar.
      * intros k w. by rewrite lookup_empty.
    + intros k w. by rewrite lookup_empty.
  - intros k w. by rewrite lookup_empty.
Qed.

Lemma new_s_domains s d s' tid v :
  runs_to (new_s config trains) s d s' → d !! tid = Some v →
  (v, (0, Z.min 120 (time_horizon_minutes config / 2))) ∈ Cp.domains s'.
Proof.
  unfold new_s. intros Hr Hv.
  eapply (runs_fill_domain train_id 0 (Z.min 120 (time_horizon_minutes config / 2)));
    [exact Hr | | exact Hv].
  intros k w. by rewrite lookup_empty.
Qed.

Lemma new_j_domains s d s' tid v :
  runs_to (new_j config trains) s d s' → d !! tid = Some v →
  (v, (0, time_horizon_minutes config)) ∈ Cp.domains s'.
Proof.
  unfold new_j. intros Hr Hv.
  eapply (runs_fill_domain train_id 0 (time_horizon_minutes config));
    [exact Hr | | exact Hv].
  intros k w. by rewrite lookup_empty.
Qed.

Lemma new_p_domains s p s' tid station v :
  runs_to (new_p trains) s p s' → p_get p tid station = Some v →
  (v, (1, 10)) ∈ Cp.domains s'.
Proof.
  unfold new_p, p_get. intros Hr Hv.
  destruct (p !! tid) as [pt |] eqn:Hpt; simpl in Hv; [| done].
  pose (Qpt := λ (pt : gmap string Cp.var) (s : Cp.CpModel),
          ∀ st v, pt !! st = Some v → (v, (1, 10)) ∈ Cp.domains s).
  assert (Qpt pt s') as HQ; [| by eapply HQ].
  eapply (runs_fill_inv train_id _ Qpt); [| | | exact Hr | | exact Hpt].
  - intros train. builder_mono.
  - intros r s1 s2 E Hq st w Hw. eapply ext_domain; [exact E | by eapply Hq].
  - intros train s1 pt1 s2 Hr1 st w Hw. cbv beta in Hr1.
    eapply (runs_fill_domain (λ st : string, st) 1 10); [exact Hr1 | | exact Hw].
    intros k u. by rewrite lookup_empty.
  - intros k w. by rewrite lookup_empty.
Qed.

End Domains.

Lemma zero_or_one z : 0 ≤ z ≤ 1 → z = 0 ∨ z = 1.
Proof. lia. Qed.

Lemma run_within_domains today_midnight config trains tracks conflicts vars m a :
  _create_model today_midnight config trains tracks conflicts Cp.empty_model = inr (vars, m) →
  Cp.feasible m a = true → within_domains config vars a.
Proof.
  intros Hrun Hfeas.
  apply _create_model_trace in Hrun
    as (s1 & s2 & s3 & s4 & s5 & s6 & s7 & s8 & s9 & s10 & s11 &
        Hnx & Hns & Hnc & Hnp & Hnj & Hcap & Hrc & Hhw & Hpl & Hcf & Htm & Hob).
  assert (ext s5 m) as E5.
  { eapply ext_trans; [eapply mono_capacity, Hcap |].
    eapply ext_trans; [eapply mono_route_continuity, Hrc |].
    eapply ext_trans; [eapply mono_headway, Hhw |].
    eapply ext_trans; [eapply mono_platform, Hpl |].
    eapply ext_trans; [eapply mono_conflict, Hcf |].
    eapply ext_trans; [eapply mono_timing, Htm | eapply mono_set_objective, Hob]. }
  assert (ext s4 m) as E4 by (eapply ext_trans; [eapply mono_new_j, Hnj | exact E5]).
  assert (ext s3 m) as E3 by (eapply ext_trans; [eapply mono_new_p, Hnp | exact E4]).
  assert (ext s2 m) as E2 by (eapply ext_trans; [eapply mono_new_c, Hnc | exact E3]).
  assert (ext s1 m) as E1 by (eapply ext_trans; [eapply mono_new_s, Hns | exact E2]).
  split; [| split; [| split; [| split]]].
  - intros tid sid t v Hv. apply zero_or_one, (feasible_domain m a v 0 1 Hfeas).
    eapply ext_domain; [exact E1 | by eapply new_x_domains].
  - intros tid v Hv. apply (feasible_domain m a v _ _ Hfeas).
    eapply ext_domain; [exact E2 | by eapply new_s_domains].
  - intros q v Hv. apply zero_or_one, (feasible_domain m a v 0 1 Hfeas).
    eapply ext_domain; [exact E3 | by eapply new_c_domains].
  - intros tid station v Hv. apply (feasible_domain m a v 1 10 Hfeas).
    eapply ext_domain; [exact E4 | by eapply new_p_domains].
  - intros tid v Hv. apply (feasible_domain m a v _ _ Hfeas).
    eapply ext_domain; [exact E5 | by eapply new_j_domains].
Qed.

(** The domains the variables are created with bind every feasible
    assignment: occupancy and conflict variables are 0 or 1, a start delay
    is between 0 and [min(120, H // 2)], a platform between 1 and 10, a
    journey time between 0 and [H]. *)
Theorem feasible_within_domains :
  ∀ today_midnight config trains tracks conflicts,
  ∃ vars m,
    _create_model today_midnight config trains tracks conflicts Cp.empty_model = inr (vars, m) ∧
    ∀ a, Cp.feasible m a = true → within_domains config vars a.
Proof.
  intros today_midnight config trains tracks conflicts.
  destruct (_create_model_returns today_midnight config trains tracks conflicts Cp.empty_model)
    as (vars & m & Hrun & _).
  exists vars, m. split; [exact Hrun |]. intros a Hfeas.
  by eapply run_within_domains.
Qed.

(** In the two-train model the delay of A under a feasible assignment is
    at most [min(120, 8 // 2)]. *)
Lemma feasible_within_domains_witness : 0 ≤ hw_assignment 16%nat ≤ 4.
Proof.
  destruct (feasible_within_domains 0 hw_config hw_trains hw_tracks [])
    as (vars & m & Hrun & Hall).
  vm_compute in Hrun. injection Hrun as <- <-.
  destruct (Hall hw_assignment eq_refl) as (_ & Hs & _).
  apply (Hs "A"%string 16%nat). by vm_compute.
Defined.

Section Capacity.

Variable config : OptimizationConfig.
Variable trains : list TrainData.
Variable tracks : list TrackData.

Lemma contains_false {K V} `{Countable K} (d : gmap K V) k :
  contains d k = false → d !! k = None.
Proof. unfold contains. by destruct (d !! k). Qed.

(** The variables gathered for one track and tick. *)
Lemma runs_capacity_occupancy x sid t (l : list TrainData) acc s r s' :
  runs_to (foldM (λ acc train,
             xt ← getitem x (train_id train);
             if contains xt sid
             then v ← x_at x (train_id train) sid t; mret (acc ++ [v])
             else mret acc) acc l) s r s' →
  r = acc ++ omap (λ train, x_get x (train_id train) sid t) l ∧ s' = s.
Proof.
  revert acc s. induction l as [| train l IH]; intros acc s Hr; simpl in Hr.
  - apply runs_ret in Hr as [-> ->]. by rewrite app_nil_r.
  - apply runs_bind in Hr as (acc1 & s1 & Hstep & Hr).
    apply IH in Hr as [-> ->]. csimpl.
    apply runs_bind in Hstep as (xt & ? & [Hxt ->]%runs_getitem & Hstep).
    destruct (contains xt sid) eqn:Hc.
    + apply runs_bind in Hstep as (v & s2 & [Hv ->]%runs_x_at & [-> ->]%runs_ret).
      rewrite Hv. by rewrite <- app_assoc.
    + apply runs_ret in Hstep as [-> ->].
      apply contains_false in Hc. unfold x_get. rewrite Hxt. simpl. rewrite Hc. done.
Qed.

Lemma capacity_adds x s u s' track t :
  runs_to (_add_capacity_constraints config trains tracks x) s u s' →
  track ∈ tracks → 0 ≤ t < time_horizon_minutes config →
  omap (λ train, x_get x (train_id train) (segment_id track) t) trains ≠ [] →
  Cp.Lin (Cp.py_sum (Cp.EVar <$>
            omap (λ train, x_get x (train_id train) (segment_id track) t) trains))
         Cp.Le (Cp.EConst (capacity track)) [] ∈ Cp.constraints s'.
Proof.
  intros Hr Htrack Ht Hne. unfold _add_capacity_constraints in Hr.
  eapply (runs_forM__elem _ _ track) in Hr as (sa & sa' & _ & Hr & Ea);
    [| intros; builder_mono | done].
  eapply (runs_forM__elem _ _ t) in Hr as (sb & sb' & _ & Hr & Eb);
    [| intros; builder_mono | by apply elem_of_range].
  apply runs_bind in Hr as (occ & ? & [-> ->]%runs_capacity_occupancy & Hr).
  simpl in Hr.
  destruct (omap _ trains) as [| v occ] eqn:Hocc; [done |].
  eapply ext_constraint; [exact Ea |]. eapply ext_constraint; [exact Eb |].
  by eapply runs_add_constraint.
Qed.

(** With a full arena the gathered variables are those of all the listed
    trains. *)
Lemma omap_x_get_values a vars track t :
  wf_x (time_horizon_minutes config) trains tracks (var_x vars) →
  track ∈ tracks → 0 ≤ t < time_horizon_minutes config →
  sum_Z (a <$> omap (λ train, x_get (var_x vars) (train_id train) (segment_id track) t) trains)
  = track_occupancy a vars trains track t ∧
  length (omap (λ train, x_get (var_x vars) (train_id train) (segment_id track) t) trains)
  = length trains.
Proof.
  intros Hwf Htrack Ht. unfold track_occupancy.
  assert (∀ l : list TrainData, (∀ train, train ∈ l → train ∈ trains) →
            sum_Z (a <$> omap (λ train, x_get (var_x vars) (train_id train)
                                              (segment_id track) t) l)
            = sum_Z ((λ train, x_of a vars (train_id train) (segment_id track) t) <$> l) ∧
            length (omap (λ train, x_get (var_x vars) (train_id train)
                                         (segment_id track) t) l) = length l) as Hgen.
  { induction l as [| train l IH]; intros Hl; [done |].
    destruct (wf_x_get _ _ _ _ train track t Hwf) as [v Hv]; [apply Hl; by left | done | done |].
    destruct IH as [IH1 IH2]; [intros ? ?; apply Hl; by right |].
    csimpl. rewrite Hv. csimpl. unfold x_of at 1. rewrite Hv.
    change (a v :: (a <$> omap (λ train0, x_get (var_x vars) (train_id train0)
                                               (segment_id track) t) l))
      with ([a v] ++ (a <$> omap (λ train0, x_get (var_x vars) (train_id train0)
                                                 (segment_id track) t) l)).
    change (a v :: ((λ train0, x_of a vars (train_id train0) (segment_id track) t) <$> l))
      with ([a v] ++ ((λ train0, x_of a vars (train_id train0) (segment_id track) t) <$> l)).
    rewrite !sum_Z_app, IH1, IH2. done. }
  by apply Hgen.
Qed.

End Capacity.

Lemma run_wf_vars today_midnight config trains tracks conflicts vars m :
  _create_model today_midnight config trains tracks conflicts Cp.empty_model = inr (vars, m) →
  wf_vars config trains tracks conflicts vars.
Proof.
  intros Hrun.
  destruct (_create_model_returns today_midnight config trains tracks conflicts Cp.empty_model)
    as (vars' & m' & Hrun' & Hwf).
  unfold runs_to in Hrun'. rewrite Hrun in Hrun'. by injection Hrun' as <- <-.
Qed.

Lemma run_capacity today_midnight config trains tracks conflicts vars m a track t :
  _create_model today_midnight config trains tracks conflicts Cp.empty_model = inr (vars, m) →
  Cp.feasible m a = true →
  trains ≠ [] → track ∈ tracks → 0 ≤ t < time_horizon_minutes config →
  track_occupancy a vars trains track t ≤ capacity track.
Proof.
  intros Hrun Hfeas Hne Htrack Ht.
  pose proof (run_wf_vars _ _ _ _ _ _ _ Hrun) as [Hwf _].
  apply _create_model_trace in Hrun
    as (s1 & s2 & s3 & s4 & s5 & s6 & s7 & s8 & s9 & s10 & s11 &
        _ & _ & _ & _ & _ & Hcap & Hrc & Hhw & Hpl & Hcf & Htm & Hob).
  destruct (omap_x_get_values config trains tracks a vars track t Hwf Htrack Ht)
    as [Hsum Hlen].
  assert (Cp.Lin (Cp.py_sum (Cp.EVar <$>
            omap (λ train, x_get (var_x vars) (train_id train) (segment_id track) t) trains))
            Cp.Le (Cp.EConst (capacity track)) [] ∈ Cp.constraints m) as Hin.
  { eapply ext_constraint; [eapply mono_set_objective, Hob |].
    eapply ext_constraint; [eapply mono_timing, Htm |].
    eapply ext_constraint; [eapply mono_conflict, Hcf |].
    eapply ext_constraint; [eapply mono_platform, Hpl |].
    eapply ext_constraint; [eapply mono_headway, Hhw |].
    eapply ext_constraint; [eapply mono_route_continuity, Hrc |].
    eapply capacity_adds; [exact Hcap | done | done |].
    intros Hnil. rewrite Hnil in Hlen. destruct trains; [done | simpl in Hlen; lia]. }
  apply (feasible_constraint _ _ _ Hfeas) in Hin. simpl in Hin.
  rewrite eval_py_sum, Hsum in Hin. lia.
Qed.

(** Capacity. In every feasible assignment of the built model, on every
    input track and at every tick of the horizon, the number of listed
    trains on the track is at most the capacity of the track (when there is
    a train at all). *)
Theorem capacity_respected :
  ∀ today_midnight config trains tracks conflicts,
  ∃ vars m,
    _create_model today_midnight config trains tracks conflicts Cp.empty_model = inr (vars, m) ∧
    ∀ a, Cp.feasible m a = true →
    ∀ track t,
      trains ≠ [] → track ∈ tracks → 0 ≤ t < time_horizon_minutes config →
      track_occupancy a vars trains track t ≤ capacity track.
Proof.
  intros today_midnight config trains tracks conflicts.
  destruct (_create_model_returns today_midnight config trains tracks conflicts Cp.empty_model)
    as (vars & m & Hrun & _).
  exists vars, m. split; [exact Hrun |].
  intros a Hfeas track t Hne Htrack Ht. by eapply run_capacity.
Qed.

(** In the two-train model A and B are never both on K1. *)
Lemma capacity_respected_witness :
  hw_assignment 1%nat + hw_assignment 9%nat ≤ 1.
Proof.
  destruct (capacity_respected 0 hw_config hw_trains hw_tracks [])
    as (vars & m & Hrun & Hall).
  vm_compute in Hrun. injection Hrun as <- <-.
  specialize (Hall hw_assignment eq_refl hw_track 1).
  unfold track_occupancy, x_of, hw_trains in Hall.
  assert (sum_Z [hw_assignment 1%nat; hw_assignment 9%nat] ≤ capacity hw_track) as Hle.
  { apply Hall; [done | by left | simpl; lia]. }
  unfold sum_Z in Hle. simpl in Hle. simpl. lia.
Defined.

(** * Route derivation *)


Lemma connects_sym a b track : connects a b track = connects b a track.
Proof. unfold connects. apply orb_comm. Qed.

Lemma route_segments_sound train tracks seg :
  seg ∈ _get_route_segments train tracks →
  ∃ track a b, track ∈ tracks ∧ segment_id track = seg ∧
               (a, b) ∈ consecutive (route train) ∧ connects a b track = true.
Proof.
  unfold _get_route_segments.
  intros ([a b] & Hab & Hseg)%list_elem_of_omap. simpl in Hseg.
  destruct (List.find (connects a b) tracks) as [track |] eqn:Hfind; [| done].
  injection Hseg as <-. apply find_some in Hfind as [Hin Hc].
  exists track, a, b. split; [by apply list_elem_of_In |]. done.
Qed.



Lemma consecutive_snoc {A} (l : list A) a x :
  consecutive ((l ++ [a]) ++ [x]) = consecutive (l ++ [a]) ++ [(a, x)].
Proof.
  induction l as [| b l IH]; [done |].
  destruct l as [| c l]; [done |].
  simpl in *. by rewrite IH.
Qed.

Lemma consecutive_reverse {A} (l : list A) :
  consecutive (reverse l) = reverse ((λ ab, (ab.2, ab.1)) <$> consecutive l).
Proof.
  induction l as [| a l IH]; [done |].
  destruct l as [| b l]; [done |].
  rewrite (reverse_cons (b :: l) a), (reverse_cons l b), consecutive_snoc.
  rewrite <- (reverse_cons l b), IH.
  change (consecutive (a :: b :: l)) with ((a, b) :: consecutive (b :: l)).
  rewrite fmap_cons, reverse_cons. done.
Qed.

Lemma omap_reverse_list {A B} (f : A → option B) (l : list A) :
  omap f (reverse l) = reverse (omap f l).
Proof.
  induction l as [| a l IH]; [done |].
  rewrite reverse_cons, omap_app, IH. csimpl.
  destruct (f a); csimpl; [by rewrite reverse_cons | by rewrite app_nil_r].
Qed.

(** The chain does not depend on the direction of travel: a train that
    runs the route backwards gets the same segments in reverse order. *)
Theorem route_segments_reverse :
  ∀ train train' tracks,
    route train' = reverse (route train) →
    _get_route_segments train' tracks = reverse (_get_route_segments train tracks).
Proof.
  intros train train' tracks Hroute. unfold _get_route_segments.
  rewrite Hroute, consecutive_reverse, omap_reverse_list. f_equal.
  generalize (consecutive (route train)) as pairs.
  induction pairs as [| [a b] pairs IH]; [done |]. csimpl. rewrite IH.
  replace (List.find (connects b a) tracks) with (List.find (connects a b) tracks); [done |].
  clear. induction tracks as [| track tracks IH]; [done |].
  simpl. rewrite (connects_sym a b track), IH. done.
Qed.

(** The train of the continuity example and its return journey. *)
Lemma route_segments_reverse_witness :
  _get_route_segments (mkTrain "R" "S3" None None 1 0 "S1" ["S3"; "S2"; "S1"])
                      [rc_track1; rc_track2]
  = reverse (_get_route_segments rc_train [rc_track1; rc_track2]).
Proof. by apply route_segments_reverse. Defined.

(** * Completion, timing and headway passes *)

Lemma runs_collect_x x tid sid (l : list Z) s r s' :
  runs_to (collectM (x_at x tid sid) l) s r s' →
  Forall2 (λ t v, x_get x tid sid t = Some v) l r ∧ s' = s.
Proof.
  revert r s. induction l as [| t l IH]; intros r s Hr; simpl in Hr.
  - apply runs_ret in Hr as [-> ->]. split; [constructor | done].
  - apply runs_bind in Hr as (v & ? & [Hv ->]%runs_x_at & Hr).
    apply runs_bind in Hr as (vs & s1 & Hvs & [-> ->]%runs_ret).
    apply IH in Hvs as [Hall ->]. split; [by constructor | done].
Qed.

(** A loop whose body changes nothing changes nothing. *)
Lemma forM__skip {A} (l : list A) (f : A → M unit) s :
  (∀ a s, a ∈ l → f a s = inr (tt, s)) → forM_ l f s = inr (tt, s).
Proof.
  induction l as [| a l IH]; intros Hf; [done |].
  simpl. unfold mbind, M_bind. rewrite (Hf a s) by (by left).
  apply IH. intros b s1 Hb. apply Hf. by right.
Qed.

Lemma sum_Z_positive (l : list Z) : 1 ≤ sum_Z l → ∃ z, z ∈ l ∧ 1 ≤ z.
Proof.
  induction l as [| z l IH]; [unfold sum_Z; simpl; lia |].
  change (z :: l) with ([z] ++ l). rewrite sum_Z_app. unfold sum_Z at 1. simpl.
  intros Hsum. destruct (decide (1 ≤ z)) as [Hz | Hz].
  - exists z. split; [by left | done].
  - destruct IH as (z' & Hin & Hz'); [lia |]. exists z'. split; [by right | done].
Qed.

Section Passes.

Variable today_midnight : Z.
Variable config : OptimizationConfig.
Variable trains : list TrainData.
Variable tracks : list TrackData.

Lemma completion_adds x s u s' train xt k :
  runs_to (_add_route_continuity_constraints config trains tracks x) s u s' →
  train ∈ trains → (2 ≤ length (_get_route_segments train tracks))%nat →
  last (_get_route_segments train tracks) = Some k →
  x !! train_id train = Some xt → is_Some (xt !! k) →
  ∃ vs, Forall2 (λ t v, x_get x (train_id train) k t = Some v) (time_slots config) vs ∧
        Cp.Lin (Cp.py_sum (Cp.EVar <$> vs)) Cp.Ge (Cp.EConst 1) [] ∈ Cp.constraints s'.
Proof.
  intros Hr Htrain Hlen Hlast Hxt [row Hrow].
  unfold _add_route_continuity_constraints in Hr.
  eapply (runs_forM__elem _ _ train) in Hr as (sa & sa' & _ & Hr & Ea);
    [| intros; builder_mono | done].
  simpl in Hr.
  destruct (len (_get_route_segments train tracks) <? 2) eqn:Hlt;
    [apply Z.ltb_lt in Hlt; unfold len in Hlt; lia |].
  apply runs_bind in Hr as ([] & s1 & _ & Hr). rewrite Hlast in Hr.
  apply runs_bind in Hr as (xt' & ? & [Hxt' ->]%runs_getitem & Hr).
  rewrite Hxt in Hxt'. injection Hxt' as <-.
  unfold contains in Hr. rewrite Hrow in Hr.
  apply runs_bind in Hr as (vs & ? & [Hvs ->]%runs_collect_x & Hr).
  exists vs. split; [done |].
  eapply ext_constraint; [exact Ea |]. by eapply runs_add_constraint.
Qed.

Lemma timing_adds x s j st u st' train arrival first t v :
  runs_to (_add_timing_constraints today_midnight config trains x s j) st u st' →
  train ∈ trains → scheduled_arrival train = Some arrival →
  head (_get_route_segments_from_train train) = Some first →
  0 ≤ t < time_horizon_minutes config → t < (arrival - today_midnight) ÷ 60 →
  x_get x (train_id train) first t = Some v →
  Cp.Lin (Cp.EVar v) Cp.Eq (Cp.EConst 0) [] ∈ Cp.constraints st'.
Proof.
  intros Hr Htrain Harr Hfirst Ht Hbefore Hv.
  unfold _add_timing_constraints in Hr.
  eapply (runs_forM__elem _ _ train) in Hr as (sa & sa' & _ & Hr & Ea);
    [| intros; builder_mono | done].
  apply runs_bind in Hr as ([] & s1 & _ & Hr).
  unfold _get_scheduled_start_minutes in Hr. rewrite Harr, Hfirst in Hr.
  pose proof Hv as (xt & row & Hxt & Hrow & _)%x_get_Some.
  apply runs_bind in Hr as (xt' & ? & [Hxt' ->]%runs_getitem & Hr).
  rewrite Hxt in Hxt'. injection Hxt' as <-.
  unfold contains in Hr. rewrite Hrow in Hr.
  eapply (runs_forM__elem _ _ t) in Hr as (sb & sb' & _ & Hr & Eb);
    [| intros; builder_mono | by apply elem_of_range].
  simpl in Hr.
  destruct (t <? (arrival - today_midnight) ÷ 60) eqn:Hlt; [| apply Z.ltb_ge in Hlt; lia].
  apply runs_bind in Hr as (w & ? & [Hw ->]%runs_x_at & Hr).
  rewrite Hv in Hw. injection Hw as <-.
  eapply ext_constraint; [exact Ea |]. eapply ext_constraint; [exact Eb |].
  by eapply runs_add_constraint.
Qed.

End Passes.

(** Completion. A train whose derived chain has at least two segments is
    on the last segment of the chain at some tick of the horizon, in every
    feasible assignment of the built model. *)
Theorem train_reaches_last_segment :
  ∀ today_midnight config trains tracks conflicts,
  ∃ vars m,
    _create_model today_midnight config trains tracks conflicts Cp.empty_model = inr (vars, m) ∧
    ∀ a, Cp.feasible m a = true →
    ∀ train k,
      train ∈ trains → (2 ≤ length (_get_route_segments train tracks))%nat →
      last (_get_route_segments train tracks) = Some k →
      ∃ t, 0 ≤ t < time_horizon_minutes config ∧ x_of a vars (train_id train) k t = 1.
Proof.
  intros today_midnight config trains tracks conflicts.
  destruct (_create_model_returns today_midnight config trains tracks conflicts Cp.empty_model)
    as (vars & m & Hrun & Hwf & _).
  exists vars, m. split; [exact Hrun |].
  intros a Hfeas train k Htrain Hlen Hlast.
  apply _create_model_trace in Hrun
    as (s1 & s2 & s3 & s4 & s5 & s6 & s7 & s8 & s9 & s10 & s11 &
        Hnx & Hns & Hnc & Hnp & Hnj & Hcap & Hrc & Hhw & Hpl & Hcf & Htm & Hob).
  assert (ext s7 m) as E7.
  { eapply ext_trans; [eapply mono_headway, Hhw |].
    eapply ext_trans; [eapply mono_platform, Hpl |].
    eapply ext_trans; [eapply mono_conflict, Hcf |].
    eapply ext_trans; [eapply mono_timing, Htm | eapply mono_set_objective, Hob]. }
  assert (ext s1 m) as E1.
  { eapply ext_trans; [eapply mono_new_s, Hns |].
    eapply ext_trans; [eapply mono_new_c, Hnc |].
    eapply ext_trans; [eapply mono_new_p, Hnp |].
    eapply ext_trans; [eapply mono_new_j, Hnj |].
    eapply ext_trans; [eapply mono_capacity, Hcap |].
    eapply ext_trans; [eapply mono_route_continuity, Hrc | exact E7]. }
  destruct (keys_are_has _ _ _ _ (proj1 Hwf) Htrain) as [xt Hxt].
  destruct (proj2 Hwf _ _ Hxt) as [Hkt _].
  assert (is_Some (xt !! k)) as Hk.
  { apply Hkt. apply last_Some_elem_of in Hlast.
    apply route_segments_sound in Hlast as (track & _ & _ & Hin & Hid & _).
    by exists track. }
  destruct (completion_adds config trains tracks _ _ _ _ train xt k Hrc Htrain Hlen Hlast Hxt Hk)
    as (vs & Hvs & Hin).
  apply (ext_constraint _ _ _ E7), (feasible_constraint _ _ _ Hfeas) in Hin.
  simpl in Hin. rewrite eval_py_sum in Hin.
  destruct (sum_Z_positive (a <$> vs)) as (z & Hz & Hpos); [lia |].
  apply list_elem_of_fmap in Hz as (v & -> & Hv).
  apply list_elem_of_lookup in Hv as [i Hi].
  destruct (Forall2_lookup_r _ _ _ _ _ Hvs Hi) as (t & Ht & Hget).
  apply list_elem_of_lookup_2, elem_of_range in Ht.
  exists t. split; [done |]. unfold x_of. rewrite Hget.
  assert (0 ≤ a v ≤ 1); [| lia].
  apply (feasible_domain m a v 0 1 Hfeas).
  eapply ext_domain; [exact E1 | by eapply new_x_domains].
Qed.

(** In the one-train, two-segment model T is on K2 at some tick. *)
Lemma train_reaches_last_segment_witness :
  ∃ vars m t,
    _create_model 0 sp_config [rc_train] [rc_track1; rc_track2] [] Cp.empty_model
      = inr (vars, m) ∧
    0 ≤ t < 2 ∧ x_of rc_assignment vars "T" "K2" t = 1.
Proof.
  destruct (train_reaches_last_segment 0 sp_config [rc_train] [rc_track1; rc_track2] [])
    as (vars & m & Hrun & Hall).
  assert (Cp.feasible m rc_assignment = true) as Hfeas.
  { pose proof Hrun as Hrun'. vm_compute in Hrun'. injection Hrun' as <- <-. reflexivity. }
  destruct (Hall rc_assignment Hfeas rc_train "K2"%string) as (t & Ht & Hx).
  - by left.
  - vm_compute. lia.
  - reflexivity.
  - exists vars, m, t. split; [exact Hrun |]. split; [exact Ht | exact Hx].
Defined.

(** Scheduled start. Where the first pair of stations of a train's route
    names an input track ([f"{a}-{b}"] is its segment id) and the train has a
    scheduled arrival, the train is not on that track at any tick before its
    scheduled minute, in every feasible assignment. *)
Theorem no_occupation_before_scheduled_start :
  ∀ today_midnight config trains tracks conflicts,
  ∃ vars m,
    _create_model today_midnight config trains tracks conflicts Cp.empty_model = inr (vars, m) ∧
    ∀ a, Cp.feasible m a = true →
    ∀ train arrival first track t,
      train ∈ trains → scheduled_arrival train = Some arrival →
      head (_get_route_segments_from_train train) = Some first →
      track ∈ tracks → segment_id track = first →
      0 ≤ t < time_horizon_minutes config → t < (arrival - today_midnight) ÷ 60 →
      x_of a vars (train_id train) first t = 0.
Proof.
  intros today_midnight config trains tracks conflicts.
  destruct (_create_model_returns today_midnight config trains tracks conflicts Cp.empty_model)
    as (vars & m & Hrun & Hwf & _).
  exists vars, m. split; [exact Hrun |].
  intros a Hfeas train arrival first track t Htrain Harr Hfirst Htrack <- Ht Hbefore.
  apply _create_model_trace in Hrun
    as (s1 & s2 & s3 & s4 & s5 & s6 & s7 & s8 & s9 & s10 & s11 &
        _ & _ & _ & _ & _ & _ & _ & _ & _ & _ & Htm & Hob).
  destruct (wf_x_get _ _ _ _ train track t Hwf Htrain Htrack Ht) as [v Hv].
  unfold x_of. rewrite Hv.
  assert (Cp.Lin (Cp.EVar v) Cp.Eq (Cp.EConst 0) [] ∈ Cp.constraints m) as Hin.
  { eapply ext_constraint; [eapply mono_set_objective, Hob |].
    by eapply (timing_adds today_midnight config trains _ _ _ _ _ _ train arrival). }
  apply (feasible_constraint _ _ _ Hfeas) in Hin. simpl in Hin. lia.
Qed.

(** T is scheduled at minute 2 and is not on the track at tick 0. *)
Lemma no_occupation_before_scheduled_start_witness :
  ∃ vars m,
    _create_model 0 ex_config [tm_train] [tm_track] [] Cp.empty_model = inr (vars, m) ∧
    x_of tm_assignment vars "T" "S1-S2" 0 = 0.
Proof.
  destruct (no_occupation_before_scheduled_start 0 ex_config [tm_train] [tm_track] [])
    as (vars & m & Hrun & Hall).
  exists vars, m. split; [exact Hrun |].
  apply (Hall tm_assignment) with (train := tm_train) (arrival := 120) (track := tm_track).
  - pose proof Hrun as Hrun'. vm_compute in Hrun'. injection Hrun' as <- <-. reflexivity.
  - by left.
  - reflexivity.
  - reflexivity.
  - by left.
  - reflexivity.
  - simpl. lia.
  - by vm_compute.
Defined.



(** A horizon of at most [hB + 3] ticks leaves no room for a headway
    window: the headway pass adds nothing to the model. *)
Theorem headway_pass_needs_long_horizon :
  ∀ config trains tracks st0,
    time_horizon_minutes config ≤ headway_buffer_minutes config + 3 →
    ∃ x st1,
      new_x config trains tracks st0 = inr (x, st1) ∧
      ∀ st, _add_headway_constraints config trains tracks x st = inr (tt, st).
Proof.
  intros config trains tracks st0 Hshort.
  destruct (new_x_returns config trains tracks st0) as (x & st1 & Hx & Hwf).
  exists x, st1. split; [exact Hx |]. intros st.
  unfold _add_headway_constraints.
  apply forM__skip. intros track st' _.
  apply forM__skip. intros [i train1] st'' Ht1%elem_of_enumerate_snd.
  apply forM__skip. intros [k train2] st''' Ht2%elem_of_enumerate_snd. simpl in *.
  destruct (i >=? k); [done |].
  destruct (keys_are_has _ _ _ _ (proj1 Hwf) Ht1) as [xt1 Hxt1].
  destruct (keys_are_has _ _ _ _ (proj1 Hwf) Ht2) as [xt2 Hxt2].
  unfold mbind, M_bind, getitem.
  rewrite (subscript_Some _ _ _ Hxt1), (subscript_Some _ _ _ Hxt2).
  destruct (contains xt1 (segment_id track) && contains xt2 (segment_id track)); [| done].
  unfold time_slots. rewrite len_range.
  destruct (decide (0 ≤ time_horizon_minutes config)) as [Hpos | Hneg].
  - replace (range (Z.max 0 (time_horizon_minutes config) - _)) with (@nil Z); [done |].
    unfold range. by replace (Z.to_nat _) with 0%nat by lia.
  - (* a negative horizon is an empty range of ticks; the window may still
       be non-empty but no tick satisfies [t + h < 0] *)
    apply forM__skip. intros t st4 Ht%elem_of_range.
    apply forM__skip. intros h st5 Hh%elem_of_range_from.
    destruct (t + h <? Z.max 0 (time_horizon_minutes config)) eqn:Hlt; [| done].
    apply Z.ltb_lt in Hlt. lia.
Qed.

(** The one-train example has horizon 2 and buffer 2. *)
Lemma headway_pass_needs_long_horizon_witness :
  ∃ x st1,
    new_x sp_config [ord_trainB; ord_trainA] [ord_track1] Cp.empty_model = inr (x, st1) ∧
    ∀ st, _add_headway_constraints sp_config [ord_trainB; ord_trainA] [ord_track1] x st
          = inr (tt, st).
Proof. apply headway_pass_needs_long_horizon. simpl. lia. Defined.

(** * More of the performance monitor *)

(** Two runs ended once each are both in the history. *)
Lemma history_when_each_run_ends_once_witness : history_shows_recent_runs mon_two_runs.
Proof. apply history_when_each_run_ends_once. reflexivity. Defined.

Lemma step_refs_valid self c : refs_valid self → refs_valid (Monitor.step self c).
Proof.
  intros [Hh Hc]. destruct c as [now nt nk nq | now mem cpu obj res del st]; simpl.
  - unfold Monitor.start_optimization. split; simpl.
    + intros r Hr. rewrite length_app. simpl. specialize (Hh r Hr). lia.
    + intros r [= <-]. rewrite length_app. simpl. lia.
  - unfold Monitor.end_optimization.
    destruct (Monitor.current_metrics self) as [r |] eqn:Hcur;
      [| split; [done | by rewrite Hcur]].
    destruct (Monitor.store self !! r) as [cur |] eqn:Hstore;
      [| split; [done | by rewrite Hcur]].
    rewrite trim_last_n. split; simpl.
    + intros r' Hr'. rewrite length_insert. apply (subseteq_drop _ _) in Hr'.
      apply elem_of_app in Hr' as [Hr' | ->%list_elem_of_singleton]; [by apply Hh |].
      by apply Hc.
    + intros r' Hr'. rewrite length_insert. apply Hc. by rewrite <- Hr'.
Qed.

Lemma run_refs_valid calls : refs_valid (Monitor.run calls).
Proof.
  unfold Monitor.run.
  assert (∀ self, refs_valid self → refs_valid (fold_left Monitor.step calls self)) as Hgen.
  { induction calls as [| c calls IH]; intros self Hself; [done |].
    simpl. by apply IH, step_refs_valid. }
  apply Hgen. split; simpl; [by intros r ?%elem_of_nil | done].
Qed.

Lemma records_length self :
  refs_valid self → length (Monitor.records self) = length (Monitor.metrics_history self).
Proof.
  intros [Hh _]. unfold Monitor.records. apply omap_length_total.
  intros r Hr. apply lookup_lt_is_Some. by apply Hh.
Qed.

(** Whatever the calls, every entry of the history is a live record: the
    history shows as many records as it has entries, at most 100, and
    [current_metrics], when set, refers to a stored object. *)
Theorem history_holds_live_records :
  ∀ calls,
    let self := Monitor.run calls in
    length (Monitor.records self) = length (Monitor.metrics_history self) ∧
    (length (Monitor.records self) ≤ 100)%nat ∧
    (∀ r, Monitor.current_metrics self = Some r → is_Some (Monitor.store self !! r)).
Proof.
  intros calls self. pose proof (run_refs_valid calls) as Hvalid. fold self in Hvalid.
  split; [by apply records_length |]. split.
  - rewrite records_length by done. apply history_bounded.
  - intros r Hr. apply lookup_lt_is_Some. by apply Hvalid.
Qed.

(** [set_model_complexity] and [end_optimization] commute: the counts can
    be set before or after the run is ended, the record in the history is
    the same, since the history holds the object itself. *)
Theorem complexity_can_be_set_after_end :
  ∀ self v c now mem cpu obj res del st,
    set_model_complexity v c (Monitor.end_optimization now mem cpu obj res del st self)
    = Monitor.end_optimization now mem cpu obj res del st (set_model_complexity v c self).
Proof.
  intros self v c now mem cpu obj res del st.
  unfold set_model_complexity, Monitor.end_optimization.
  destruct (Monitor.current_metrics self) as [r |] eqn:Hcur; [| by rewrite Hcur].
  destruct (Monitor.store self !! r) as [cur |] eqn:Hstore; simpl.
  - assert (r < length (Monitor.store self))%nat as Hr by (by eapply lookup_lt_Some).
    rewrite !list_lookup_insert_eq by done. simpl.
    by rewrite !list_insert_insert_eq.
  - by rewrite ?Hcur, ?Hstore.
Qed.

Section SummaryFacts.

Variable round : Q → Z → Q.

Lemma last_drop_lt {A} k (l : list A) : (k < length l)%nat → last (drop k l) = last l.
Proof.
  revert k. induction l as [| a l IH]; intros k Hk; simpl in *; [lia |].
  destruct k as [| k]; [done |]. simpl. rewrite IH by lia.
  destruct l; simpl in *; [lia | done].
Qed.

Lemma last_n_length {A} n (l : list A) :
  length (Monitor.last_n n l) = Nat.min n (length l).
Proof. unfold Monitor.last_n. rewrite length_drop. lia. Qed.

(** The summary counts. Whatever the calls, [get_performance_summary]
    answers with the message exactly when the history is empty; otherwise
    [total_runs] is the length of the history, between 1 and 100, and
    [recent_runs] is the smaller of 10 and [total_runs], so the averages
    never divide by zero. *)
Theorem summary_counts :
  ∀ calls,
    match get_performance_summary round (Monitor.run calls) with
    | NoRuns message =>
        Monitor.metrics_history (Monitor.run calls) = [] ∧
        message = "No optimization runs recorded"%string
    | Runs s =>
        total_runs s = len (Monitor.metrics_history (Monitor.run calls)) ∧
        1 ≤ total_runs s ≤ 100 ∧
        recent_runs s = Z.min 10 (total_runs s)
    end.
Proof.
  intros calls. pose proof (run_refs_valid calls) as Hvalid.
  pose proof (records_length _ Hvalid) as Hlen.
  pose proof (history_bounded calls) as Hbound.
  unfold get_performance_summary.
  destruct (last (Monitor.records (Monitor.run calls))) as [latest |] eqn:Hlast.
  - simpl. unfold len. rewrite last_n_length, Hlen.
    assert (length (Monitor.records (Monitor.run calls)) ≠ 0)%nat as Hne.
    { intros Hz. apply length_zero_iff_nil in Hz. by rewrite Hz in Hlast. }
    split; [done |]. split; lia.
  - apply last_None in Hlast. rewrite Hlast in Hlen. simpl in Hlen.
    split; [| done]. symmetry in Hlen. by apply length_zero_iff_nil in Hlen.
Qed.

(** The last run of the summary. When a run has been started, right after
    [end_optimization] the summary's [last_run] carries the values just
    reported, whatever was called before. *)
Theorem summary_last_run_is_latest_report :
  ∀ calls now mem cpu obj res del st,
    is_Some (Monitor.current_metrics (Monitor.run calls)) →
    ∃ s cur,
      get_performance_summary round
        (Monitor.run (calls ++ [Monitor.End_ now mem cpu obj res del st])) = Runs s ∧
      (r ← Monitor.current_metrics (Monitor.run calls); Monitor.store (Monitor.run calls) !! r)
        = Some cur ∧
      last_run s = mkLastRun (now - Monitor.start_time cur) obj st (Monitor.num_trains cur) res.
Proof.
  intros calls now mem cpu obj res del st [r Hcur].
  pose proof (run_refs_valid calls) as Hvalid.
  unfold Monitor.run in *. rewrite fold_left_app. simpl.
  set (self := fold_left Monitor.step calls Monitor.init) in *.
  assert (r < length (Monitor.store self))%nat as Hr by (by apply Hvalid).
  unfold Monitor.end_optimization. rewrite Hcur. cbv beta iota.
  destruct (Monitor.store self !! r) as [cur |] eqn:Hstore;
    [| by apply lookup_ge_None in Hstore; lia].
  rewrite trim_last_n.
  match goal with |- context [<[r := ?o]> _] => set (rep := o) end.
  assert (last (Monitor.records
            (Monitor.mkMonitor (<[r := rep]> (Monitor.store self))
               (Monitor.last_n 100 (Monitor.metrics_history self ++ [r])) (Some r)))
          = Some rep) as Hlast.
  { unfold Monitor.records. simpl. unfold Monitor.last_n.
    rewrite omap_drop_total.
    2: { intros r' [Hr' | ->%list_elem_of_singleton]%elem_of_app.
         - apply lookup_lt_is_Some. rewrite length_insert. by apply (proj1 Hvalid).
         - apply lookup_lt_is_Some. by rewrite length_insert. }
    rewrite omap_app. csimpl. rewrite list_lookup_insert_eq by done. csimpl.
    rewrite last_drop_lt; [by rewrite last_snoc |].
    rewrite !length_app, omap_length_total; [simpl; lia |].
    intros r' Hr'. apply lookup_lt_is_Some. rewrite length_insert. by apply (proj1 Hvalid). }
  unfold get_performance_summary. rewrite Hlast.
  eexists _, cur. split; [reflexivity |]. split; [by csimpl |]. reflexivity.
Qed.

End SummaryFacts.

(** After [Start 0 2 1 0], ending the run at 5 with objective 1: the
    summary's last run has solve time 5 and 2 trains. *)
Lemma summary_last_run_is_latest_report_witness :
  ∃ s cur,
    get_performance_summary (λ q _, q)
      (Monitor.run ([Monitor.Start 0 2 1 0] ++ [Monitor.End_ 5 0%Q 0%Q 1%Q 0 0 "OPTIMAL"]))
      = Runs s ∧
    (r ← Monitor.current_metrics (Monitor.run [Monitor.Start 0 2 1 0]);
     Monitor.store (Monitor.run [Monitor.Start 0 2 1 0]) !! r) = Some cur ∧
    last_run s = mkLastRun (5 - Monitor.start_time cur) 1%Q "OPTIMAL" (Monitor.num_trains cur) 0.
Proof.
  apply (summary_last_run_is_latest_report (λ q _, q) [Monitor.Start 0 2 1 0]).
  by eexists.
Defined.

(** * Metrics and objective under feasible solver answers *)

Lemma sum_Z_cons z (l : list Z) : sum_Z (z :: l) = z + sum_Z l.
Proof. change (z :: l) with ([z] ++ l). rewrite sum_Z_app. unfold sum_Z at 1. simpl. lia. Qed.

Lemma sum_Z_bounds (l : list Z) lo hi :
  (∀ z, z ∈ l → lo ≤ z ≤ hi) → len l * lo ≤ sum_Z l ≤ len l * hi.
Proof.
  unfold len. induction l as [| z l IH]; intros Hl; [unfold sum_Z; simpl; lia |].
  rewrite sum_Z_cons.
  specialize (Hl z (list_elem_of_here _ _)) as Hz.
  destruct IH as [IH1 IH2]; [intros z' Hz'; apply Hl; by right |].
  simpl length. rewrite Nat2Z.inj_succ. nia.
Qed.

Lemma _calculate_metrics_values vars solver trains conflicts :
  has_keys train_id trains (var_s vars) →
  has_keys conflict_id conflicts (var_c vars) →
  has_keys train_id trains (var_j vars) →
  ∃ metrics,
    _calculate_metrics vars solver trains conflicts = inr metrics ∧
    metrics_total_delay metrics
      = sum_Z ((λ train, Value solver (default (0%nat : Cp.var) (var_s vars !! train_id train)))
                 <$> trains) ∧
    metrics_conflicts_resolved metrics = count_resolved vars solver conflicts ∧
    metrics_objective_value metrics = ObjectiveValue solver ∧
    (trains = [] → metrics_average_delay metrics = 0%Q ∧
                   metrics_average_journey_time metrics = 0%Q).
Proof.
  intros Hs Hc Hj. unfold _calculate_metrics.
  assert (collectM (λ train, sv ← subscript (var_s vars) (train_id train);
                             mret (Value solver sv)) trains
          = inr ((λ train, Value solver (default (0%nat : Cp.var) (var_s vars !! train_id train)))
                   <$> trains)) as Hss.
  { apply collectM_inr. intros train Htrain. destruct (Hs train Htrain) as [sv Hsv].
    cbv beta. by rewrite (subscript_Some _ _ _ Hsv), Hsv. }
  rewrite Hss. clear Hss. simpl. rewrite (resolved_loop _ _ _ [] Hc). simpl.
  destruct trains as [| train0 trains'] eqn:Htrains; simpl.
  - eexists. split; [done |]. simpl. split; [done |]. split; [apply sum_Z_ones | done].
  - rewrite <- Htrains in *.
    assert (collectM (λ train, jv ← subscript (var_j vars) (train_id train);
                               mret (Value solver jv)) trains
            = inr ((λ train, Value solver (default (0%nat : Cp.var) (var_j vars !! train_id train)))
                     <$> trains)) as Hjs.
    { apply collectM_inr. intros train Htrain. destruct (Hj train Htrain) as [jv Hjv].
      cbv beta. by rewrite (subscript_Some _ _ _ Hjv), Hjv. }
    rewrite Htrains in Hjs at 1. simpl in Hjs. rewrite Hjs. simpl.
    eexists. split; [done |]. simpl. split; [done |].
    split; [apply sum_Z_ones |]. split; [done |].
    intros Hnil. by rewrite Htrains in Hnil.
Qed.

Lemma count_resolved_bounds vars solver conflicts :
  0 ≤ count_resolved vars solver conflicts ≤ len conflicts.
Proof.
  unfold count_resolved, len. split; [lia |].
  apply inj_le. induction conflicts as [| q conflicts IH]; simpl; [done |].
  destruct (match var_c vars !! conflict_id q with Some cq => _ | None => _ end); simpl; lia.
Qed.

(** Metrics of a feasible answer. When the values of the solver form a
    feasible assignment of the built model, [_calculate_metrics] returns:
    the total delay is between 0 and [min(120, H // 2)] per listed train,
    the number of resolved conflicts is between 0 and the number of
    conflicts, the objective value is the solver's, and with no train the
    two averages are 0. *)
Theorem metrics_of_feasible_answer :
  ∀ today_midnight config trains tracks conflicts,
  ∃ vars m,
    _create_model today_midnight config trains tracks conflicts Cp.empty_model = inr (vars, m) ∧
    ∀ solver, Cp.feasible m (Value solver) = true →
    ∃ metrics,
      _calculate_metrics vars solver trains conflicts = inr metrics ∧
      0 ≤ metrics_total_delay metrics
        ≤ len trains * Z.min 120 (time_horizon_minutes config / 2) ∧
      0 ≤ metrics_conflicts_resolved metrics ≤ len conflicts ∧
      metrics_objective_value metrics = ObjectiveValue solver ∧
      (trains = [] → metrics_average_delay metrics = 0%Q ∧
                     metrics_average_journey_time metrics = 0%Q).
Proof.
  intros today_midnight config trains tracks conflicts.
  destruct (_create_model_returns today_midnight config trains tracks conflicts Cp.empty_model)
    as (vars & m & Hrun & Hwf).
  exists vars, m. split; [exact Hrun |]. intros solver Hfeas.
  pose proof (run_within_domains _ _ _ _ _ _ _ _ Hrun Hfeas) as (_ & Hdom & _).
  destruct Hwf as (_ & Hs & Hc & Hj).
  destruct (_calculate_metrics_values vars solver trains conflicts Hs Hc Hj)
    as (metrics & Hm & Hdelay & Hres & Hobj & Havg).
  exists metrics. split; [exact Hm |]. split; [| split; [| split; [exact Hobj | exact Havg]]].
  - rewrite Hdelay.
    pose proof (sum_Z_bounds
      ((λ train, Value solver (default (0%nat : Cp.var) (var_s vars !! train_id train)))
         <$> trains) 0 (Z.min 120 (time_horizon_minutes config / 2))) as Hb.
    unfold len in Hb. rewrite length_fmap in Hb. unfold len.
    destruct Hb as [Hb1 Hb2]; [| lia].
    intros z (train & -> & Htrain)%list_elem_of_fmap.
    destruct (Hs train Htrain) as [sv Hsv]. rewrite Hsv. simpl. by eapply Hdom.
  - rewrite Hres. apply count_resolved_bounds.
Qed.

(** In the two-train model with A delayed by 3 minutes the total delay
    is at most 2 * min(120, 8 // 2). *)
Lemma metrics_of_feasible_answer_witness :
  ∃ vars m metrics,
    _create_model 0 hw_config hw_trains hw_tracks [] Cp.empty_model = inr (vars, m) ∧
    _calculate_metrics vars (mkSolver OPTIMAL hw_assignment 0%Q) hw_trains [] = inr metrics ∧
    0 ≤ metrics_total_delay metrics ≤ 8.
Proof.
  destruct (metrics_of_feasible_answer 0 hw_config hw_trains hw_tracks [])
    as (vars & m & Hrun & Hall).
  destruct (Hall (mkSolver OPTIMAL hw_assignment 0%Q)) as (metrics & Hm & Hdelay & _).
  - pose proof Hrun as Hrun'. vm_compute in Hrun'. injection Hrun' as <- <-. reflexivity.
  - exists vars, m, metrics. split; [exact Hrun |]. split; [exact Hm | exact Hdelay].
Defined.

Lemma Qsum_nonneg (l : list Q) : (∀ q, q ∈ l → (0 <= q)%Q) → (0 <= Qsum l)%Q.
Proof.
  induction l as [| q l IH]; intros Hl; csimpl; [apply Qle_refl |].
  replace 0%Q with (0 + 0)%Q by reflexivity. apply Qplus_le_compat.
  - apply Hl. by left.
  - apply IH. intros q' Hq'. apply Hl. by right.
Qed.

Lemma inject_Z_nonneg z : 0 ≤ z → (0 <= inject_Z z)%Q.
Proof. intros Hz. change 0%Q with (inject_Z 0). by rewrite <- Zle_Qle. Qed.

(** The objective is bounded below. With non-negative weights, priorities
    and severities at most 6 (the schema has them between 1 and 5), the
    objective is non-negative under every feasible assignment of the built
    model: [Minimize] is given a bounded problem. *)
Theorem objective_nonnegative :
  ∀ today_midnight config trains tracks conflicts,
    (0 <= delay_weight config)%Q → (0 <= conflict_weight config)%Q →
    (0 <= priority_multiplier config)%Q →
    (∀ train, train ∈ trains → priority train ≤ 6) →
    (∀ q, q ∈ conflicts → severity q ≤ 6) →
    ∃ vars m obj,
      _create_model today_midnight config trains tracks conflicts Cp.empty_model
        = inr (vars, m) ∧
      Cp.objective m = Some obj ∧
      ∀ a, Cp.feasible m a = true → (0 <= Cp.feval a obj)%Q.
Proof.
  intros today_midnight config trains tracks conflicts Hdw Hcw Hpm Hprio Hsev.
  destruct (objective_is_sum_of_terms today_midnight config trains tracks conflicts)
    as (vars & m & Hrun & (_ & Hs & Hc & Hj) & Hob).
  eexists vars, m, _. split; [exact Hrun |]. split; [exact Hob |].
  intros a Hfeas.
  pose proof (run_within_domains _ _ _ _ _ _ _ _ Hrun Hfeas) as (_ & Hds & Hdc & _ & Hdj).
  assert (∀ train, train ∈ trains →
            0 ≤ a (default (0%nat : Cp.var) (var_s vars !! train_id train))) as Hsv.
  { intros train Htrain. destruct (Hs train Htrain) as [sv Hsv]. rewrite Hsv. simpl.
    by eapply Hds. }
  assert (∀ train, train ∈ trains →
            0 ≤ a (default (0%nat : Cp.var) (var_j vars !! train_id train))) as Hjv.
  { intros train Htrain. destruct (Hj train Htrain) as [jv Hjv]. rewrite Hjv. simpl.
    by eapply Hdj. }
  assert (∀ q, q ∈ conflicts →
            0 ≤ a (default (0%nat : Cp.var) (var_c vars !! conflict_id q))) as Hcv.
  { intros q Hq. destruct (Hc q Hq) as [cv Hcv]. rewrite Hcv. simpl.
    destruct (Hdc _ _ Hcv) as [-> | ->]; lia. }
  rewrite feval_py_fsum. apply Qsum_nonneg.
  intros q (term & -> & Hterm)%list_elem_of_fmap. unfold objective_terms in Hterm.
  apply elem_of_app in Hterm as [Hterm | Hterm];
    [| apply elem_of_app in Hterm as [Hterm | Hterm];
       [| apply elem_of_app in Hterm as [Hterm | Hterm]]].
  - apply list_elem_of_fmap in Hterm as (train & -> & Htrain). simpl.
    apply Qmult_le_0_compat; [| by apply inject_Z_nonneg, Hsv].
    apply Qmult_le_0_compat; [| done].
    apply Qmult_le_0_compat; [done |].
    apply inject_Z_nonneg. specialize (Hprio train Htrain). lia.
  - apply list_elem_of_fmap in Hterm as (train & -> & Htrain). simpl.
    apply Qmult_le_0_compat; [| by apply inject_Z_nonneg, Hjv].
    apply Qmult_le_0_compat; [done | discriminate].
  - apply list_elem_of_fmap in Hterm as (q & -> & Hq). simpl.
    apply Qmult_le_0_compat; [| by apply inject_Z_nonneg, Hcv].
    apply Qmult_le_0_compat; [done |].
    apply inject_Z_nonneg. specialize (Hsev q Hq). lia.
  - apply list_elem_of_singleton in Hterm as ->. simpl.
    apply Qmult_le_0_compat; [apply Qmult_le_0_compat; [done | discriminate] |].
    apply inject_Z_nonneg. rewrite eval_py_sum.
    pose proof (sum_Z_bounds
      (a <$> ((λ train, default (0%nat : Cp.var) (var_s vars !! train_id train)) <$> trains))
      0 0) as Hb.
    assert (∀ l : list Z, (∀ z, z ∈ l → 0 ≤ z) → 0 ≤ sum_Z l) as Hpos.
    { clear. induction l as [| z l IH]; intros Hl; [done |].
      rewrite sum_Z_cons.
      specialize (Hl z (list_elem_of_here _ _)) as Hz.
      specialize (IH (λ z' Hz', Hl z' (list_elem_of_further _ _ _ Hz'))). lia. }
    apply Hpos. intros z (v & -> & (train & -> & Htrain)%list_elem_of_fmap)%list_elem_of_fmap.
    by apply Hsv.
Qed.

(** The two-train model with the default weights. *)
Lemma objective_nonnegative_witness :
  ∃ vars m obj,
    _create_model 0 hw_config hw_trains hw_tracks [] Cp.empty_model = inr (vars, m) ∧
    Cp.objective m = Some obj ∧
    (0 <= Cp.feval hw_assignment obj)%Q.
Proof.
  destruct (objective_nonnegative 0 hw_config hw_trains hw_tracks [])
    as (vars & m & obj & Hrun & Hobj & Hall).
  - discriminate.
  - discriminate.
  - discriminate.
  - intros train [-> | ->%list_elem_of_singleton]%elem_of_cons; simpl; lia.
  - by intros q ?%elem_of_nil.
  - exists vars, m, obj. split; [exact Hrun |]. split; [exact Hobj |].
    apply Hall. pose proof Hrun as Hrun'. vm_compute in Hrun'. injection Hrun' as <- <-.
    reflexivity.
Defined.

(** * More of [optimize] and its caller *)



Section EndpointFacts.

Variable Solve : Z → Cp.CpModel → CpSolver.
Variable today_midnight : Z.
Variable clock_start clock_end : Z.
Variable base_time : Z.
Variable missing_key : string.


End EndpointFacts.



(** * Passes that exclude nothing *)

Section Conservative.

Variable P : Cp.assignment → Prop.
Variable bound : nat.
Hypothesis P_below : below bound P.

Lemma conservative_ret : conservative_on P bound (mret tt).
Proof.
  intros s u s' _ [_ ->]%runs_ret. split; [done |].
  intros a _. exists a. split; [done |]. intros a'' _. split; intros; by left.
Qed.

Lemma conservative_seq (m1 m2 : M unit) :
  conservative_on P bound m1 → conservative_on P bound m2 →
  conservative_on P bound (m1 ;; m2).
Proof.
  intros H1 H2 s u s' Hb Hr.
  apply runs_bind in Hr as ([] & s1 & Hr1 & Hr2).
  destruct (H1 _ _ _ Hb Hr1) as [Hn1 Hext1].
  destruct (H2 _ _ _ (Nat.le_trans _ _ _ Hb Hn1) Hr2) as [Hn2 Hext2].
  split; [lia |]. intros a Ha.
  destruct (Hext1 a Ha) as (a1 & Hagree1 & Hold1).
  destruct (Hext2 a1) as (a2 & Hagree2 & Hold2).
  { apply (P_below a); [| done]. intros v Hv. apply Hagree1. lia. }
  exists a2. split.
  - intros v Hv. rewrite Hagree2 by lia. by apply Hagree1.
  - intros a'' Hagree.
    destruct (Hold2 a'' Hagree) as [Hc2 Hd2].
    destruct (Hold1 a'') as [Hc1 Hd1].
    { intros v Hv. rewrite Hagree by lia. by apply Hagree2. }
    split.
    + intros ct Hct. destruct (Hc2 ct Hct) as [Hin | Hholds]; [by apply Hc1 | by right].
    + intros d Hd. destruct (Hd2 d Hd) as [Hin | Hholds]; [by apply Hd1 | by right].
Qed.

Lemma conservative_forM_ {A} (l : list A) (f : A → M unit) :
  (∀ x, x ∈ l → conservative_on P bound (f x)) → conservative_on P bound (forM_ l f).
Proof.
  induction l as [| x l IH]; intros Hf; simpl.
  - apply conservative_ret.
  - apply conservative_seq; [apply Hf; by left |].
    apply IH. intros y Hy. apply Hf. by right.
Qed.



End Conservative.






Lemma below_True bound : below bound (λ _, True).
Proof. done. Qed.

(** * The platform pass *)

Lemma runs_p_at p tid station s v s' :
  runs_to (p_at p tid station) s v s' → p_get p tid station = Some v ∧ s' = s.
Proof.
  unfold p_at, p_get. intros Hr.
  apply runs_bind in Hr as (pt & ? & [Hpt ->]%runs_getitem & [Hv ->]%runs_getitem).
  by rewrite Hpt.
Qed.

(** One pair of trains at one station: the flag can be given the value
    that matches the two platform values. *)
Lemma conservative_pair bound p tid1 tid2 station :
  (∀ tid st v, p_get p tid st = Some v → (v < bound)%nat) →
  conservative_on (λ _, True) bound
    (same_platform ← NewBoolVar;
     p1 ← p_at p tid1 station;
     p2 ← p_at p tid2 station;
     AddOnlyEnforceIf (Cp.EVar p1) Cp.Eq (Cp.EVar p2) (Cp.Pos same_platform);;
     p1' ← p_at p tid1 station;
     p2' ← p_at p tid2 station;
     AddOnlyEnforceIf (Cp.EVar p1') Cp.Ne (Cp.EVar p2') (Cp.Neg same_platform)).
Proof.
  intros Hp s u s' Hb Hr.
  apply runs_bind in Hr as (same & s1 & Hnew & Hr).
  unfold NewBoolVar, NewIntVar, runs_to in Hnew. injection Hnew as <- <-.
  apply runs_bind in Hr as (p1 & ? & [Hp1 ->]%runs_p_at & Hr).
  apply runs_bind in Hr as (p2 & ? & [Hp2 ->]%runs_p_at & Hr).
  apply runs_bind in Hr as ([] & s2 & Hadd1 & Hr).
  unfold AddOnlyEnforceIf, add_constraint, runs_to in Hadd1. injection Hadd1 as <-.
  apply runs_bind in Hr as (p1' & ? & [Hp1' ->]%runs_p_at & Hr).
  apply runs_bind in Hr as (p2' & ? & [Hp2' ->]%runs_p_at & Hr).
  unfold AddOnlyEnforceIf, add_constraint, runs_to in Hr. injection Hr as Hs'. subst s'.
  rewrite Hp1 in Hp1'. injection Hp1' as <-. rewrite Hp2 in Hp2'. injection Hp2' as <-.
  simpl. split; [lia |]. intros a _.
  pose proof (Hp _ _ _ Hp1) as Hlt1. pose proof (Hp _ _ _ Hp2) as Hlt2.
  exists (λ v, if bool_decide (v = Cp.next_var s)
               then (if a p1 =? a p2 then 1 else 0) else a v).
  split.
  - intros v Hv. rewrite bool_decide_eq_false_2 by lia. done.
  - intros a'' Hagree.
    assert (a'' p1 = a p1) as E1.
    { rewrite Hagree by lia. by rewrite bool_decide_eq_false_2 by lia. }
    assert (a'' p2 = a p2) as E2.
    { rewrite Hagree by lia. by rewrite bool_decide_eq_false_2 by lia. }
    assert (a'' (Cp.next_var s) = if a p1 =? a p2 then 1 else 0) as E3.
    { rewrite Hagree by lia. by rewrite bool_decide_eq_true_2. }
    split.
    + intros ct [[Hct | ->%list_elem_of_singleton]%elem_of_app
                | ->%list_elem_of_singleton]%elem_of_app.
      * by left.
      * right. simpl. rewrite E1, E2, E3. by destruct (a p1 =? a p2).
      * right. simpl. rewrite E1, E2, E3. by destruct (a p1 =? a p2).
    + intros d [-> | Hd]%elem_of_cons; [| by left].
      right. unfold Cp.in_domain. simpl. rewrite E3. by destruct (a p1 =? a p2).
Qed.

Lemma conservative_platform bound trains p :
  (∀ tid st v, p_get p tid st = Some v → (v < bound)%nat) →
  conservative_on (λ _, True) bound (_add_platform_constraints trains p).
Proof.
  intros Hp. unfold _add_platform_constraints.
  apply conservative_forM_; [apply below_True |]. intros [station lst] _.
  apply conservative_forM_; [apply below_True |]. intros [i train1] _.
  apply conservative_forM_; [apply below_True |]. intros [k train2] _. simpl.
  destruct (i >=? k); [apply conservative_ret |].
  destruct (has_platform p (train_id train1) station && has_platform p (train_id train2) station);
    [| apply conservative_ret].
  by apply conservative_pair.
Qed.

(** A dict filled in a loop holds values bounded by the variable counter. *)
Lemma runs_fill_bound {A K V} `{Countable K} (key : A → K) (mk : A → M V)
    (Q : V → nat → Prop) (l : list A) (d0 : gmap K V) s d s' :
  (∀ v n n', (n ≤ n')%nat → Q v n → Q v n') →
  (∀ a s1 v s2, runs_to (mk a) s1 v s2 →
     (Cp.next_var s1 ≤ Cp.next_var s2)%nat ∧ Q v (Cp.next_var s2)) →
  runs_to (foldM (λ d a, v ← mk a; mret (<[key a := v]> d)) d0 l) s d s' →
  (∀ k v, d0 !! k = Some v → Q v (Cp.next_var s)) →
  (Cp.next_var s ≤ Cp.next_var s')%nat ∧ ∀ k v, d !! k = Some v → Q v (Cp.next_var s').
Proof.
  intros Hstable Hmk. revert d0 s.
  induction l as [| a l IH]; intros d0 s Hr H0; simpl in Hr.
  - apply runs_ret in Hr as [-> ->]. done.
  - apply runs_bind in Hr as (d1 & s1 & Hstep & Hr).
    apply runs_bind in Hstep as (v & s2 & Hv & [-> ->]%runs_ret).
    destruct (Hmk _ _ _ _ Hv) as [Hle HQ].
    apply IH in Hr as [Hle' Hall].
    + split; [lia | done].
    + intros k w. destruct (decide (k = key a)) as [-> | Hne].
      * rewrite lookup_insert_eq. by intros [= <-].
      * rewrite lookup_insert_ne by done. intros Hw.
        eapply Hstable; [exact Hle | by eapply H0].
Qed.

Lemma new_p_below trains s p s' :
  runs_to (new_p trains) s p s' →
  ∀ tid station v, p_get p tid station = Some v → (v < Cp.next_var s')%nat.
Proof.
  unfold new_p, p_get. intros Hr tid station v Hv.
  destruct (p !! tid) as [pt |] eqn:Hpt; simpl in Hv; [| done].
  pose (Qpt := λ (pt : gmap string Cp.var) (n : nat), ∀ st v, pt !! st = Some v → (v < n)%nat).
  assert (Qpt pt (Cp.next_var s')) as HQ; [| by eapply HQ].
  eapply (runs_fill_bound train_id _ Qpt); [| | exact Hr | | exact Hpt].
  - intros r n n' Hn Hq st w Hw. specialize (Hq st w Hw). lia.
  - intros train s1 pt1 s2 Hr1. cbv beta in Hr1.
    eapply (runs_fill_bound (λ st : string, st) _ (λ (w : Cp.var) n, (w < n)%nat));
      [| | exact Hr1 |].
    + intros w n n' Hn Hw. lia.
    + intros st sa w sb Hnew. unfold NewIntVar, runs_to in Hnew.
      injection Hnew as <- <-. simpl. lia.
    + intros k w. by rewrite lookup_empty.
  - intros k w. by rewrite lookup_empty.
Qed.

(** The platform pass excludes nothing. For the platform variables made by
    [new_p] and any later state of the model, [_add_platform_constraints]
    returns, and every assignment can be changed on the flags the pass
    creates, and on nothing that existed before, so that every constraint
    and every domain the pass adds holds: the two half-reified constraints
    on [same_platform] never force two trains onto different platforms. *)
Theorem platform_pass_excludes_nothing :
  ∀ trains st0,
  ∃ p st1,
    new_p trains st0 = inr (p, st1) ∧
    ∀ st, (Cp.next_var st1 ≤ Cp.next_var st)%nat →
    ∃ st',
      _add_platform_constraints trains p st = inr (tt, st') ∧
      ∀ a, ∃ a',
        (∀ v, (v < Cp.next_var st)%nat → a' v = a v) ∧
        (∀ ct, ct ∈ Cp.constraints st' →
           ct ∈ Cp.constraints st ∨ Cp.constraint_holds a' ct = true) ∧
        (∀ d, d ∈ Cp.domains st' → d ∈ Cp.domains st ∨ Cp.in_domain a' d = true).
Proof.
  intros trains st0.
  destruct (new_p_returns trains st0) as (p & st1 & Hp & _).
  exists p, st1. split; [exact Hp |]. intros st Hst.
  destruct (_add_platform_constraints_returns trains p st) as ([] & st' & Hrun & _).
  exists st'. split; [exact Hrun |]. intros a.
  destruct (conservative_platform (Cp.next_var st1) trains p (new_p_below _ _ _ _ Hp)
              st tt st' Hst Hrun) as [_ Hext].
  destruct (Hext a I) as (a' & Hagree & Hold).
  exists a'. split; [exact Hagree |]. by apply Hold.
Qed.

(** Two trains through S1 and S2, platforms made from the empty model:
    the pass adds four constraints, all of which hold once the flags are
    set. *)
Lemma platform_pass_excludes_nothing_witness :
  ∃ p st1 st',
    new_p hw_trains Cp.empty_model = inr (p, st1) ∧
    _add_platform_constraints hw_trains p st1 = inr (tt, st') ∧
    ∃ a', ∀ ct, ct ∈ Cp.constraints st' →
            ct ∈ Cp.constraints st1 ∨ Cp.constraint_holds a' ct = true.
Proof.
  destruct (platform_pass_excludes_nothing hw_trains Cp.empty_model) as (p & st1 & Hp & Hall).
  destruct (Hall st1) as (st' & Hrun & Hext); [lia |].
  destruct (Hext (λ _, 1)) as (a' & _ & Hc & _).
  exists p, st1, st'. split; [exact Hp |]. split; [exact Hrun |]. by exists a'.
Defined.

(** * The extracted schedule *)

Lemma entries_at_app base_time sid t l1 l2 :
  entries_at base_time sid t (l1 ++ l2)
  = entries_at base_time sid t l1 + entries_at base_time sid t l2.
Proof. unfold entries_at, len. rewrite List.filter_app, length_app. lia. Qed.

Lemma entries_at_perm base_time sid t l1 l2 :
  l1 ≡ₚ l2 → entries_at base_time sid t l1 = entries_at base_time sid t l2.
Proof.
  unfold entries_at, len. intros Hp. f_equal.
  induction Hp as [| e l l' _ IH | e e' l | l l' l'' _ IH1 _ IH2]; simpl.
  - done.
  - destruct (covers _ _ _ e); simpl; by rewrite IH.
  - destruct (covers _ _ _ e), (covers _ _ _ e'); simpl; done.
  - by rewrite IH1.
Qed.

Section Counting.

Variable config : OptimizationConfig.
Variable vars : Variables.
Variable solver : CpSolver.
Variable base_time : Z.
Variable sid : string.
Variable t : Z.
Hypothesis binary : ∀ tid, 0 ≤ x_val solver vars tid sid t ≤ 1.

Lemma pair_count train track es :
  pair_entries config vars solver base_time train track es →
  0 ≤ entries_at base_time sid t es
    ≤ if bool_decide (segment_id track = sid)
      then x_val solver vars (train_id train) sid t else 0.
Proof.
  intros [[-> _] | (a & b & platform & [(Hab & Hb & Hones & _) _] & ->)].
  - unfold entries_at, len. simpl. pose proof (binary (train_id train)).
    destruct (bool_decide _); lia.
  - unfold entries_at, len, covers. simpl.
    destruct (bool_decide (segment_id track = sid)) eqn:Hsid; simpl; [| lia].
    apply bool_decide_eq_true in Hsid. subst sid.
    pose proof (binary (train_id train)).
    destruct (base_time + 60 * a <=? base_time + 60 * t) eqn:H1; simpl; [| lia].
    destruct (base_time + 60 * t <? base_time + 60 * (b + 1)) eqn:H2; simpl; [| lia].
    apply Z.leb_le in H1. apply Z.ltb_lt in H2.
    rewrite (Hones t) by lia. lia.
Qed.

Lemma train_count train (tracks : list TrackData) es :
  NoDup (segment_id <$> tracks) →
  train_entries config vars solver base_time tracks train es →
  0 ≤ entries_at base_time sid t es ≤ x_val solver vars (train_id train) sid t.
Proof.
  intros Hnodup (per_track & -> & Hall).
  pose proof (binary (train_id train)) as Hbin.
  assert (0 ≤ entries_at base_time sid t (concat per_track)
            ≤ if bool_decide (sid ∈ segment_id <$> tracks)
              then x_val solver vars (train_id train) sid t else 0) as Hgen.
  { induction Hall as [| track es tracks' per_track' Hpair _ IH]; simpl.
    - unfold entries_at, len. simpl. done.
    - rewrite entries_at_app. csimpl in Hnodup. apply NoDup_cons in Hnodup as [Hnotin Hnodup].
      specialize (IH Hnodup). pose proof (pair_count _ _ _ Hpair) as Hp.
      destruct (bool_decide (segment_id track = sid)) eqn:Hsid.
      + apply bool_decide_eq_true in Hsid. subst sid.
        rewrite bool_decide_eq_false_2 in IH by done.
        rewrite bool_decide_eq_true_2 by (by left). lia.
      + apply bool_decide_eq_false in Hsid.
        destruct (bool_decide (sid ∈ segment_id <$> tracks')) eqn:Hin.
        * apply bool_decide_eq_true in Hin.
          rewrite bool_decide_eq_true_2 by (by right). lia.
        * apply bool_decide_eq_false in Hin.
          rewrite bool_decide_eq_false_2; [lia |].
          intros [Heq | Hin']%elem_of_cons; [by apply Hsid | by apply Hin]. }
  destruct (bool_decide _); lia.
Qed.

Lemma loop_count (trains : list TrainData) (tracks : list TrackData) unsorted :
  NoDup (segment_id <$> tracks) →
  loop_order config vars solver base_time trains tracks unsorted →
  0 ≤ entries_at base_time sid t unsorted
    ≤ sum_Z ((λ train, x_val solver vars (train_id train) sid t) <$> trains).
Proof.
  intros Hnodup (per_train & -> & Hall).
  induction Hall as [| train es trains' per_train' Htrain _ IH].
  - unfold entries_at, len, sum_Z. simpl. done.
  - change (concat (es :: per_train')) with (es ++ concat per_train').
    rewrite entries_at_app, fmap_cons, sum_Z_cons.
    pose proof (train_count _ _ _ Hnodup Htrain). lia.
Qed.

End Counting.

(** The schedule respects capacity. When no two tracks share a segment
    id and the solver's values are a feasible assignment of the built
    model, then on every input track and at every tick of the horizon the
    number of entries of the extracted schedule whose period covers the
    tick is at most the capacity of the track (at most 0 when the capacity
    is negative). *)
Theorem schedule_respects_capacity :
  ∀ today_midnight config trains tracks conflicts,
    NoDup (segment_id <$> tracks) →
    ∃ vars m,
      _create_model today_midnight config trains tracks conflicts Cp.empty_model
        = inr (vars, m) ∧
      ∀ solver base_time, Cp.feasible m (Value solver) = true →
      ∃ schedule,
        _extract_schedule config vars solver base_time trains tracks = inr schedule ∧
        ∀ track t, track ∈ tracks → 0 ≤ t < time_horizon_minutes config →
          entries_at base_time (segment_id track) t schedule ≤ Z.max 0 (capacity track).
Proof.
  intros today_midnight config trains tracks conflicts Hnodup.
  destruct (_extract_schedule_returns today_midnight config trains tracks conflicts)
    as (vars & m & Hrun & _ & Hex).
  exists vars, m. split; [exact Hrun |]. intros solver base_time Hfeas.
  destruct (Hex solver base_time) as (unsorted & _ & Hextract & Horder).
  exists (sorted start_time unsorted). split; [exact Hextract |].
  intros track t Htrack Ht.
  rewrite (entries_at_perm _ _ _ _ _ (sorted_perm start_time unsorted)).
  pose proof (run_within_domains _ _ _ _ _ _ _ _ Hrun Hfeas) as (Hx & _).
  assert (∀ tid, 0 ≤ x_val solver vars tid (segment_id track) t ≤ 1) as Hbin.
  { intros tid. unfold x_val.
    destruct (x_get (var_x vars) tid (segment_id track) t) as [v |] eqn:Hv; [| lia].
    destruct (Hx _ _ _ _ Hv) as [-> | ->]; lia. }
  pose proof (loop_count config vars solver base_time (segment_id track) t Hbin
                trains tracks unsorted Hnodup Horder) as [_ Hcount].
  destruct trains as [| train0 trains'] eqn:Htrains.
  - unfold sum_Z in Hcount. simpl in Hcount. lia.
  - rewrite <- Htrains in *.
    assert (track_occupancy (Value solver) vars trains track t ≤ capacity track) as Hcap.
    { eapply run_capacity; [exact Hrun | exact Hfeas | by rewrite Htrains | done | done]. }
    unfold track_occupancy, x_of in Hcap. unfold x_val in Hcount. lia.
Qed.

(** In the two-train model at most one entry covers tick 1 on K1. *)
Lemma schedule_respects_capacity_witness :
  ∃ vars m schedule,
    _create_model 0 hw_config hw_trains hw_tracks [] Cp.empty_model = inr (vars, m) ∧
    _extract_schedule hw_config vars (mkSolver OPTIMAL hw_assignment 0%Q) 0 hw_trains hw_tracks
      = inr schedule ∧
    entries_at 0 "K1" 1 schedule ≤ 1.
Proof.
  destruct (schedule_respects_capacity 0 hw_config hw_trains hw_tracks [])
    as (vars & m & Hrun & Hall).
  - apply NoDup_singleton.
  - destruct (Hall (mkSolver OPTIMAL hw_assignment 0%Q) 0) as (schedule & Hs & Hcap).
    + pose proof Hrun as Hrun'. vm_compute in Hrun'. injection Hrun' as <- <-. reflexivity.
    + exists vars, m, schedule. split; [exact Hrun |]. split; [exact Hs |].
      apply (Hcap hw_track 1); [by left | simpl; lia].
Defined.

Lemma pair_entries_well_formed config vars solver base_time trains tracks train track es e :
  train ∈ trains → track ∈ tracks →
  pair_entries config vars solver base_time train track es → e ∈ es →
  entry_well_formed config vars solver base_time trains tracks e.
Proof.
  intros Htrain Htrack [[-> _] | (a & b & platform & [(Hab & Hb & Hones & _) _] & ->)] He.
  - by apply elem_of_nil in He.
  - apply list_elem_of_singleton in He as ->.
    exists train, track, a, b. simpl. repeat (split; [done |]). done.
Qed.

Lemma length_concat_le {A B} (R : A → list B → Prop) (l : list A) (ls : list (list B)) n :
  Forall2 R l ls → (∀ a bs, R a bs → (length bs ≤ n)%nat) →
  (length (concat ls) ≤ length l * n)%nat.
Proof.
  intros Hall Hn. induction Hall as [| a bs l' ls' HR _ IH]; simpl; [done |].
  rewrite length_app. specialize (Hn _ _ HR). lia.
Qed.

(** Entries are well formed. Whatever the solver's values, every entry
    of the extracted schedule is for a listed train on a listed track, runs
    from the start of a tick to the end of a tick of the horizon, with the
    train on the track at every tick in between; and there are at most as
    many entries as pairs of a listed train and a listed track. *)
Theorem schedule_entries_well_formed :
  ∀ today_midnight config trains tracks conflicts,
  ∃ vars m,
    _create_model today_midnight config trains tracks conflicts Cp.empty_model = inr (vars, m) ∧
    ∀ solver base_time,
    ∃ schedule,
      _extract_schedule config vars solver base_time trains tracks = inr schedule ∧
      (∀ e, e ∈ schedule →
         entry_well_formed config vars solver base_time trains tracks e) ∧
      (length schedule ≤ length trains * length tracks)%nat.
Proof.
  intros today_midnight config trains tracks conflicts.
  destruct (_extract_schedule_returns today_midnight config trains tracks conflicts)
    as (vars & m & Hrun & _ & Hex).
  exists vars, m. split; [exact Hrun |]. intros solver base_time.
  destruct (Hex solver base_time) as (unsorted & _ & Hextract & Horder).
  exists (sorted start_time unsorted). split; [exact Hextract |].
  destruct Horder as (per_train & -> & Hall). split.
  - intros e He. rewrite (sorted_perm start_time (concat per_train)) in He.
    apply elem_of_concat in He as (es & He & Hes).
    apply list_elem_of_lookup in Hes as [i Hi].
    destruct (Forall2_lookup_r _ _ _ _ _ Hall Hi) as (train & Htrain & Hentries).
    apply list_elem_of_lookup_2 in Htrain.
    destruct Hentries as (per_track & -> & Hpairs).
    apply elem_of_concat in He as (es' & He & Hes').
    apply list_elem_of_lookup in Hes' as [k Hk].
    destruct (Forall2_lookup_r _ _ _ _ _ Hpairs Hk) as (track & Htrack & Hpair).
    apply list_elem_of_lookup_2 in Htrack.
    by eapply pair_entries_well_formed.
  - rewrite (Permutation_length (sorted_perm start_time (concat per_train))).
    eapply length_concat_le; [exact Hall |].
    intros train es (per_track & -> & Hpairs).
    replace (length tracks) with (length tracks * 1)%nat by lia.
    eapply length_concat_le; [exact Hpairs |].
    intros track es' [[-> _] | (a & b & platform & _ & ->)]; simpl; lia.
Qed.

(** * The timing pass *)


Section Timing.

Variable today_midnight : Z.
Variable config : OptimizationConfig.
Variable trains : list TrainData.
Variable x : gmap string (gmap string (gmap Z Cp.var)).
Variable s j : gmap string Cp.var.
Variable bound : nat.
Hypothesis x_below : ∀ tid sid t v, x_get x tid sid t = Some v → (v < bound)%nat.




End Timing.


